(** * rewrite-go: change classification, application and pruning

    A shallow embedding of [rewriter.go] and [runner.go].  Go strings are
    byte strings ([string], one [ascii] per byte); the file tree the program
    mutates is a finite map from cleaned absolute paths to nodes; every
    function that touches the disk passes the [World] explicitly and returns
    the Go [error] as an [option].  Paths follow the Unix build of
    [path/filepath] ([Separator] is the slash). *)

From Stdlib Require Import ZArith Ascii String List Permutation Sorted Lia.
From stdpp Require Import base option list gmap strings sorting.

Local Open Scope Z_scope.
Local Open Scope nat_scope.

(** ** Bytes and slices of Go strings *)

Module GoString.

Definition byte_eq (a b : ascii) : bool := Ascii.eqb a b.

Definition len (s : string) : nat := String.length s.

(** [s[n:]] *)
Fixpoint from (n : nat) (s : string) : string :=
  match n, s with
  | O, _ => s
  | S n', String _ s' => from n' s'
  | S _, EmptyString => EmptyString
  end.

(** [s[:n]] *)
Fixpoint upto (n : nat) (s : string) : string :=
  match n, s with
  | O, _ => EmptyString
  | S n', String c s' => String c (upto n' s')
  | S _, EmptyString => EmptyString
  end.

Definition bytes (s : string) : list ascii := list_ascii_of_string s.
Definition of_bytes (l : list ascii) : string := string_of_list_ascii l.

Definition is_empty (s : string) : bool :=
  match s with EmptyString => true | _ => false end.

End GoString.

(** ** Package [strings] *)

Module strings.
Import GoString.

(** [strings.HasPrefix]: [len(s) >= len(prefix) && s[:len(prefix)] == prefix] *)
Fixpoint HasPrefix (s prefix : string) {struct prefix} : bool :=
  match prefix, s with
  | EmptyString, _ => true
  | String c p', String d s' => byte_eq c d && HasPrefix s' p'
  | String _ _, EmptyString => false
  end.

(** [strings.HasSuffix]: [len(s) >= len(suffix) && s[len(s)-len(suffix):] == suffix] *)
Definition HasSuffix (s suffix : string) : bool :=
  (len suffix <=? len s) && String.eqb (from (len s - len suffix) s) suffix.

(** [strings.Index]: the first position at which [substr] starts. *)
Fixpoint Index (s substr : string) : option nat :=
  if HasPrefix s substr then Some 0
  else match s with
       | EmptyString => None
       | String _ s' => S <$> Index s' substr
       end.

(** [strings.Contains]: [Index(s, substr) >= 0] *)
Definition Contains (s substr : string) : bool :=
  match Index s substr with Some _ => true | None => false end.

(** [strings.Count] for a non-empty [substr]: the loop
    [i := Index(s, substr); if i == -1 return n; n++; s = s[i+len(substr):]].
    The loop runs at most [len s] times. *)
Fixpoint Count_loop (fuel : nat) (s substr : string) : nat :=
  match fuel with
  | O => 0
  | S fuel' =>
      match Index s substr with
      | None => 0
      | Some i => S (Count_loop fuel' (from (i + len substr) s) substr)
      end
  end.

Definition Count (s substr : string) : nat := Count_loop (len s) s substr.

(** [strings.Split] for a non-empty [sep] ([genSplit] with [n < 0]):
    [n = Count(s, sep) + 1], then [n - 1] cuts at [Index(s, sep)] and the
    rest of the string as last piece. *)
Fixpoint genSplit (cuts : nat) (s sep : string) : list string :=
  match cuts with
  | O => [s]
  | S cuts' =>
      match Index s sep with
      | None => [s]
      | Some m => upto m s :: genSplit cuts' (from (m + len sep) s) sep
      end
  end.

Definition Split (s sep : string) : list string := genSplit (Count s sep) s sep.

(** [strings.Join] *)
Fixpoint Join (elems : list string) (sep : string) : string :=
  match elems with
  | [] => ""
  | [e] => e
  | e :: rest => e +:+ sep +:+ Join rest sep
  end.

Definition is_ascii_byte (c : ascii) : bool := (nat_of_ascii c <? 128).

Definition lower_byte (c : ascii) : ascii :=
  let n := nat_of_ascii c in
  if (65 <=? n) && (n <=? 90) then ascii_of_nat (n + 32) else c.

Fixpoint all_ascii (s : string) : bool :=
  match s with
  | EmptyString => true
  | String c s' => is_ascii_byte c && all_ascii s'
  end.

Fixpoint lower_ascii (s : string) : string :=
  match s with
  | EmptyString => EmptyString
  | String c s' => String (lower_byte c) (lower_ascii s')
  end.

End strings.

(** [strings.ToLower] maps the bytes 'A'..'Z' to 'a'..'z' when the string is
    pure ASCII.  For a string that holds a byte above 0x7f it goes through
    [unicode.ToLower] rune by rune; the Unicode case tables are not part of
    this development and are taken as a parameter. *)
Class UnicodeTables := {
  lower_non_ascii : string -> string;
  trim_space_non_ascii : string -> string
}.

Module strings_unicode.
Import GoString strings.

Definition ToLower `{UnicodeTables} (s : string) : string :=
  if all_ascii s then lower_ascii s else lower_non_ascii s.

(** The [asciiSpace] table: tab, line feed, vertical tab, form feed,
    carriage return, space. *)
Definition ascii_space (c : ascii) : bool :=
  let n := nat_of_ascii c in ((9 <=? n) && (n <=? 13)) || (n =? 32).

Fixpoint trim_left (s : string) : string :=
  match s with
  | String c s' => if ascii_space c then trim_left s' else s
  | EmptyString => s
  end.

Fixpoint trim_left_bytes (l : list ascii) : list ascii :=
  match l with
  | c :: l' => if ascii_space c then trim_left_bytes l' else l
  | [] => []
  end.

(** [strings.TrimSpace]; on a pure ASCII string the fast path of the
    library decides, anything else needs [unicode.IsSpace]. *)
Definition TrimSpace `{UnicodeTables} (s : string) : string :=
  if all_ascii s
  then of_bytes (rev (trim_left_bytes (rev (bytes (trim_left s)))))
  else trim_space_non_ascii s.

End strings_unicode.

(** ** Go errors

    [errno] lists the system errors the model distinguishes.  An [error] is
    a [*fs.PathError], [*os.LinkError] or [*os.SyscallError] from package
    [os], an [errors.New] value, or a [fmt.Errorf] wrapping with the [%w]
    verb (the message keeps the text in front of the wrapped error). *)

Inductive errno :=
  ENOENT | ENOTDIR | EISDIR | ENOTEMPTY | EEXIST | EACCES | EPERM | EXDEV
| EINVAL | EBUSY | EIO.

Inductive error :=
| PathError (op path : string) (e : errno)
| LinkError (op old new : string) (e : errno)
| SyscallError (call : string) (e : errno)
| ErrorString (msg : string)
| Errorf (msg : string) (err : error).

#[global] Instance errno_eq_dec : EqDecision errno.
Proof. solve_decision. Defined.

#[global] Instance error_eq_dec : EqDecision error.
Proof. solve_decision. Defined.

(** ** Package [unicode/utf8] *)

Module utf8.
Import GoString.
Local Open Scope Z_scope.

Definition RuneError : Z := 65533.

Definition byte_val (c : ascii) : Z := Z.of_N (N_of_ascii c).

(** The accept range of the second byte, from the [first] and
    [acceptRanges] tables. *)
Definition accept_lo (s0 : Z) : Z :=
  if s0 =? 224 then 160 else if s0 =? 240 then 144 else 128.
Definition accept_hi (s0 : Z) : Z :=
  if s0 =? 237 then 159 else if s0 =? 244 then 143 else 191.

Definition continuation (b : Z) : bool := (128 <=? b) && (b <=? 191).

(** [utf8.DecodeRuneInString]: the rune and its width in bytes. *)
Definition DecodeRuneInString (s : string) : Z * nat :=
  match s with
  | EmptyString => (RuneError, 0%nat)
  | String c0 t =>
      let s0 := byte_val c0 in
      if s0 <? 128 then (s0, 1%nat)
      else if (s0 <? 194) || (244 <? s0) then (RuneError, 1%nat)
      else
        let sz := if s0 <? 224 then 2%nat else if s0 <? 240 then 3%nat else 4%nat in
        if (len s <? sz)%nat then (RuneError, 1%nat)
        else
          match t with
          | EmptyString => (RuneError, 1%nat)
          | String c1 t1 =>
              let s1 := byte_val c1 in
              if (s1 <? accept_lo s0) || (accept_hi s0 <? s1) then (RuneError, 1%nat)
              else if (sz <=? 2)%nat then
                (Z.lor (Z.shiftl (Z.land s0 31) 6) (Z.land s1 63), 2%nat)
              else
                match t1 with
                | EmptyString => (RuneError, 1%nat)
                | String c2 t2 =>
                    let s2 := byte_val c2 in
                    if negb (continuation s2) then (RuneError, 1%nat)
                    else if (sz <=? 3)%nat then
                      (Z.lor (Z.lor (Z.shiftl (Z.land s0 15) 12)
                                    (Z.shiftl (Z.land s1 63) 6))
                             (Z.land s2 63), 3%nat)
                    else
                      match t2 with
                      | EmptyString => (RuneError, 1%nat)
                      | String c3 _ =>
                          let s3 := byte_val c3 in
                          if negb (continuation s3) then (RuneError, 1%nat)
                          else
                            (Z.lor (Z.lor (Z.lor (Z.shiftl (Z.land s0 7) 18)
                                                 (Z.shiftl (Z.land s1 63) 12))
                                          (Z.shiftl (Z.land s2 63) 6))
                                   (Z.land s3 63), 4%nat)
                      end
                end
          end
  end.

End utf8.

(** ** Package [path/filepath] (Unix) *)

Module filepath.
Import GoString.

Definition Separator : ascii := "/"%char.
Definition sep : string := "/".

Definition IsPathSeparator (c : ascii) : bool := byte_eq c Separator.

(** *** [Match] *)

(** Leading stars of [scanChunk]. *)
Fixpoint skip_stars (star : bool) (pattern : string) : bool * string :=
  match pattern with
  | String c rest => if byte_eq c "*" then skip_stars true rest else (star, pattern)
  | EmptyString => (star, pattern)
  end.

(** The [Scan] loop of [scanChunk]: the chunk up to the next star outside
    a character class, and what follows. *)
Fixpoint scan (inrange : bool) (pattern : string) : string * string :=
  match pattern with
  | EmptyString => (EmptyString, EmptyString)
  | String c rest =>
      if byte_eq c "\" then
        match rest with
        | String d rest' =>
            let '(chunk, r) := scan inrange rest' in (String c (String d chunk), r)
        | EmptyString => (String c EmptyString, EmptyString)
        end
      else if byte_eq c "[" then
        let '(chunk, r) := scan true rest in (String c chunk, r)
      else if byte_eq c "]" then
        let '(chunk, r) := scan false rest in (String c chunk, r)
      else if byte_eq c "*" then
        if inrange then let '(chunk, r) := scan inrange rest in (String c chunk, r)
        else (EmptyString, pattern)
      else
        let '(chunk, r) := scan inrange rest in (String c chunk, r)
  end.

Definition scanChunk (pattern : string) : bool * string * string :=
  let '(star, p) := skip_stars false pattern in
  let '(chunk, rest) := scan false p in
  (star, chunk, rest).

(** [getEsc]: one possibly escaped rune of a character class; [None] is
    [ErrBadPattern]. *)
Definition getEsc (chunk : string) : option (Z * string) :=
  match chunk with
  | EmptyString => None
  | String c0 after =>
      if byte_eq c0 "-" || byte_eq c0 "]" then None
      else
        let chunk1 := if byte_eq c0 "\" then after else chunk in
        if is_empty chunk1 then None
        else
          let '(r, n) := utf8.DecodeRuneInString chunk1 in
          if (r =? utf8.RuneError)%Z && (n =? 1) then None
          else
            let nchunk := from n chunk1 in
            if is_empty nchunk then None else Some (r, nchunk)
  end.

(** The range loop of a character class: [Some (match, chunk)] after the
    closing bracket. *)
Fixpoint class_ranges (fuel : nat) (chunk : string) (r : Z)
    (matched : bool) (nrange : nat) : option (bool * string) :=
  match fuel with
  | O => None
  | S fuel' =>
      let closing :=
        match chunk with
        | String c rest =>
            if byte_eq c "]" && (0 <? nrange) then Some rest else None
        | EmptyString => None
        end in
      match closing with
      | Some rest => Some (matched, rest)
      | None =>
          match getEsc chunk with
          | None => None
          | Some (lo, chunk1) =>
              let next hi chunk2 :=
                class_ranges fuel' chunk2 r
                  (if (lo <=? r)%Z && (r <=? hi)%Z then true else matched)
                  (S nrange) in
              match chunk1 with
              | String d after =>
                  if byte_eq d "-" then
                    match getEsc after with
                    | None => None
                    | Some (hi, chunk2) => next hi chunk2
                    end
                  else next lo chunk1
              | EmptyString => next lo chunk1
              end
          end
      end
  end.

Inductive chunk_result :=
| ChunkBad                    (* err = ErrBadPattern *)
| ChunkNo                     (* ok = false *)
| ChunkOk (rest : string).    (* ok = true *)

(** [matchChunk]: the loop over [chunk], with the [failed] flag that keeps
    checking the syntax of the chunk once the match is lost. *)
Fixpoint matchChunk_loop (fuel : nat) (chunk s : string) (failed : bool)
    : chunk_result :=
  match chunk with
  | EmptyString => if failed then ChunkNo else ChunkOk s
  | String c chunk' =>
      match fuel with
      | O => ChunkBad
      | S fuel' =>
          let failed := failed || is_empty s in
          if byte_eq c "[" then
            let '(r, s1) :=
              if failed then (0%Z, s)
              else let '(r, n) := utf8.DecodeRuneInString s in (r, from n s) in
            let '(negated, chunk1) :=
              match chunk' with
              | String d rest => if byte_eq d "^" then (true, rest) else (false, chunk')
              | EmptyString => (false, chunk')
              end in
            match class_ranges fuel' chunk1 r false 0 with
            | None => ChunkBad
            | Some (matched, chunk2) =>
                matchChunk_loop fuel' chunk2 s1 (failed || Bool.eqb matched negated)
            end
          else if byte_eq c "?" then
            match s with
            | String s0 _ =>
                if failed then matchChunk_loop fuel' chunk' s failed
                else
                  let '(_, n) := utf8.DecodeRuneInString s in
                  matchChunk_loop fuel' chunk' (from n s) (IsPathSeparator s0)
            | EmptyString => matchChunk_loop fuel' chunk' s failed
            end
          else
            let literal (l : ascii) (chunk'' : string) :=
              match s with
              | String s0 s' =>
                  if failed then matchChunk_loop fuel' chunk'' s failed
                  else matchChunk_loop fuel' chunk'' s' (negb (byte_eq l s0))
              | EmptyString => matchChunk_loop fuel' chunk'' s failed
              end in
            if byte_eq c "\" then
              match chunk' with
              | EmptyString => ChunkBad
              | String e chunk'' => literal e chunk''
              end
            else literal c chunk'
      end
  end.

Definition matchChunk (chunk s : string) : chunk_result :=
  matchChunk_loop (len chunk) chunk s false.

Inductive star_result :=
| StarBad
| StarNone
| StarAt (rest : string).

(** The loop of [Match] that looks for the chunk after skipping [i+1]
    bytes of [name], never past a separator; [last] is
    [len(pattern) == 0]. *)
Fixpoint star_search (chunk : string) (last : bool) (name : string) : star_result :=
  match name with
  | EmptyString => StarNone
  | String c name' =>
      if IsPathSeparator c then StarNone
      else
        match matchChunk chunk name' with
        | ChunkOk t =>
            if last && negb (is_empty t) then star_search chunk last name'
            else StarAt t
        | ChunkBad => StarBad
        | ChunkNo => star_search chunk last name'
        end
  end.

Definition ErrBadPattern : error := ErrorString "syntax error in pattern".

(** The [Pattern] loop of [Match]; each round consumes at least one byte
    of the pattern. *)
Fixpoint Match_loop (fuel : nat) (pattern name : string) : bool * option error :=
  match pattern with
  | EmptyString => (is_empty name, None)
  | String _ _ =>
      match fuel with
      | O => (false, Some ErrBadPattern)
      | S fuel' =>
          let '(star, chunk, rest) := scanChunk pattern in
          if star && is_empty chunk then (negb (strings.Contains name sep), None)
          else
            let retry (_ : unit) :=
              if star then
                match star_search chunk (is_empty rest) name with
                | StarAt t => Match_loop fuel' rest t
                | StarBad => (false, Some ErrBadPattern)
                | StarNone => (false, None)
                end
              else (false, None) in
            match matchChunk chunk name with
            | ChunkOk t =>
                if is_empty t || negb (is_empty rest) then Match_loop fuel' rest t
                else retry tt
            | ChunkBad => (false, Some ErrBadPattern)
            | ChunkNo => retry tt
            end
      end
  end.

(** [filepath.Match].  (When the match is lost, the library goes on to
    check the syntax of the rest of the pattern; this changes the error
    only, which the program drops.) *)
Definition Match (pattern name : string) : bool * option error :=
  Match_loop (len pattern) pattern name.

(** *** [Ext], [Clean], [Join], [Dir], [IsAbs], [Rel] *)

(** [Ext]: the loop [for i := len(path)-1; i >= 0 && path[i] != '/'; i--]
    run over the bytes from the end; [acc] is [path[i+1:]]. *)
Fixpoint ext_scan (rev_path : list ascii) (acc : string) : string :=
  match rev_path with
  | [] => ""
  | c :: more =>
      if IsPathSeparator c then ""
      else if byte_eq c "." then String c acc
      else ext_scan more (String c acc)
  end.

Definition Ext (path : string) : string := ext_scan (rev (bytes path)) "".

(** One path element of the loop of [Clean].  [out] holds the elements
    written so far, last one first; the first [dotdot] of them are the
    leading [..] elements a later [..] must not remove. *)
Definition clean_element (rooted : bool) (st : list string * nat) (e : string)
    : list string * nat :=
  let '(out, dotdot) := st in
  if String.eqb e "" then st
  else if String.eqb e "." then st
  else if String.eqb e ".." then
    if dotdot <? length out then (tail out, dotdot)
    else if rooted then st
    else (e :: out, S (length out))
  else (e :: out, dotdot).

Definition Clean (path : string) : string :=
  if is_empty path then "."
  else
    let rooted := strings.HasPrefix path sep in
    let '(out, _) := foldl (clean_element rooted) ([], 0) (strings.Split path sep) in
    let body := strings.Join (rev out) sep in
    if rooted then sep +:+ body
    else if is_empty body then "." else body.

(** [Join]: the elements from the first non-empty one on, joined by the
    separator and cleaned. *)
Fixpoint Join (elem : list string) : string :=
  match elem with
  | [] => ""
  | e :: rest => if is_empty e then Join rest else Clean (strings.Join elem sep)
  end.

(** [path[:i+1]] for the last separator at [i], on the reversed bytes. *)
Fixpoint upto_last_separator (rev_path : list ascii) : list ascii :=
  match rev_path with
  | [] => []
  | c :: more => if IsPathSeparator c then rev_path else upto_last_separator more
  end.

Definition Dir (path : string) : string :=
  Clean (of_bytes (rev (upto_last_separator (rev (bytes path))))).

Definition IsAbs (path : string) : bool := strings.HasPrefix path sep.

(** The elements of a cleaned path as [Rel] steps through them. *)
Definition elements (path : string) : list string :=
  if String.eqb path "" then []
  else if String.eqb path sep then [""]
  else strings.Split path sep.

(** The loop of [Rel] that positions both paths at the first differing
    elements; the flag says that it stopped on a difference.  (The program
    only asks for paths relative to its root, with an absolute target.) *)
Fixpoint first_difference (bs ts : list string) : list string * list string * bool :=
  match bs, ts with
  | b :: bs', t :: ts' =>
      if String.eqb t b then first_difference bs' ts' else (bs, ts, true)
  | _, _ => (bs, ts, false)
  end.

Definition Rel (basepath targpath : string) : string * option error :=
  let base := Clean basepath in
  let targ := Clean targpath in
  let failure :=
    ("", Some (ErrorString ("Rel: can't make " +:+ targpath +:+ " relative to " +:+ basepath))) in
  if String.eqb targ base then (".", None)
  else
    let base := if String.eqb base "." then "" else base in
    if negb (Bool.eqb (strings.HasPrefix base sep) (strings.HasPrefix targ sep))
    then failure
    else
      let '(bs, ts, differ) := first_difference (elements base) (elements targ) in
      match bs with
      | b :: _ =>
          if differ && String.eqb b ".." then failure
          else
            let up := strings.Join (map (fun _ => "..") bs) sep in
            (match ts with [] => up | _ => up +:+ sep +:+ strings.Join ts sep end, None)
      | [] => (strings.Join ts sep, None)
      end.

End filepath.

(** ** config.go *)

Record Config := {
  Skip : bool;
  Exclusions : list string;
  PlainTextMasks : list string;
  AdditionalPlainTextMasks : list string;
  SizeThresholdMb : Z
}.

Definition getDefaultPlainTextMasks : list string :=
  [ "**/*.adoc"; "**/*.aj"; "**/*.bash"; "**/*.bat"; "**/CODEOWNERS";
    "**/*.css"; "**/*.config"; "**/[dD]ockerfile*"; "**/*.[dD]ockerfile";
    "**/*[cC]ontainerfile*"; "**/*.[cC]ontainerfile"; "**/*.env";
    "**/.gitattributes"; "**/.gitignore"; "**/*.htm*"; "**/gradlew";
    "**/.java-version"; "**/*.jelly"; "**/*.jsp"; "**/*.ksh"; "**/*.lock";
    "**/lombok.config"; "**/*.md"; "**/*.mf"; "**/META-INF/services/**";
    "**/META-INF/spring/**"; "**/META-INF/spring.factories"; "**/mvnw";
    "**/mvnw.cmd"; "**/*.qute.java"; "**/.sdkmanrc"; "**/*.sh"; "**/*.sql";
    "**/*.svg"; "**/*.tsx"; "**/*.txt"; "**/*.py" ].

Definition GetPlainTextMasks (c : Config) : list string :=
  if 0 <? length (PlainTextMasks c) then PlainTextMasks c
  else getDefaultPlainTextMasks ++ AdditionalPlainTextMasks c.

Definition string_mem (x : string) (l : list string) : bool :=
  existsb (String.eqb x) l.

(** [CleanStringSlice]: trimmed, non-empty, first occurrences only. *)
Fixpoint CleanStringSlice_loop `{UnicodeTables} (input cleaned : list string)
    : list string :=
  match input with
  | [] => cleaned
  | s :: rest =>
      let trimmed := strings_unicode.TrimSpace s in
      if negb (String.eqb trimmed "") && negb (string_mem trimmed cleaned)
      then CleanStringSlice_loop rest (cleaned ++ [trimmed])
      else CleanStringSlice_loop rest cleaned
  end.

Definition CleanStringSlice `{UnicodeTables} (input : list string) : list string :=
  CleanStringSlice_loop input [].

Definition GetExclusions `{UnicodeTables} (c : Config) : list string :=
  CleanStringSlice (Exclusions c).

(** ** rewriter.go: matching and file kinds *)

(** The body of the loop of [matchesPatterns] for one pattern. *)
Definition matchesPattern (path pattern : string) : bool :=
  if fst (filepath.Match pattern path) then true
  else if strings.Contains pattern "**" then
    match strings.Split pattern "**" with
    | [prefix; suffix] => strings.HasPrefix path prefix && strings.HasSuffix path suffix
    | _ => false
    end
  else false.

Fixpoint matchesPatterns (path : string) (patterns : list string) : bool :=
  match patterns with
  | [] => false
  | pattern :: rest =>
      if matchesPattern path pattern then true else matchesPatterns path rest
  end.

Definition sourceExtensions : list string :=
  [ ".java"; ".kt"; ".groovy"; ".scala";
    ".js"; ".ts"; ".jsx"; ".tsx";
    ".go"; ".rs"; ".py"; ".rb";
    ".c"; ".cpp"; ".h"; ".hpp";
    ".cs"; ".vb"; ".php";
    ".xml"; ".json"; ".yaml"; ".yml";
    ".properties"; ".toml"; ".hcl" ].

Fixpoint ext_in (ext : string) (exts : list string) : bool :=
  match exts with
  | [] => false
  | sourceExt :: rest => if String.eqb ext sourceExt then true else ext_in ext rest
  end.

Definition isSourceFile `{UnicodeTables} (path : string) : bool :=
  let ext := strings_unicode.ToLower (filepath.Ext path) in
  ext_in ext sourceExtensions.

(** ** The file tree and package [os]

    The disk is a finite map from cleaned absolute paths to nodes; the root
    directory is always there.  A relative name is resolved against the
    working directory.  [fault] injects the failure of one kind of system
    call on one path (permissions, another device, a failing disk), so that
    every call of the program can fail as the real one can. *)

Inductive node :=
| File (content : string)
| Directory.

Inductive syscall :=
  SysLstat | SysReadDir | SysReadFile | SysWriteFile | SysMkdir | SysRemove
| SysRename | SysGetwd.

Record World := {
  cwd : string;
  tree : gmap string node;
  fault : syscall -> string -> option errno
}.

Record FileInfo := { IsDir : bool; Size : Z }.

Module os.
Import GoString.

Definition set_tree (w : World) (t : gmap string node) : World :=
  {| cwd := cwd w; tree := t; fault := fault w |}.

(** The key of a name in the tree. *)
Definition resolve (w : World) (name : string) : string :=
  if filepath.IsAbs name then filepath.Clean name
  else filepath.Join [cwd w; name].

Definition node_at (w : World) (key : string) : option node :=
  if String.eqb key "/" then Some Directory else tree w !! key.

(** The directories above [key], nearest first. *)
Fixpoint ancestors_loop (fuel : nat) (key : string) : list string :=
  match fuel with
  | O => []
  | S fuel' =>
      let d := filepath.Dir key in
      if String.eqb d key then [] else d :: ancestors_loop fuel' d
  end.

Definition ancestors (key : string) : list string := ancestors_loop (len key) key.

(** Looking up the directories of a path from the root down. *)
Fixpoint search (w : World) (chain : list string) : option errno :=
  match chain with
  | [] => None
  | d :: rest =>
      match node_at w d with
      | Some Directory => search w rest
      | Some (File _) => Some ENOTDIR
      | None => Some ENOENT
      end
  end.

Definition parent_error (w : World) (key : string) : option errno :=
  search w (rev (ancestors key)).

Definition is_child (dir key : string) : bool :=
  negb (String.eqb key dir) && String.eqb (filepath.Dir key) dir.

(** The keys of the entries of a directory. *)
Definition children (w : World) (dir : string) : list string :=
  filter (fun key => is_child dir key = true) (map_to_list (tree w)).*1.

(** The last element of a key. *)
Fixpoint last_element (rev_path : list ascii) (acc : string) : string :=
  match rev_path with
  | [] => acc
  | c :: more =>
      if filepath.IsPathSeparator c then acc else last_element more (String c acc)
  end.

Definition name_of (key : string) : string := last_element (rev (bytes key)) "".

Definition info_of (n : node) : FileInfo :=
  match n with
  | File content => {| IsDir := false; Size := Z.of_nat (len content) |}
  | Directory => {| IsDir := true; Size := 4096 |}
  end.

(** A call on [name] gets past the injected faults and the lookup of the
    directories above it, or fails with the error [mk] builds. *)
Definition reach {A} (w : World) (sc : syscall) (name : string)
    (mk : errno -> error) (k : string -> A + error) : A + error :=
  let key := resolve w name in
  match fault w sc key with
  | Some e => inr (mk e)
  | None =>
      match parent_error w key with
      | Some e => inr (mk e)
      | None => k key
      end
  end.

Definition Lstat (name : string) (w : World) : FileInfo + error :=
  let mk := PathError "lstat" name in
  reach w SysLstat name mk (fun key =>
    match node_at w key with
    | Some n => inl (info_of n)
    | None => inr (mk ENOENT)
    end).

Definition string_le (a b : string) : Prop := String.leb a b = true.

#[global] Instance string_le_dec : RelDecision string_le.
Proof. intros a b. unfold string_le. apply _. Defined.

(** [os.ReadDir]: the names of the entries, sorted. *)
Definition ReadDir (name : string) (w : World) : list string + error :=
  let mk := PathError "open" name in
  reach w SysReadDir name mk (fun key =>
    match node_at w key with
    | Some Directory => inl (merge_sort string_le (name_of <$> children w key))
    | Some (File _) => inr (mk ENOTDIR)
    | None => inr (mk ENOENT)
    end).

Definition ReadFile (name : string) (w : World) : string + error :=
  let mk := PathError "open" name in
  reach w SysReadFile name mk (fun key =>
    match node_at w key with
    | Some (File content) => inl content
    | Some Directory => inr (PathError "read" name EISDIR)
    | None => inr (mk ENOENT)
    end).

(** [os.WriteFile]: create or truncate, then write. *)
Definition WriteFile (name data : string) (w : World) : World * option error :=
  let mk := PathError "open" name in
  match reach w SysWriteFile name mk (fun key =>
          match node_at w key with
          | Some Directory => inr (mk EISDIR)
          | _ => inl key
          end) with
  | inl key => (set_tree w (<[key := File data]> (tree w)), None)
  | inr err => (w, Some err)
  end.

(** [os.MkdirAll]: the directories from the root down to the path, each
    one made when it is missing. *)
Fixpoint mkdir_chain (chain : list string) (w : World) : World * option error :=
  match chain with
  | [] => (w, None)
  | d :: rest =>
      match node_at w d with
      | Some Directory => mkdir_chain rest w
      | Some (File _) => (w, Some (PathError "mkdir" d ENOTDIR))
      | None =>
          match fault w SysMkdir d with
          | Some e => (w, Some (PathError "mkdir" d e))
          | None => mkdir_chain rest (set_tree w (<[d := Directory]> (tree w)))
          end
      end
  end.

Definition MkdirAll (path : string) (w : World) : World * option error :=
  let key := resolve w path in
  mkdir_chain (rev (ancestors key) ++ [key]) w.

(** [os.Remove]: a file, or a directory without entries. *)
Definition Remove (name : string) (w : World) : World * option error :=
  let mk := PathError "remove" name in
  match reach w SysRemove name mk (fun key =>
          if String.eqb key "/" then inr (mk EBUSY)
          else
            match tree w !! key with
            | None => inr (mk ENOENT)
            | Some (File _) => inl key
            | Some Directory =>
                match children w key with
                | [] => inl key
                | _ :: _ => inr (mk ENOTEMPTY)
                end
            end) with
  | inl key => (set_tree w (delete key (tree w)), None)
  | inr err => (w, Some err)
  end.

(** The key of an entry of the directory [old] once it is called [new]. *)
Definition rekey (old new key : string) : string :=
  if String.eqb key old then new
  else if strings.HasPrefix key (old +:+ "/") then new +:+ from (len old) key
  else key.

(** [os.Rename]: refuses an existing directory as target; a file replaces
    the file at the target; a directory moves with everything below. *)
Definition Rename (oldpath newpath : string) (w : World) : World * option error :=
  let mk := LinkError "rename" oldpath newpath in
  let kold := resolve w oldpath in
  let knew := resolve w newpath in
  match fault w SysRename kold with
  | Some e => (w, Some (mk e))
  | None =>
      match parent_error w kold, node_at w kold, parent_error w knew with
      | Some e, _, _ => (w, Some (mk e))
      | None, None, _ => (w, Some (mk ENOENT))
      | None, Some _, Some e => (w, Some (mk e))
      | None, Some src, None =>
          match node_at w knew with
          | Some Directory => (w, Some (mk EEXIST))
          | target =>
              if String.eqb kold knew then (w, None)
              else
                match src, target with
                | File content, _ =>
                    (set_tree w (<[knew := File content]> (delete kold (tree w))), None)
                | Directory, Some _ => (w, Some (mk ENOTDIR))
                | Directory, None =>
                    if String.eqb kold "/" then (w, Some (mk EBUSY))
                    else if strings.HasPrefix knew (kold +:+ "/")
                    then (w, Some (mk EINVAL))
                    else
                      (set_tree w
                         (list_to_map
                            (prod_map (rekey kold knew) id <$> map_to_list (tree w))),
                       None)
                end
          end
      end
  end.

(** [os.IsNotExist]: looks through [PathError], [LinkError] and
    [SyscallError] only. *)
Definition IsNotExist (err : error) : bool :=
  match err with
  | PathError _ _ ENOENT => true
  | LinkError _ _ _ ENOENT => true
  | SyscallError _ ENOENT => true
  | _ => false
  end.

(** [os.Getwd]: the working directory, unless the system call fails (the
    directory was removed, or one above it cannot be read). *)
Definition Getwd (w : World) : string * option error :=
  match fault w SysGetwd (cwd w) with
  | Some e => ("", Some (SyscallError "getwd" e))
  | None => (cwd w, None)
  end.

End os.

(** [filepath.Abs]: a path that is not absolute is joined to the working
    directory, which [os.Getwd] may fail to give. *)
Definition Abs (path : string) (w : World) : string * option error :=
  if filepath.IsAbs path then (filepath.Clean path, None)
  else
    match os.Getwd w with
    | (_, Some err) => ("", Some err)
    | (wd, None) => (filepath.Join [wd; path], None)
    end.

(** ** [filepath.Walk]

    [Walk] reaches the files below the root in lexical order and hands each
    one to the callback, together with the error of [Lstat] or of reading a
    directory.  [visits] lists these calls as [walk] makes them; [Walk]
    stops at the first one for which the callback returns an error.  The
    callbacks of this program never return [SkipDir] or [SkipAll]. *)

Record visit := {
  visit_path : string;
  visit_info : option FileInfo;
  visit_err : option error
}.

Module walker.

Fixpoint walk (fuel : nat) (w : World) (path : string) (info : FileInfo)
    : list visit :=
  match fuel with
  | O => []
  | S fuel' =>
      if negb (IsDir info) then [Build_visit path (Some info) None]
      else
        match os.ReadDir path w with
        | inr err => [Build_visit path (Some info) (Some err)]
        | inl names =>
            Build_visit path (Some info) None ::
            flat_map (fun name =>
              let filename := filepath.Join [path; name] in
              match os.Lstat filename w with
              | inr err => [Build_visit filename None (Some err)]
              | inl fileInfo => walk fuel' w filename fileInfo
              end) names
        end
  end.

(** No path of the tree is deeper than the tree has entries. *)
Definition visits (root : string) (w : World) : list visit :=
  match os.Lstat root w with
  | inr err => [Build_visit root None (Some err)]
  | inl info => walk (S (size (tree w))) w root info
  end.

Fixpoint Walk_loop {St : Type} (fn : visit -> St -> St * option error)
    (vs : list visit) (st : St) : St * option error :=
  match vs with
  | [] => (st, None)
  | v :: rest =>
      match fn v st with
      | (st', None) => Walk_loop fn rest st'
      | (st', Some err) => (st', Some err)
      end
  end.

Definition Walk {St : Type} (root : string)
    (fn : visit -> St -> St * option error) (w : World) (st : St)
    : St * option error :=
  Walk_loop fn (visits root w) st.

End walker.

(** ** rewriter.go: data *)

Record SourceFile := {
  Path : string;
  Content : string;
  Charset : string;
  Modified : bool
}.

(** [Before] and [After] are pointers; [None] is [nil].  [TimeSaved] is a
    [time.Duration] in nanoseconds. *)
Record Result := {
  Before : option SourceFile;
  After : option SourceFile;
  RecipesThatMadeChanges : list string;
  TimeSaved : Z
}.

Record ResultsContainer := {
  Generated : list Result;
  Deleted : list Result;
  Moved : list Result;
  RefactoredInPlace : list Result;
  ProjectRoot : string;
  FirstException : option error
}.

Record Recipe := { Name : string }.

Record Environment := { ActiveRecipes : list Recipe }.

(** The fields [Config] and [Environment] of the Go struct. *)
Record Rewriter := {
  RewriterConfig : Config;
  RewriterEnvironment : option Environment;
  BaseDir : string
}.

Definition Minute : Z := 60000000000.

(** [applyRecipes] as the source has it: a copy of the file. *)
Definition placeholder_applyRecipes (r : Rewriter) (sourceFile : SourceFile)
    : SourceFile :=
  {| Path := Path sourceFile;
     Content := Content sourceFile;
     Charset := Charset sourceFile;
     Modified := false |}.

Definition getActiveRecipeNames (r : Rewriter) : list string :=
  match RewriterEnvironment r with
  | Some env => Name <$> ActiveRecipes env
  | None => []
  end.

Definition IsNotEmpty (rc : ResultsContainer) : bool :=
  (0 <? length (Generated rc)) || (0 <? length (Deleted rc)) ||
  (0 <? length (Moved rc)) || (0 <? length (RefactoredInPlace rc)).

Definition add_Generated (rc : ResultsContainer) (x : Result) : ResultsContainer :=
  {| Generated := Generated rc ++ [x]; Deleted := Deleted rc; Moved := Moved rc;
     RefactoredInPlace := RefactoredInPlace rc; ProjectRoot := ProjectRoot rc;
     FirstException := FirstException rc |}.

Definition add_Deleted (rc : ResultsContainer) (x : Result) : ResultsContainer :=
  {| Generated := Generated rc; Deleted := Deleted rc ++ [x]; Moved := Moved rc;
     RefactoredInPlace := RefactoredInPlace rc; ProjectRoot := ProjectRoot rc;
     FirstException := FirstException rc |}.

Definition add_Moved (rc : ResultsContainer) (x : Result) : ResultsContainer :=
  {| Generated := Generated rc; Deleted := Deleted rc; Moved := Moved rc ++ [x];
     RefactoredInPlace := RefactoredInPlace rc; ProjectRoot := ProjectRoot rc;
     FirstException := FirstException rc |}.

Definition add_RefactoredInPlace (rc : ResultsContainer) (x : Result)
    : ResultsContainer :=
  {| Generated := Generated rc; Deleted := Deleted rc; Moved := Moved rc;
     RefactoredInPlace := RefactoredInPlace rc ++ [x];
     ProjectRoot := ProjectRoot rc; FirstException := FirstException rc |}.

Definition set_FirstException (rc : ResultsContainer) (err : error)
    : ResultsContainer :=
  {| Generated := Generated rc; Deleted := Deleted rc; Moved := Moved rc;
     RefactoredInPlace := RefactoredInPlace rc; ProjectRoot := ProjectRoot rc;
     FirstException := Some err |}.

(** "Categorize the result" in [ProcessFiles]. *)
Definition categorize (results : ResultsContainer) (result : Result)
    : ResultsContainer :=
  match Before result, After result with
  | None, _ => add_Generated results result
  | Some _, None => add_Deleted results result
  | Some before, Some after =>
      if negb (String.eqb (Path before) (Path after))
      then add_Moved results result
      else if negb (String.eqb (Content before) (Content after))
      then add_RefactoredInPlace results result
      else results
  end.

(** What [processFile] does with the file as read and the file the recipes
    returned. *)
Definition compare_files (r : Rewriter) (before after : SourceFile) : option Result :=
  if String.eqb (Content before) (Content after) then None
  else Some {| Before := Some before;
               After := Some after;
               RecipesThatMadeChanges := getActiveRecipeNames r;
               TimeSaved := Minute |}.

Section Engine.

Context `{UnicodeTables}.

(** The recipe step.  The source has the placeholder above; what the
    classification does is stated for any step. *)
Variable applyRecipes : Rewriter -> SourceFile -> SourceFile.

(** [LoadEnvironment] reads rewrite.yml through yaml.v3, or fetches it with
    net/http; its outcome is taken as given. *)
Variable LoadEnvironment : Rewriter -> World -> Rewriter * option error.

(** The order in which [range] yields the keys of the map built from the
    given candidates; Go leaves it open. *)
Variable range_keys : list string -> list string.

Definition GetBuildRoot (r : Rewriter) (w : World) : string * option error :=
  if negb (String.eqb (BaseDir r) "") then
    match Abs (BaseDir r) w with
    | (_, Some err) => ("", Some (Errorf "failed to get absolute path" err))
    | (abs, None) => (abs, None)
    end
  else
    match os.Getwd w with
    | (_, Some err) =>
        ("", Some (Errorf "failed to get current working directory" err))
    | (cwd, None) => (cwd, None)
    end.

(** The callback [FindSourceFiles] gives to [filepath.Walk].  The size
    test compares [float64(size) / (1024*1024)] with the threshold, which
    is exact below 2^53 bytes. *)
Definition visit_file (r : Rewriter) (rootDir : string)
    (exclusions plainTextMasks : list string) (v : visit)
    (sourceFiles : list string) : list string * option error :=
  match visit_err v, visit_info v with
  | Some err, _ => (sourceFiles, Some err)
  | None, None => (sourceFiles, None)
  | None, Some info =>
      if IsDir info then (sourceFiles, None)
      else if (SizeThresholdMb (RewriterConfig r) * 1048576 <? Size info)%Z
      then (sourceFiles, None)
      else
        match filepath.Rel rootDir (visit_path v) with
        | (_, Some err) => (sourceFiles, Some err)
        | (relPath, None) =>
            if matchesPatterns relPath exclusions then (sourceFiles, None)
            else if matchesPatterns relPath plainTextMasks || isSourceFile relPath
            then (sourceFiles ++ [visit_path v], None)
            else (sourceFiles, None)
        end
  end.

Definition FindSourceFiles (r : Rewriter) (rootDir : string) (w : World)
    : list string * option error :=
  let exclusions := GetExclusions (RewriterConfig r) in
  let plainTextMasks := GetPlainTextMasks (RewriterConfig r) in
  walker.Walk rootDir (visit_file r rootDir exclusions plainTextMasks) w [].

Definition processFile (r : Rewriter) (filePath : string) (w : World)
    : option Result * option error :=
  match os.ReadFile filePath w with
  | inr err => (None, Some (Errorf ("failed to read file " +:+ filePath) err))
  | inl content =>
      match filepath.Rel (BaseDir r) filePath with
      | (_, Some err) => (None, Some (Errorf "failed to get relative path" err))
      | (relPath, None) =>
          let before := {| Path := relPath; Content := content;
                           Charset := "UTF-8"; Modified := false |} in
          let after := applyRecipes r before in
          (compare_files r before after, None)
      end
  end.

Fixpoint ProcessFiles_loop (r : Rewriter) (sourceFiles : list string)
    (w : World) (results : ResultsContainer) : ResultsContainer :=
  match sourceFiles with
  | [] => results
  | filePath :: rest =>
      match processFile r filePath w with
      | (_, Some err) =>
          ProcessFiles_loop r rest w
            (match FirstException results with
             | None => set_FirstException results err
             | Some _ => results
             end)
      | (Some result, None) => ProcessFiles_loop r rest w (categorize results result)
      | (None, None) => ProcessFiles_loop r rest w results
      end
  end.

Definition ProcessFiles (r : Rewriter) (sourceFiles : list string) (w : World)
    : option ResultsContainer * option error :=
  match RewriterEnvironment r with
  | None => (None, Some (ErrorString "environment not loaded"))
  | Some _ =>
      (Some (ProcessFiles_loop r sourceFiles w
               {| Generated := []; Deleted := []; Moved := [];
                  RefactoredInPlace := []; ProjectRoot := BaseDir r;
                  FirstException := None |}),
       None)
  end.

(** ** runner.go

    The lines the [Logger] prints are not part of the state. *)

Definition writeFile (buildRoot : string) (sourceFile : SourceFile) (w : World)
    : World * option error :=
  let filePath := filepath.Join [buildRoot; Path sourceFile] in
  let dir := filepath.Dir filePath in
  match os.MkdirAll dir w with
  | (w1, Some err) => (w1, Some (Errorf ("failed to create directory " +:+ dir) err))
  | (w1, None) =>
      match os.WriteFile filePath (Content sourceFile) w1 with
      | (w2, Some err) => (w2, Some (Errorf "failed to write file" err))
      | (w2, None) => (w2, None)
      end
  end.

(** A [for ... range] loop whose body may return an error. *)
Fixpoint for_each {A : Type} (body : A -> World -> World * option error)
    (l : list A) (w : World) : World * option error :=
  match l with
  | [] => (w, None)
  | x :: rest =>
      match body x w with
      | (w', None) => for_each body rest w'
      | (w', Some err) => (w', Some err)
      end
  end.

Definition apply_generated (buildRoot : string) (result : Result) (w : World)
    : World * option error :=
  match After result with
  | Some after =>
      match writeFile buildRoot after w with
      | (w', Some err) =>
          (w', Some (Errorf ("failed to write generated file " +:+ Path after) err))
      | (w', None) => (w', None)
      end
  | None => (w, None)
  end.

Definition apply_deleted (buildRoot : string) (result : Result) (w : World)
    : World * option error :=
  match Before result with
  | Some before =>
      let filePath := filepath.Join [buildRoot; Path before] in
      match os.Remove filePath w with
      | (w', Some err) =>
          if negb (os.IsNotExist err)
          then (w', Some (Errorf ("failed to delete file " +:+ filePath) err))
          else (w', None)
      | (w', None) => (w', None)
      end
  | None => (w, None)
  end.

Definition apply_moved (buildRoot : string) (result : Result) (w : World)
    : World * option error :=
  match Before result, After result with
  | Some before, Some after =>
      let oldPath := filepath.Join [buildRoot; Path before] in
      let newPath := filepath.Join [buildRoot; Path after] in
      let targetDir := filepath.Dir newPath in
      match os.MkdirAll targetDir w with
      | (w1, Some err) =>
          (w1, Some (Errorf ("failed to create directory " +:+ targetDir) err))
      | (w1, None) =>
          match os.Rename oldPath newPath w1 with
          | (w2, None) => (w2, None)
          | (w2, Some _) =>
              match writeFile buildRoot after w2 with
              | (w3, Some err) =>
                  (w3, Some (Errorf ("failed to write moved file " +:+ Path after) err))
              | (w3, None) =>
                  match os.Remove oldPath w3 with
                  | (w4, Some err) =>
                      if negb (os.IsNotExist err)
                      then (w4, Some (Errorf ("failed to remove old file " +:+ oldPath) err))
                      else (w4, None)
                  | (w4, None) => (w4, None)
                  end
              end
          end
      end
  | _, _ => (w, None)
  end.

Definition apply_refactored (buildRoot : string) (result : Result) (w : World)
    : World * option error :=
  match After result with
  | Some after =>
      match writeFile buildRoot after w with
      | (w', Some err) =>
          (w', Some (Errorf ("failed to write refactored file " +:+ Path after) err))
      | (w', None) => (w', None)
      end
  | None => (w, None)
  end.

Definition isEmptyDir (dir : string) (w : World) : bool :=
  match os.ReadDir dir w with
  | inr _ => false
  | inl entries => length entries =? 0
  end.

(** "Collect directories that might be empty". *)
Definition candidate_of (buildRoot : string) (result : Result) : list string :=
  match Before result with
  | Some before => [filepath.Dir (filepath.Join [buildRoot; Path before])]
  | None => []
  end.

Definition candidateDirs (buildRoot : string) (results : ResultsContainer)
    : list string :=
  flat_map (candidate_of buildRoot) (Deleted results) ++
  flat_map (candidate_of buildRoot) (Moved results).

Definition depth (dir : string) : nat := strings.Count dir filepath.sep.

(** The body of the inner sorting loop: the slots [i] and [j] are swapped
    when the directory at [j] is deeper. *)
Definition swap_if_deeper (i j : nat) (sortedDirs : list string) : list string :=
  match sortedDirs !! i, sortedDirs !! j with
  | Some di, Some dj =>
      if depth di <? depth dj then <[i := dj]> (<[j := di]> sortedDirs)
      else sortedDirs
  | _, _ => sortedDirs
  end.

(** [for j := ...; j < len(sortedDirs); j++], with [count] rounds left. *)
Fixpoint sort_inner (count i j : nat) (sortedDirs : list string) : list string :=
  match count with
  | O => sortedDirs
  | S count' => sort_inner count' i (S j) (swap_if_deeper i j sortedDirs)
  end.

(** [for i := ...; i < len(sortedDirs); i++], with [count] rounds left. *)
Fixpoint sort_outer (count i : nat) (sortedDirs : list string) : list string :=
  match count with
  | O => sortedDirs
  | S count' =>
      sort_outer count' (S i)
        (sort_inner (length sortedDirs - (i + 1)) i (i + 1) sortedDirs)
  end.

Definition sort_by_depth (sortedDirs : list string) : list string :=
  sort_outer (length sortedDirs) 0 sortedDirs.

(** "Try to remove empty directories": the tree afterwards and
    [removedDirs]. *)
Fixpoint remove_empty (sortedDirs : list string) (w : World)
    (removedDirs : list string) : World * list string :=
  match sortedDirs with
  | [] => (w, removedDirs)
  | dir :: rest =>
      if isEmptyDir dir w then
        match os.Remove dir w with
        | (w', None) => remove_empty rest w' (removedDirs ++ [dir])
        | (w', Some _) => remove_empty rest w' removedDirs
        end
      else remove_empty rest w removedDirs
  end.

Definition prune (buildRoot : string) (results : ResultsContainer) (w : World)
    : World * list string :=
  let sortedDirs := sort_by_depth (range_keys (candidateDirs buildRoot results)) in
  remove_empty sortedDirs w [].

Definition cleanupEmptyDirectories (buildRoot : string)
    (results : ResultsContainer) (w : World) : World * option error :=
  (fst (prune buildRoot results w), None).

(** The four loops of [applyChanges], in their order. *)
Definition apply_buckets (results : ResultsContainer) (w : World)
    : World * option error :=
  let buildRoot := ProjectRoot results in
  match for_each (apply_generated buildRoot) (Generated results) w with
  | (w1, Some err) => (w1, Some err)
  | (w1, None) =>
      match for_each (apply_deleted buildRoot) (Deleted results) w1 with
      | (w2, Some err) => (w2, Some err)
      | (w2, None) =>
          match for_each (apply_moved buildRoot) (Moved results) w2 with
          | (w3, Some err) => (w3, Some err)
          | (w3, None) =>
              for_each (apply_refactored buildRoot) (RefactoredInPlace results) w3
          end
      end
  end.

Definition applyChanges (results : ResultsContainer) (w : World)
    : World * option error :=
  match apply_buckets results w with
  | (w', Some err) => (w', Some err)
  | (w', None) =>
      (* a failure of the cleanup is logged as a warning *)
      let '(w'', _) := cleanupEmptyDirectories (ProjectRoot results) results w' in
      (w'', None)
  end.

Definition reportAndApplyResults (results : ResultsContainer) (w : World)
    : World * option error :=
  match applyChanges results w with
  | (w', Some err) => (w', Some (Errorf "failed to apply changes" err))
  | (w', None) => (w', None)
  end.

Definition Execute (r : Rewriter) (w : World) : World * option error :=
  if Skip (RewriterConfig r) then (w, None)
  else
    match LoadEnvironment r w with
    | (_, Some err) => (w, Some (Errorf "failed to load environment" err))
    | (r, None) =>
        match GetBuildRoot r w with
        | (_, Some err) => (w, Some (Errorf "failed to get build root" err))
        | (buildRoot, None) =>
            match FindSourceFiles r buildRoot w with
            | (_, Some err) => (w, Some (Errorf "failed to find source files" err))
            | (sourceFiles, None) =>
                if length sourceFiles =? 0 then (w, None)
                else
                  match ProcessFiles r sourceFiles w with
                  | (_, Some err) => (w, Some (Errorf "failed to process files" err))
                  | (None, None) => (w, None)
                  | (Some results, None) =>
                      match FirstException results with
                      | Some err => (w, Some err)
                      | None =>
                          if IsNotEmpty results then
                            match reportAndApplyResults results w with
                            | (w', Some err) =>
                                (w', Some (Errorf "failed to apply results" err))
                            | (w', None) => (w', None)
                            end
                          else (w, None)
                      end
                  end
            end
        end
    end.

Definition DryRun (r : Rewriter) (w : World) : World * option error :=
  if Skip (RewriterConfig r) then (w, None)
  else
    match LoadEnvironment r w with
    | (_, Some err) => (w, Some (Errorf "failed to load environment" err))
    | (r, None) =>
        match GetBuildRoot r w with
        | (_, Some err) => (w, Some (Errorf "failed to get build root" err))
        | (buildRoot, None) =>
            match FindSourceFiles r buildRoot w with
            | (_, Some err) => (w, Some (Errorf "failed to find source files" err))
            | (sourceFiles, None) =>
                if length sourceFiles =? 0 then (w, None)
                else
                  match ProcessFiles r sourceFiles w with
                  | (_, Some err) => (w, Some (Errorf "failed to process files" err))
                  | (None, None) => (w, None)
                  | (Some results, None) =>
                      match FirstException results with
                      | Some err => (w, Some err)
                      | None => (w, None)
                      end
                  end
            end
        end
    end.

End Engine.

(** ** Vocabulary of the statements *)

(** The bytes [filepath.Match] gives a meaning to. *)
Definition glob_byte (c : ascii) : bool :=
  GoString.byte_eq c "*" || GoString.byte_eq c "?" || GoString.byte_eq c "[" ||
  GoString.byte_eq c "\".

(** A string without any of them stands for itself in a pattern. *)
Fixpoint literal (s : string) : bool :=
  match s with
  | EmptyString => true
  | String c s' => negb (glob_byte c) && literal s'
  end.

(** No dot and no separator: the bytes an extension has after its dot. *)
Fixpoint dotless (s : string) : bool :=
  match s with
  | EmptyString => true
  | String c s' =>
      negb (GoString.byte_eq c ".") && negb (filepath.IsPathSeparator c) && dotless s'
  end.

(** Tables for the examples, which are all ASCII. *)
Definition ascii_only : UnicodeTables :=
  {| lower_non_ascii := fun s => s; trim_space_non_ascii := fun s => s |}.

Definition no_fault : syscall -> string -> option errno := fun _ _ => None.

Definition source_file (path content : string) : SourceFile :=
  {| Path := path; Content := content; Charset := "UTF-8"; Modified := false |}.

Definition change (before after : option SourceFile) : Result :=
  {| Before := before; After := after; RecipesThatMadeChanges := [];
     TimeSaved := Minute |}.

Definition default_config : Config :=
  {| Skip := false; Exclusions := []; PlainTextMasks := [];
     AdditionalPlainTextMasks := []; SizeThresholdMb := 10 |}.

(** The shape of an extension: a dot, then neither dot nor separator. *)
Definition extension_shape (ext : string) : bool :=
  match ext with
  | String c rest => GoString.byte_eq c "." && dotless rest
  | EmptyString => false
  end.

(** A project with one Java file whose extension is in upper case. *)
Definition upper_case_world : World :=
  {| cwd := "/w";
     tree := list_to_map [("/w", Directory); ("/w/Main.JAVA", File "class Main {}")];
     fault := no_fault |}.

Definition plain_rewriter : Rewriter :=
  {| RewriterConfig := default_config;
     RewriterEnvironment := Some {| ActiveRecipes := [] |};
     BaseDir := "/w" |}.

(** The four buckets of a container. *)
Definition buckets (rc : ResultsContainer)
    : list Result * list Result * list Result * list Result :=
  (Generated rc, Deleted rc, Moved rc, RefactoredInPlace rc).

(** The container [ProcessFiles] starts from. *)
Definition no_results (r : Rewriter) : ResultsContainer :=
  {| Generated := []; Deleted := []; Moved := []; RefactoredInPlace := [];
     ProjectRoot := BaseDir r; FirstException := None |}.


(** A recipe step that edits every file in place. *)
Definition edit_in_place (r : Rewriter) (sourceFile : SourceFile) : SourceFile :=
  {| Path := Path sourceFile; Content := Content sourceFile +:+ "!";
     Charset := Charset sourceFile; Modified := true |}.

Definition one_text_world : World :=
  {| cwd := "/w";
     tree := list_to_map [("/w", Directory); ("/w/a.txt", File "x")];
     fault := no_fault |}.

(** Three Go files, the second of which cannot be read. *)
Definition unreadable_world : World :=
  {| cwd := "/w";
     tree := list_to_map [("/w", Directory); ("/w/a.go", File "a");
                          ("/w/b.go", File "b"); ("/w/c.go", File "c")];
     fault := fun sc key =>
       match sc with
       | SysReadFile => if String.eqb key "/w/b.go" then Some EACCES else None
       | _ => None
       end |}.

Definition environment_loaded (r : Rewriter) (w : World) : Rewriter * option error :=
  ({| RewriterConfig := RewriterConfig r;
      RewriterEnvironment := Some {| ActiveRecipes := [] |};
      BaseDir := BaseDir r |}, None).

(** The sorting loops of [cleanupEmptyDirectories], read off the list: one
    round of the inner loop leaves a deepest directory in slot [i] and the
    others behind it. *)
Fixpoint select_deepest (x : string) (todo : list string) : string * list string :=
  match todo with
  | [] => (x, [])
  | y :: t =>
      if depth x <? depth y
      then let '(x', t') := select_deepest y t in (x', x :: t')
      else let '(x', t') := select_deepest x t in (x', y :: t')
  end.

Fixpoint selection_sort (n : nat) (l : list string) : list string :=
  match n, l with
  | S n', x :: t => let '(x', t') := select_deepest x t in x' :: selection_sort n' t'
  | _, _ => l
  end.

(** The path depth of the specification: the number of segments the
    separator delimits. *)
Definition segments (dir : string) : nat := length (strings.Split dir filepath.sep).

Definition deeper_first (a b : string) : Prop := segments b <= segments a.

(** A directory of the tree that can be reached and has zero entries. *)
Definition has_no_entries (w : World) (dir : string) : Prop :=
  os.node_at w (os.resolve w dir) = Some Directory /\
  os.parent_error w (os.resolve w dir) = None /\
  os.children w (os.resolve w dir) = [].

(** The tree once the directory is removed. *)
Definition without (w : World) (dir : string) : World :=
  os.set_tree w (delete (os.resolve w dir) (tree w)).

(** The pruning pass as the specification words it: the candidates in their
    order; one with zero entries at its turn is removed, any other is left
    untouched.  The last argument lists the directories removed. *)
Inductive pruned : list string -> World -> World -> list string -> Prop :=
| pruned_done (w : World) : pruned [] w w []
| pruned_removed (dir : string) (rest : list string) (w w' : World)
    (removed : list string) :
    has_no_entries w dir ->
    pruned rest (without w dir) w' removed ->
    pruned (dir :: rest) w w' (dir :: removed)
| pruned_kept (dir : string) (rest : list string) (w w' : World)
    (removed : list string) :
    ~ has_no_entries w dir ->
    pruned rest w w' removed ->
    pruned (dir :: rest) w w' removed.

(** The system lets the pass look into the directory and remove it: no
    injected fault, and the directory is not the root of the file system. *)
Definition undisturbed (w : World) (dir : string) : Prop :=
  fault w SysReadDir (os.resolve w dir) = None /\
  fault w SysRemove (os.resolve w dir) = None /\
  os.resolve w dir <> "/".

(** What Go promises of a [range] over the keys of a map: every key once. *)
Definition ranges_over_keys (range_keys : list string -> list string) : Prop :=
  forall l, NoDup (range_keys l) /\ forall x, In x (range_keys l) <-> In x l.

(** The tree of the example: [a/b/c] holds two files. *)
Definition nested_world : World :=
  {| cwd := "/w";
     tree := list_to_map
       [("/w", Directory); ("/w/a", Directory); ("/w/a/b", Directory);
        ("/w/a/b/c", Directory); ("/w/a/b/c/file1.txt", File "one");
        ("/w/a/b/c/file2.txt", File "two")];
     fault := no_fault |}.

Definition two_deletions : ResultsContainer :=
  {| Generated := [];
     Deleted := [change (Some (source_file "a/b/c/file1.txt" "one")) None;
                 change (Some (source_file "a/b/c/file2.txt" "two")) None];
     Moved := []; RefactoredInPlace := [];
     ProjectRoot := "/w"; FirstException := None |}.

(** The tree of the example once the two files are deleted. *)
Definition after_two_deletions : World :=
  fst (apply_buckets two_deletions nested_world).

(** The same tree on a system that refuses to remove [a/b/c]. *)
Definition locked_world : World :=
  {| cwd := "/w";
     tree := tree nested_world;
     fault := fun sc key =>
       match sc with
       | SysRemove => if String.eqb key "/w/a/b/c" then Some EACCES else None
       | _ => None
       end |}.

(** A container that holds one deletion and nothing else. *)
Definition one_deletion (buildRoot : string) (result : Result) : ResultsContainer :=
  {| Generated := []; Deleted := [result]; Moved := []; RefactoredInPlace := [];
     ProjectRoot := buildRoot; FirstException := None |}.

(** A tree whose file [x.txt] the system refuses to delete. *)
Definition protected_world : World :=
  {| cwd := "/w";
     tree := list_to_map [("/w", Directory); ("/w/x.txt", File "x");
                          ("/w/y.txt", File "y")];
     fault := fun sc key =>
       match sc with
       | SysRemove => if String.eqb key "/w/x.txt" then Some EACCES else None
       | _ => None
       end |}.

Definition delete_x_then_y : ResultsContainer :=
  {| Generated := [];
     Deleted := [change (Some (source_file "x.txt" "x")) None;
                 change (Some (source_file "y.txt" "y")) None];
     Moved := []; RefactoredInPlace := [];
     ProjectRoot := "/w"; FirstException := None |}.

(** The tree of the move example: [a/old.txt] holds the text it had when
    it was read. *)
Definition move_world : World :=
  {| cwd := "/w";
     tree := list_to_map [("/w", Directory); ("/w/a", Directory);
                          ("/w/a/old.txt", File "old text")];
     fault := no_fault |}.

(** The same tree where [rename] fails as it does across devices. *)
Definition other_device_world : World :=
  {| cwd := "/w";
     tree := tree move_world;
     fault := fun sc key =>
       match sc with
       | SysRename => if String.eqb key "/w/a/old.txt" then Some EXDEV else None
       | _ => None
       end |}.

(** The file moves from [a/old.txt] to [b/new.txt] and gets a new text. *)
Definition one_move : ResultsContainer :=
  {| Generated := []; Deleted := [];
     Moved := [change (Some (source_file "a/old.txt" "old text"))
                      (Some (source_file "b/new.txt" "new text"))];
     RefactoredInPlace := [];
     ProjectRoot := "/w"; FirstException := None |}.

(** A project whose directory [zz] cannot be read; [a.go] comes before it
    in the walk. *)
Definition unreadable_directory_world : World :=
  {| cwd := "/w";
     tree := list_to_map [("/w", Directory); ("/w/a.go", File "package a");
                          ("/w/zz", Directory); ("/w/zz/b.go", File "package b")];
     fault := fun sc key =>
       match sc with
       | SysReadDir => if String.eqb key "/w/zz" then Some EACCES else None
       | _ => None
       end |}.

Definition directory_info : FileInfo := {| IsDir := true; Size := 4096 |}.

(** Rows of the tables the library is tested with: a pattern, a name,
    whether they match, whether the pattern is malformed. *)
Definition match_row (pattern name : string) (matched bad : bool) : bool :=
  let '(m, err) := filepath.Match pattern name in
  Bool.eqb m matched &&
  Bool.eqb bad (match err with Some _ => true | None => false end).

Definition match_table : list bool :=
  [ match_row "abc" "abc" true false; match_row "*" "abc" true false;
    match_row "*c" "abc" true false; match_row "a*" "a" true false;
    match_row "a*" "abc" true false; match_row "a*" "ab/c" false false;
    match_row "a*/b" "abc/b" true false; match_row "a*/b" "a/c/b" false false;
    match_row "a*b*c*d*e*/f" "axbxcxdxe/f" true false;
    match_row "a*b*c*d*e*/f" "axbxcxdxexxx/f" true false;
    match_row "a*b*c*d*e*/f" "axbxcxdxe/xxx/f" false false;
    match_row "a*b*c*d*e*/f" "axbxcxdxexxx/fff" false false;
    match_row "a*b?c*x" "abxbbxdbxebxczzx" true false;
    match_row "a*b?c*x" "abxbbxdbxebxczzy" false false;
    match_row "ab[c]" "abc" true false; match_row "ab[b-d]" "abc" true false;
    match_row "ab[e-g]" "abc" false false; match_row "ab[^c]" "abc" false false;
    match_row "ab[^b-d]" "abc" false false; match_row "ab[^e-g]" "abc" true false;
    match_row "a\*b" "a*b" true false; match_row "a\*b" "ab" false false;
    match_row "a?b" "a☺b" true false; match_row "a[^a]b" "a☺b" true false;
    match_row "a???b" "a☺b" false false;
    match_row "a[^a][^a][^a]b" "a☺b" false false;
    match_row "[a-ζ]*" "α" true false; match_row "*[a-ζ]" "A" false false;
    match_row "a?b" "a/b" false false; match_row "a*b" "a/b" false false;
    match_row "[\]a]" "]" true false; match_row "[\-]" "-" true false;
    match_row "[x\-]" "x" true false; match_row "[x\-]" "-" true false;
    match_row "[x\-]" "z" false false; match_row "[\-x]" "x" true false;
    match_row "[\-x]" "-" true false; match_row "[\-x]" "a" false false;
    match_row "[]a]" "]" false true; match_row "[-]" "-" false true;
    match_row "[x-]" "x" false true; match_row "[x-]" "-" false true;
    match_row "[x-]" "z" false true; match_row "[-x]" "x" false true;
    match_row "[-x]" "-" false true; match_row "[-x]" "a" false true;
    match_row "\" "a" false true; match_row "[a-b-c]" "a" false true;
    match_row "[" "a" false true; match_row "[^" "a" false true;
    match_row "[^bc" "a" false true; match_row "a[" "a" false true;
    match_row "a[" "ab" false true; match_row "a[" "x" false true;
    match_row "a/b[" "x" false true; match_row "*x" "xxx" true false ].

Definition clean_row (path result : string) : bool :=
  String.eqb (filepath.Clean path) result.

Definition clean_table : list bool :=
  [ clean_row "abc" "abc"; clean_row "abc/def" "abc/def"; clean_row "a/b/c" "a/b/c";
    clean_row "." "."; clean_row ".." ".."; clean_row "../.." "../..";
    clean_row "../../abc" "../../abc"; clean_row "/abc" "/abc"; clean_row "/" "/";
    clean_row "" "."; clean_row "abc/" "abc"; clean_row "abc/def/" "abc/def";
    clean_row "a/b/c/" "a/b/c"; clean_row "./" "."; clean_row "../" "..";
    clean_row "../../" "../.."; clean_row "/abc/" "/abc";
    clean_row "abc//def//ghi" "abc/def/ghi"; clean_row "abc//" "abc";
    clean_row "abc/./def" "abc/def"; clean_row "/./abc/def" "/abc/def";
    clean_row "abc/." "abc"; clean_row "abc/def/ghi/../jkl" "abc/def/jkl";
    clean_row "abc/def/../ghi/../jkl" "abc/jkl"; clean_row "abc/def/.." "abc";
    clean_row "abc/def/../.." "."; clean_row "/abc/def/../.." "/";
    clean_row "abc/def/../../.." ".."; clean_row "/abc/def/../../.." "/";
    clean_row "abc/def/../../../ghi/jkl/../../../mno" "../../mno";
    clean_row "/../abc" "/abc"; clean_row "abc/./../def" "def";
    clean_row "abc//./../def" "def"; clean_row "abc/../../././../def" "../../def";
    clean_row "//abc" "/abc"; clean_row "///abc" "/abc"; clean_row "//abc//" "/abc" ].

Definition dir_ext_table : list bool :=
  [ String.eqb (filepath.Dir "") "."; String.eqb (filepath.Dir ".") ".";
    String.eqb (filepath.Dir "/.") "/"; String.eqb (filepath.Dir "/") "/";
    String.eqb (filepath.Dir "/foo") "/"; String.eqb (filepath.Dir "x/") "x";
    String.eqb (filepath.Dir "abc") "."; String.eqb (filepath.Dir "abc/def") "abc";
    String.eqb (filepath.Dir "a/b/.x") "a/b"; String.eqb (filepath.Dir "a/b/c.") "a/b";
    String.eqb (filepath.Dir "a/b/c.x") "a/b";
    String.eqb (filepath.Ext "path.go") ".go"; String.eqb (filepath.Ext "path.pb.go") ".go";
    String.eqb (filepath.Ext "a.dir/b") ""; String.eqb (filepath.Ext "a.dir/b.go") ".go";
    String.eqb (filepath.Ext "a.dir/") "" ].

(** ** config.go and rewriter.go: the defaults and the choice of recipes *)

(** [NewDefaultConfig], on the fields of [Config] kept above. *)
Definition NewDefaultConfig : Config :=
  {| Skip := false; Exclusions := []; PlainTextMasks := getDefaultPlainTextMasks;
     AdditionalPlainTextMasks := []; SizeThresholdMb := 10 |}.

(** [GetActiveRecipes], given the field [ActiveRecipes] of the [Config]. *)
Definition GetActiveRecipes `{UnicodeTables} (configured : list string)
    : list string :=
  CleanStringSlice configured.

(** The map [nameSet] of [filterActiveRecipes]: [nameSet[name] = true] for
    every name of the list. *)
Definition name_set (names : list string) : gmap string bool :=
  foldl (fun nameSet name => <[name := true]> nameSet) ∅ names.

(** The loop over [env.ActiveRecipes]; a key that is not in the map reads
    [false]. *)
Fixpoint filter_recipes (nameSet : gmap string bool)
    (recipes filteredRecipes : list Recipe) : list Recipe :=
  match recipes with
  | [] => filteredRecipes
  | recipe :: rest =>
      if default false (nameSet !! Name recipe)
      then filter_recipes nameSet rest (filteredRecipes ++ [recipe])
      else filter_recipes nameSet rest filteredRecipes
  end.

(** [filterActiveRecipes]; [configured] is the field [ActiveRecipes] of the
    [Config] of the rewriter. *)
Definition filterActiveRecipes `{UnicodeTables} (configured : list string)
    (env : Environment) : Environment :=
  let activeRecipeNames := GetActiveRecipes configured in
  if length activeRecipeNames =? 0 then env
  else
    {| ActiveRecipes :=
         filter_recipes (name_set activeRecipeNames) (ActiveRecipes env) [] |}.

(** ** More vocabulary *)

(** A configured name as [CleanStringSlice] keeps it: trimmed, not empty. *)
Definition kept_name `{UnicodeTables} (input : list string) (x : string) : Prop :=
  x <> "" /\ exists s, In s input /\ strings_unicode.TrimSpace s = x.

(** What [FindSourceFiles] asks of a visited path before it lists it: a
    file, within the size threshold, not excluded, and a plain-text mask or
    a source extension. *)
Definition listed `{UnicodeTables} (r : Rewriter) (rootDir : string) (v : visit)
    : bool :=
  match visit_info v with
  | Some info =>
      negb (IsDir info) &&
      negb (SizeThresholdMb (RewriterConfig r) * 1048576 <? Size info)%Z &&
      (let relPath := fst (filepath.Rel rootDir (visit_path v)) in
       negb (matchesPatterns relPath (GetExclusions (RewriterConfig r))) &&
       (matchesPatterns relPath (GetPlainTextMasks (RewriterConfig r)) ||
        isSourceFile relPath))
  | None => false
  end.

(** A change with both snapshots whose contents differ. *)
Definition edited (result : Result) : Prop :=
  exists before after,
    Before result = Some before /\ After result = Some after /\
    Content before <> Content after.

(** The before-snapshot of the change holds what is on disk for one of the
    files, under its path relative to the base directory. *)
Definition read_from (r : Rewriter) (sourceFiles : list string) (w : World)
    (result : Result) : Prop :=
  exists filePath before,
    In filePath sourceFiles /\ Before result = Some before /\
    os.ReadFile filePath w = inl (Content before) /\
    filepath.Rel (BaseDir r) filePath = (Path before, None).

(** The paths of the two snapshots of a change. *)
Definition same_path (result : Result) : Prop :=
  exists before after,
    Before result = Some before /\ After result = Some after /\
    Path before = Path after.

Definition other_path (result : Result) : Prop :=
  exists before after,
    Before result = Some before /\ After result = Some after /\
    Path before <> Path after.

(** A key of the tree that holds a file, or a directory above one. *)
Inductive anchored (w : World) : string -> Prop :=
| anchored_file (key content : string) :
    tree w !! key = Some (File content) -> anchored w key
| anchored_directory (key child : string) :
    tree w !! key = Some Directory ->
    os.is_child key child = true ->
    anchored w child ->
    anchored w key.

(** A container without deletions and moves. *)
Definition writes_only (results : ResultsContainer) : Prop :=
  Deleted results = [] /\ Moved results = [].

(** Names as a configuration file may give them. *)
Definition untidy_names : list string := [" A "; "B"; ""; "A"; "   "; "B "].

(** The keys of the files a list of changes writes. *)
Definition written_keys (buildRoot : string) (w : World) (results : list Result)
    : list string :=
  flat_map (fun result =>
              match After result with
              | Some after => [os.resolve w (filepath.Join [buildRoot; Path after])]
              | None => []
              end) results.

(** One edit of [a.txt] in place. *)
Definition one_edit : ResultsContainer :=
  {| Generated := []; Deleted := []; Moved := [];
     RefactoredInPlace := [change (Some (source_file "a.txt" "x"))
                                  (Some (source_file "a.txt" "new text"))];
     ProjectRoot := "/w"; FirstException := None |}.

(** [TrimSpace] on the bytes of an ASCII string. *)
Definition trimmed_bytes (l : list ascii) : list ascii :=
  rev (strings_unicode.trim_left_bytes (rev (strings_unicode.trim_left_bytes l))).

(** No white space in front. *)
Definition starts_unspaced (l : list ascii) : Prop :=
  match l with [] => True | c :: _ => strings_unicode.ascii_space c = false end.

(** What the loop keeps true of the container. *)
Definition two_buckets (r : Rewriter) (sourceFiles : list string) (w : World)
    (rc : ResultsContainer) : Prop :=
  Generated rc = [] /\ Deleted rc = [] /\
  Forall (fun result =>
            edited result /\ other_path result /\ read_from r sourceFiles w result)
         (Moved rc) /\
  Forall (fun result =>
            edited result /\ same_path result /\ read_from r sourceFiles w result)
         (RefactoredInPlace rc) /\
  ProjectRoot rc = BaseDir r.

(** The directories of a written file are in place and the system lets the
    file be written. *)
Definition settled (buildRoot : string) (after : SourceFile) (w : World) : Prop :=
  let filePath := filepath.Join [buildRoot; Path after] in
  (forall d,
     In d (rev (os.ancestors (os.resolve w (filepath.Dir filePath))) ++
           [os.resolve w (filepath.Dir filePath)]) ->
     os.node_at w d = Some Directory) /\
  (forall d, In d (rev (os.ancestors (os.resolve w filePath))) ->
             os.node_at w d = Some Directory) /\
  fault w SysWriteFile (os.resolve w filePath) = None /\
  os.resolve w filePath <> "/".

(** * Properties *)

(** ** The library functions on the tables of their own tests *)

Example Match_agrees_with_its_table : forallb id match_table = true.
Proof. vm_compute. reflexivity. Qed.

Example Clean_agrees_with_its_table : forallb id clean_table = true.
Proof. vm_compute. reflexivity. Qed.

Example Dir_and_Ext_agree_with_their_tables : forallb id dir_ext_table = true.
Proof. vm_compute. reflexivity. Qed.

(** ** Strings *)

Module string_facts.
Import GoString strings.

Lemma byte_eq_true a b : byte_eq a b = true <-> a = b.
Proof. unfold byte_eq. apply Ascii.eqb_eq. Qed.

Lemma byte_eq_refl a : byte_eq a a = true.
Proof. by apply byte_eq_true. Qed.

Lemma byte_eq_false a b : byte_eq a b = false <-> a <> b.
Proof. unfold byte_eq. apply Ascii.eqb_neq. Qed.

Lemma app_nil (t : string) : "" +:+ t = t.
Proof. reflexivity. Qed.

Lemma app_cons c (s t : string) : String c s +:+ t = String c (s +:+ t).
Proof. reflexivity. Qed.

Ltac app_simpl := rewrite ?app_cons, ?app_nil.

Lemma app_empty_r (s : string) : s +:+ "" = s.
Proof. induction s as [|c s IH]; app_simpl; [done | by rewrite IH]. Qed.

Lemma app_assoc (a b c : string) : (a +:+ b) +:+ c = a +:+ (b +:+ c).
Proof. induction a as [|x a IH]; app_simpl; [done | by rewrite IH]. Qed.

Lemma len_app (a b : string) : len (a +:+ b) = len a + len b.
Proof. induction a as [|x a IH]; app_simpl; simpl; [done | by rewrite IH]. Qed.

Lemma app_inv_head (a b c : string) : a +:+ b = a +:+ c -> b = c.
Proof. induction a as [|x a IH]; app_simpl; [done | intros [= E]; auto]. Qed.

Lemma from_app (a b : string) : from (len a) (a +:+ b) = b.
Proof. induction a as [|x a IH]; app_simpl; simpl; [by destruct b | done]. Qed.

Lemma upto_app (a b : string) : upto (len a) (a +:+ b) = a.
Proof.
  induction a as [|x a IH]; app_simpl; simpl; [by destruct b | by rewrite IH].
Qed.

Lemma upto_from (n : nat) (s : string) : upto n s +:+ from n s = s.
Proof.
  revert s; induction n as [|n IH]; intros [|c s]; simpl; app_simpl; try done.
  by rewrite IH.
Qed.

Lemma len_upto (n : nat) (s : string) : n <= len s -> len (upto n s) = n.
Proof.
  revert s; induction n as [|n IH]; intros [|c s]; simpl; try done; try lia.
  intros Hn. rewrite IH; lia.
Qed.

Lemma len_from (n : nat) (s : string) : len (from n s) = len s - n.
Proof.
  revert s; induction n as [|n IH]; intros [|c s]; simpl; try done.
Qed.

Lemma from_add (n m : nat) (s : string) : from (n + m) s = from m (from n s).
Proof.
  revert s; induction n as [|n IH]; intros s; simpl; [done|].
  destruct s as [|c s]; [by destruct m | apply IH].
Qed.

Lemma HasPrefix_spec (s p : string) :
  HasPrefix s p = true <-> exists t, s = p +:+ t.
Proof.
  revert s; induction p as [|c p IH]; intros s; simpl.
  - split; [intros _; exists s; reflexivity | done].
  - destruct s as [|d s]; simpl.
    + split; [done | intros [t Ht]; rewrite app_cons in Ht; discriminate].
    + rewrite andb_true_iff, byte_eq_true, IH. split.
      * intros [-> [t ->]]. exists t. reflexivity.
      * intros [t Ht]. rewrite app_cons in Ht. injection Ht as -> ->.
        split; [done | by exists t].
Qed.

Lemma HasPrefix_app (p t : string) : HasPrefix (p +:+ t) p = true.
Proof. apply HasPrefix_spec. by exists t. Qed.

Lemma HasSuffix_spec (s suffix : string) :
  HasSuffix s suffix = true <-> exists t, s = t +:+ suffix.
Proof.
  unfold HasSuffix. rewrite andb_true_iff, Nat.leb_le, String.eqb_eq. split.
  - intros [Hle E]. exists (upto (len s - len suffix) s).
    pose proof (upto_from (len s - len suffix) s) as U.
    rewrite E in U. by symmetry.
  - intros [t ->]. rewrite len_app. split; [lia|].
    replace (len t + len suffix - len suffix) with (len t) by lia.
    apply from_app.
Qed.

Lemma HasSuffix_app (t suffix : string) : HasSuffix (t +:+ suffix) suffix = true.
Proof. apply HasSuffix_spec. by exists t. Qed.

(** [Index] finds an occurrence. *)
Lemma Index_Some (s sub : string) (i : nat) :
  Index s sub = Some i ->
  exists a b, s = a +:+ sub +:+ b /\ len a = i.
Proof.
  revert i; induction s as [|c s IH]; intros i; simpl.
  - destruct (HasPrefix "" sub) eqn:E; [|done].
    intros [= <-]. apply HasPrefix_spec in E as [t Ht]. by exists "", t.
  - destruct (HasPrefix (String c s) sub) eqn:E.
    + intros [= <-]. apply HasPrefix_spec in E as [t Ht]. by exists "", t.
    + destruct (Index s sub) as [j|] eqn:Ej; [|done]. simpl.
      intros [= <-]. destruct (IH j eq_refl) as (a & b & -> & <-).
      exists (String c a), b. split; reflexivity.
Qed.

Lemma Index_upto_from (s sub : string) (i : nat) :
  Index s sub = Some i -> s = upto i s +:+ sub +:+ from (i + len sub) s.
Proof.
  intros Hi. destruct (Index_Some _ _ _ Hi) as (a & b & -> & <-).
  rewrite upto_app, from_add, from_app, from_app. done.
Qed.

Lemma Index_le (s sub : string) (i : nat) :
  Index s sub = Some i -> i + len sub <= len s.
Proof.
  intros Hi. destruct (Index_Some _ _ _ Hi) as (a & b & -> & <-).
  rewrite !len_app. lia.
Qed.

Lemma Contains_Index (s sub : string) :
  Contains s sub = true <-> exists i, Index s sub = Some i.
Proof.
  unfold Contains. destruct (Index s sub) as [i|]; split; try done.
  - by exists i.
  - by intros [i Hi].
Qed.

Lemma Index_empty (sub : string) : sub <> "" -> Index "" sub = None.
Proof. by destruct sub. Qed.

(** [Count] does not depend on the rounds it is given, as long as they
    cover the string. *)
Lemma Count_loop_rounds (fuel1 fuel2 : nat) (s sub : string) :
  sub <> "" -> len s <= fuel1 -> len s <= fuel2 ->
  Count_loop fuel1 s sub = Count_loop fuel2 s sub.
Proof.
  intros Hsub. revert fuel2 s; induction fuel1 as [|fuel1 IH]; intros fuel2 s H1 H2.
  - destruct s; [|simpl in H1; lia].
    destruct fuel2; [done|]. cbn [Count_loop]. by rewrite Index_empty.
  - destruct fuel2 as [|fuel2].
    { destruct s; [|simpl in H2; lia]. cbn [Count_loop]. by rewrite Index_empty. }
    cbn [Count_loop]. destruct (Index s sub) as [i|] eqn:Hi; [|done].
    f_equal. apply Index_le in Hi.
    assert (0 < len sub) by (destruct sub; [done | simpl; lia]).
    apply IH; rewrite len_from; lia.
Qed.

End string_facts.

(** ** The matcher on the target pattern *)

(** C4, as the code has it: against the one pattern [**/target/**] the
    matcher answers false for [foo/target/classes/x.class] (the
    specification says true) and false for [foo/targetx/x.class].
    [filepath.Match] does not let a star cross a separator, and the pattern
    splits into three pieces at its two double stars, so the prefix and
    suffix test is never made. *)
Theorem C4_target_pattern_never_matches :
  matchesPatterns "foo/target/classes/x.class" ["**/target/**"] = false /\
  matchesPatterns "foo/targetx/x.class" ["**/target/**"] = false /\
  filepath.Match "**/target/**" "foo/target/classes/x.class" = (false, None) /\
  strings.Split "**/target/**" "**" = [""; "/target/"; ""].
Proof. repeat split; vm_compute; reflexivity. Qed.

(** ** Extensions *)

Module ext_facts.
Import GoString strings string_facts.

Lemma bytes_app (a b : string) : bytes (a +:+ b) = bytes a ++ bytes b.
Proof.
  induction a as [|c a IH]; app_simpl; simpl; [done | by rewrite IH].
Qed.

Lemma of_bytes_app (l k : list ascii) : of_bytes (l ++ k) = of_bytes l +:+ of_bytes k.
Proof. induction l as [|c l IH]; simpl; app_simpl; [done | by rewrite IH]. Qed.

Lemma of_bytes_bytes (s : string) : of_bytes (bytes s) = s.
Proof. apply string_of_list_ascii_of_string. Qed.

Lemma ext_scan_dot (l : list ascii) (more : list ascii) (acc : string) :
  dotless (of_bytes l) = true ->
  filepath.ext_scan (l ++ "."%char :: more) acc
  = String "." (of_bytes (rev l) +:+ acc).
Proof.
  revert acc; induction l as [|c l IH]; intros acc Hl; simpl in *.
  - done.
  - apply andb_true_iff in Hl as [Hc Hl]. apply andb_true_iff in Hc as [Hdot Hsep].
    apply negb_true_iff in Hdot, Hsep. rewrite Hsep, Hdot.
    rewrite IH by done. rewrite of_bytes_app. simpl.
    by rewrite app_assoc.
Qed.

Lemma dotless_rev (l : list ascii) :
  dotless (of_bytes (rev l)) = dotless (of_bytes l).
Proof.
  assert (Happ : forall a b, dotless (a +:+ b) = dotless a && dotless b).
  { induction a as [|c a IH]; intros b; app_simpl; simpl; [done|].
    rewrite IH. by rewrite !andb_assoc. }
  induction l as [|c l IH]; simpl; [done|].
  rewrite of_bytes_app, Happ, IH. simpl.
  rewrite andb_true_r. apply andb_comm.
Qed.

(** [Ext] returns the extension a path ends with. *)
Lemma Ext_app (stem rest : string) :
  dotless rest = true ->
  filepath.Ext (stem +:+ String "." rest) = String "." rest.
Proof.
  intros Hrest. unfold filepath.Ext.
  rewrite bytes_app. simpl. rewrite rev_app_distr. simpl.
  rewrite <- List.app_assoc. simpl.
  rewrite ext_scan_dot.
  - by rewrite rev_involutive, of_bytes_bytes, app_empty_r.
  - by rewrite dotless_rev, of_bytes_bytes.
Qed.

Lemma lower_byte_dot c : byte_eq (lower_byte c) "." = byte_eq c ".".
Proof. destruct c as [[] [] [] [] [] [] [] []]; reflexivity. Qed.

Lemma lower_byte_sep c :
  filepath.IsPathSeparator (lower_byte c) = filepath.IsPathSeparator c.
Proof. destruct c as [[] [] [] [] [] [] [] []]; reflexivity. Qed.

Lemma lower_byte_ascii c : is_ascii_byte (lower_byte c) = is_ascii_byte c.
Proof. destruct c as [[] [] [] [] [] [] [] []]; reflexivity. Qed.

Lemma dotless_lower (s : string) : dotless (lower_ascii s) = dotless s.
Proof.
  induction s as [|c s IH]; simpl; [done|].
  by rewrite lower_byte_dot, lower_byte_sep, IH.
Qed.

Lemma all_ascii_lower (s : string) : all_ascii (lower_ascii s) = all_ascii s.
Proof.
  induction s as [|c s IH]; simpl; [done|]. by rewrite lower_byte_ascii, IH.
Qed.

Lemma extension_shape_lower (s : string) :
  extension_shape (lower_ascii s) = extension_shape s.
Proof.
  destruct s as [|c s]; simpl; [done|]. by rewrite lower_byte_dot, dotless_lower.
Qed.

Lemma ext_in_In (ext : string) (exts : list string) :
  ext_in ext exts = true <-> In ext exts.
Proof.
  induction exts as [|e exts IH]; simpl; [done|].
  destruct (String.eqb ext e) eqn:E.
  - apply String.eqb_eq in E. split; auto.
  - apply String.eqb_neq in E. rewrite IH. split; [auto | intros [?|?]; congruence].
Qed.

Lemma sourceExtensions_shape (e : string) :
  In e sourceExtensions -> extension_shape e = true /\ all_ascii e = true.
Proof.
  intros He.
  assert (Hall : forallb (fun e => extension_shape e && all_ascii e) sourceExtensions = true)
    by (vm_compute; reflexivity).
  rewrite forallb_forall in Hall. by apply andb_true_iff, Hall.
Qed.

End ext_facts.

(** C10: the extension test of discovery ignores the case of ASCII letters.
    A path counts as a source file exactly when its extension, lowercased,
    is on the allow-list; so every spelling of a listed extension is
    accepted, whatever the case of its letters, and [Main.JAVA] is found by
    discovery, while [filepath.Match] tells [Main.JAVA] from [Main.java]. *)
Theorem C10_extension_test_ignores_case `{UnicodeTables} :
  (forall path, strings.all_ascii (filepath.Ext path) = true ->
     (isSourceFile path = true <->
      In (strings.lower_ascii (filepath.Ext path)) sourceExtensions)) /\
  (forall stem ext e, In e sourceExtensions -> strings.lower_ascii ext = e ->
     isSourceFile (stem +:+ ext) = true) /\
  isSourceFile "Main.JAVA" = true /\
  FindSourceFiles plain_rewriter "/w" upper_case_world = (["/w/Main.JAVA"], None) /\
  matchesPatterns "Main.JAVA" ["*.java"] = false /\
  matchesPatterns "Main.java" ["*.java"] = true.
Proof.
  split; [|split; [|repeat split; vm_compute; reflexivity]].
  - intros path Hascii. unfold isSourceFile, strings_unicode.ToLower.
    rewrite Hascii. apply ext_facts.ext_in_In.
  - intros stem ext e He Hlow.
    destruct (ext_facts.sourceExtensions_shape e He) as [Hshape Hascii].
    rewrite <- Hlow in Hshape, Hascii.
    rewrite ext_facts.extension_shape_lower in Hshape.
    rewrite ext_facts.all_ascii_lower in Hascii.
    destruct ext as [|c rest]; [done|]. simpl in Hshape.
    apply andb_true_iff in Hshape as [Hc Hrest].
    apply string_facts.byte_eq_true in Hc as ->.
    unfold isSourceFile, strings_unicode.ToLower.
    rewrite ext_facts.Ext_app by done. rewrite Hascii, Hlow.
    by apply ext_facts.ext_in_In.
Qed.

(** [App.Kt] is a spelling of the listed extension [.kt]. *)
Lemma C10_extension_test_ignores_case_witness :
  @isSourceFile ascii_only ("src/App" +:+ ".Kt") = true.
Proof.
  apply (proj1 (proj2 (@C10_extension_test_ignores_case ascii_only)) "src/App" ".Kt" ".kt").
  - vm_compute. tauto.
  - reflexivity.
Defined.

(** ** Patterns with one double star *)

Module match_facts.
Import GoString strings string_facts filepath.

Lemma glob_byte_false c :
  glob_byte c = false ->
  byte_eq c "*" = false /\ byte_eq c "?" = false /\
  byte_eq c "[" = false /\ byte_eq c "\" = false.
Proof. unfold glob_byte. rewrite !orb_false_iff. tauto. Qed.

Lemma literal_cons c s :
  literal (String c s) = true -> glob_byte c = false /\ literal s = true.
Proof.
  simpl. rewrite andb_true_iff, negb_true_iff. tauto.
Qed.

Lemma scan_literal (P r : string) :
  literal P = true -> scan false (P +:+ String "*" r) = (P, String "*" r).
Proof.
  induction P as [|c P IH]; intros HP; app_simpl.
  - reflexivity.
  - apply literal_cons in HP as [Hc HP].
    apply glob_byte_false in Hc as (Hstar & _ & Hopen & Hesc).
    simpl. rewrite Hesc, Hopen, Hstar, (IH HP).
    by destruct (byte_eq c "]").
Qed.

Lemma scan_literal_end (P : string) :
  literal P = true -> scan false P = (P, "").
Proof.
  induction P as [|c P IH]; intros HP; [reflexivity|].
  apply literal_cons in HP as [Hc HP].
  apply glob_byte_false in Hc as (Hstar & _ & Hopen & Hesc).
  simpl. rewrite Hesc, Hopen, Hstar, (IH HP).
  by destruct (byte_eq c "]").
Qed.

Lemma skip_stars_literal (b : bool) (S : string) :
  literal S = true -> skip_stars b S = (b, S).
Proof.
  destruct S as [|c S]; intros HS; [reflexivity|].
  apply literal_cons in HS as [Hc _].
  apply glob_byte_false in Hc as (Hstar & _). simpl. by rewrite Hstar.
Qed.

Lemma scanChunk_prefix c (P r : string) :
  literal (String c P) = true ->
  scanChunk (String c P +:+ String "*" r) = (false, String c P, String "*" r).
Proof.
  intros HP. unfold scanChunk.
  assert (skip_stars false (String c P +:+ String "*" r)
          = (false, String c P +:+ String "*" r)) as ->.
  { apply literal_cons in HP as [Hc _].
    apply glob_byte_false in Hc as (Hstar & _).
    rewrite app_cons. simpl. by rewrite Hstar. }
  by rewrite scan_literal.
Qed.

Lemma scanChunk_stars (S : string) :
  literal S = true -> scanChunk ("**" +:+ S) = (true, S, "").
Proof.
  intros HS. unfold scanChunk.
  change ("**" +:+ S) with (String "*" (String "*" S)). simpl.
  by rewrite skip_stars_literal, scan_literal_end.
Qed.

Lemma matchChunk_loop_lost (fuel : nat) (chunk s : string) :
  literal chunk = true -> len chunk <= fuel ->
  matchChunk_loop fuel chunk s true = ChunkNo.
Proof.
  revert fuel s; induction chunk as [|c chunk IH]; intros fuel s Hlit Hfuel.
  - by destruct fuel.
  - destruct fuel as [|fuel]; [simpl in Hfuel; lia|].
    apply literal_cons in Hlit as [Hc Hlit].
    apply glob_byte_false in Hc as (_ & Hq & Hopen & Hesc).
    simpl in Hfuel. simpl. rewrite Hopen, Hq, Hesc.
    destruct s; apply IH; auto; lia.
Qed.

Lemma matchChunk_loop_literal (fuel : nat) (chunk s : string) :
  literal chunk = true -> len chunk <= fuel ->
  matchChunk_loop fuel chunk s false
  = if HasPrefix s chunk then ChunkOk (from (len chunk) s) else ChunkNo.
Proof.
  revert fuel s; induction chunk as [|c chunk IH]; intros fuel s Hlit Hfuel.
  - by destruct fuel.
  - destruct fuel as [|fuel]; [simpl in Hfuel; lia|].
    pose proof Hlit as Hlit0.
    apply literal_cons in Hlit as [Hc Hlit].
    apply glob_byte_false in Hc as (_ & Hq & Hopen & Hesc).
    simpl in Hfuel. simpl. rewrite Hopen, Hq, Hesc.
    destruct s as [|s0 s]; simpl.
    + apply matchChunk_loop_lost; auto; lia.
    + destruct (byte_eq c s0); simpl.
      * apply IH; auto; lia.
      * apply matchChunk_loop_lost; auto; lia.
Qed.

Lemma matchChunk_literal (chunk s : string) :
  literal chunk = true ->
  matchChunk chunk s
  = if HasPrefix s chunk then ChunkOk (from (len chunk) s) else ChunkNo.
Proof. intros. by apply matchChunk_loop_literal. Qed.

Lemma HasPrefix_from (s p : string) :
  HasPrefix s p = true -> s = p +:+ from (len p) s.
Proof.
  intros Hp. apply HasPrefix_spec in Hp as [t ->]. by rewrite from_app.
Qed.

Lemma HasSuffix_cons c (t S : string) :
  HasSuffix t S = true -> HasSuffix (String c t) S = true.
Proof.
  rewrite !HasSuffix_spec. intros [u ->]. by exists (String c u).
Qed.

Lemma is_empty_true (s : string) : is_empty s = true <-> s = "".
Proof. by destruct s. Qed.

Lemma star_search_literal (S t : string) :
  literal S = true ->
  match star_search S true t with
  | StarBad => False
  | StarNone => True
  | StarAt rest => rest = "" /\ HasSuffix t S = true
  end.
Proof.
  intros HS. induction t as [|c t IH]; simpl; [done|].
  destruct (IsPathSeparator c); [done|].
  rewrite matchChunk_literal by done.
  destruct (HasPrefix t S) eqn:Hpre.
  - destruct (is_empty (from (len S) t)) eqn:Hrest; simpl.
    + apply is_empty_true in Hrest. split; [done|].
      apply HasSuffix_cons, HasSuffix_spec. exists "".
      rewrite (HasPrefix_from _ _ Hpre), Hrest. by rewrite app_empty_r.
    + destruct (star_search S true t); try done.
      destruct IH as [-> Hsuf]. split; [done | by apply HasSuffix_cons].
  - destruct (star_search S true t); try done.
    destruct IH as [-> Hsuf]. split; [done | by apply HasSuffix_cons].
Qed.

Lemma Match_loop_step (fuel : nat) c (p name : string) :
  Match_loop (S fuel) (String c p) name
  = let '(star, chunk, rest) := scanChunk (String c p) in
    if star && is_empty chunk then (negb (Contains name sep), None)
    else
      let retry (_ : unit) :=
        if star then
          match star_search chunk (is_empty rest) name with
          | StarAt t => Match_loop fuel rest t
          | StarBad => (false, Some ErrBadPattern)
          | StarNone => (false, None)
          end
        else (false, None) in
      match matchChunk chunk name with
      | ChunkOk t =>
          if is_empty t || negb (is_empty rest) then Match_loop fuel rest t
          else retry tt
      | ChunkBad => (false, Some ErrBadPattern)
      | ChunkNo => retry tt
      end.
Proof. reflexivity. Qed.

Lemma Match_loop_done (fuel : nat) (name : string) :
  Match_loop fuel "" name = (is_empty name, None).
Proof. by destruct fuel. Qed.

(** After the prefix: the double star and a literal suffix accept only
    names that end with the suffix. *)
Lemma Match_loop_stars (fuel : nat) (S t : string) :
  literal S = true ->
  fst (Match_loop (Datatypes.S fuel) ("**" +:+ S) t) = true ->
  HasSuffix t S = true.
Proof.
  intros HS.
  change ("**" +:+ S) with (String "*" (String "*" S)).
  rewrite Match_loop_step.
  change (String "*" (String "*" S)) with ("**" +:+ S).
  rewrite scanChunk_stars by done. cbv zeta. simpl andb.
  destruct (is_empty S) eqn:HSe.
  { apply is_empty_true in HSe as ->. intros _. apply HasSuffix_spec.
    exists t. by rewrite app_empty_r. }
  rewrite matchChunk_literal by done.
  pose proof (star_search_literal S t HS) as Hstar.
  assert (Hretry :
    fst (match star_search S (is_empty "") t with
         | StarAt t0 => Match_loop fuel "" t0
         | StarBad => (false, Some ErrBadPattern)
         | StarNone => (false, None)
         end) = true -> HasSuffix t S = true).
  { simpl is_empty. destruct (star_search S true t); try done.
    by destruct Hstar. }
  destruct (HasPrefix t S) eqn:Hpre; [|exact Hretry].
  simpl negb. rewrite orb_false_r.
  destruct (is_empty (from (len S) t)) eqn:Hrest; [|exact Hretry].
  intros _. apply is_empty_true in Hrest. apply HasSuffix_spec. exists "".
  rewrite (HasPrefix_from _ _ Hpre), Hrest. by rewrite app_empty_r.
Qed.

Lemma Match_literal_sides (P S name : string) :
  literal P = true -> literal S = true ->
  fst (Match (P +:+ "**" +:+ S) name) = true ->
  HasPrefix name P = true /\ HasSuffix name S = true.
Proof.
  intros HP HS. unfold Match. destruct P as [|c P].
  - rewrite app_nil. change (len ("**" +:+ S)) with (Datatypes.S (Datatypes.S (len S))).
    intros Hm. split; [done | by eapply Match_loop_stars].
  - rewrite app_cons. simpl len. rewrite Match_loop_step.
    change (String c (P +:+ "**" +:+ S))
      with (String c P +:+ String "*" (String "*" S)).
    rewrite scanChunk_prefix by done. cbv zeta. simpl andb.
    rewrite matchChunk_literal by done.
    destruct (HasPrefix name (String c P)) eqn:Hpre; [|done].
    simpl is_empty. simpl negb. rewrite orb_true_r.
    rewrite len_app. change (len ("**" +:+ S)) with (Datatypes.S (Datatypes.S (len S))).
    rewrite Nat.add_succ_r.
    change (String "*" (String "*" S)) with ("**" +:+ S).
    intros Hm. apply Match_loop_stars in Hm; [|done].
    split; [done|].
    apply HasSuffix_spec in Hm as [u Hu]. apply HasSuffix_spec.
    exists (String c P +:+ u).
    rewrite (HasPrefix_from _ _ Hpre) at 1. rewrite Hu. by rewrite app_assoc.
Qed.

Lemma genSplit_nonempty (cuts : nat) (s sep : string) : genSplit cuts s sep <> [].
Proof. destruct cuts; simpl; [done|]. by destruct (Index s sep). Qed.

(** Two pieces: the separator occurs, and the pieces are what stands
    before and after its first occurrence. *)
Lemma Split_two (pattern sep P S : string) :
  Split pattern sep = [P; S] ->
  pattern = P +:+ sep +:+ S /\ Contains pattern sep = true.
Proof.
  unfold Split. destruct (Count pattern sep) as [|n]; simpl; [done|].
  destruct (Index pattern sep) as [m|] eqn:Hm; [|done].
  intros [= <- Hrest].
  assert (S = from (m + len sep) pattern) as ->.
  { destruct n; simpl in Hrest.
    - by injection Hrest.
    - destruct (Index (from (m + len sep) pattern) sep).
      + injection Hrest as _ Hnil. by apply genSplit_nonempty in Hnil.
      + by injection Hrest. }
  split; [by apply Index_upto_from|].
  apply Contains_Index. by exists m.
Qed.

End match_facts.

(** ** The loops of [Match] never run out of rounds

    The loops of [matchChunk] and [Match] are written with a number of
    rounds; the length of the chunk, or of the pattern, is enough, and more
    rounds change nothing. *)

Module match_rounds.
Import GoString strings string_facts filepath.

Lemma Decode_width (c : ascii) (s : string) :
  1 <= snd (utf8.DecodeRuneInString (String c s)).
Proof.
  unfold utf8.DecodeRuneInString.
  repeat match goal with
         | |- context [if ?b then _ else _] => destruct b
         | |- context [match ?t with EmptyString => _ | String _ _ => _ end] =>
             destruct t
         end; simpl; lia.
Qed.

Lemma getEsc_shorter (chunk nchunk : string) (r : Z) :
  getEsc chunk = Some (r, nchunk) -> len nchunk < len chunk.
Proof.
  unfold getEsc. destruct chunk as [|c0 after]; [done|].
  destruct (byte_eq c0 "-" || byte_eq c0 "]"); [done|].
  destruct (byte_eq c0 "\").
  - destruct after as [|c1 after']; [done|]. simpl is_empty.
    pose proof (Decode_width c1 after') as Hw.
    destruct (utf8.DecodeRuneInString (String c1 after')) as [r' n].
    destruct ((r' =? utf8.RuneError)%Z && (n =? 1)); [done|].
    destruct (is_empty (from n (String c1 after'))); [done|].
    intros [= _ <-]. rewrite len_from. simpl in *. lia.
  - simpl is_empty.
    pose proof (Decode_width c0 after) as Hw.
    destruct (utf8.DecodeRuneInString (String c0 after)) as [r' n].
    destruct ((r' =? utf8.RuneError)%Z && (n =? 1)); [done|].
    destruct (is_empty (from n (String c0 after))) eqn:He; [done|].
    intros [= _ <-]. rewrite len_from. simpl in *.
    destruct n; [lia|]. lia.
Qed.

Lemma class_ranges_shorter (fuel : nat) (chunk rest : string) (r : Z)
    (matched b : bool) (nrange : nat) :
  class_ranges fuel chunk r matched nrange = Some (b, rest) ->
  len rest < len chunk.
Proof.
  revert chunk matched nrange; induction fuel as [|fuel IH];
    intros chunk matched nrange; simpl; [done|].
  destruct chunk as [|c chunk'].
  - unfold getEsc. done.
  - destruct (byte_eq c "]" && (0 <? nrange)).
    { intros [= _ <-]. simpl. lia. }
    destruct (getEsc (String c chunk')) as [[lo chunk1]|] eqn:Hlo; [|done].
    apply getEsc_shorter in Hlo.
    destruct chunk1 as [|d after].
    + intros Hrec. apply IH in Hrec. simpl in *. lia.
    + destruct (byte_eq d "-").
      * destruct (getEsc after) as [[hi chunk2]|] eqn:Hhi; [|done].
        apply getEsc_shorter in Hhi.
        intros Hrec. apply IH in Hrec. simpl in *. lia.
      * intros Hrec. apply IH in Hrec. simpl in *. lia.
Qed.

Lemma class_ranges_rounds (fuel1 fuel2 : nat) (chunk : string) (r : Z)
    (matched : bool) (nrange : nat) :
  len chunk <= fuel1 -> len chunk <= fuel2 ->
  class_ranges fuel1 chunk r matched nrange
  = class_ranges fuel2 chunk r matched nrange.
Proof.
  revert fuel2 chunk matched nrange; induction fuel1 as [|fuel1 IH];
    intros fuel2 chunk matched nrange H1 H2.
  - destruct chunk; [|simpl in H1; lia]. by destruct fuel2.
  - destruct fuel2 as [|fuel2].
    { destruct chunk; [reflexivity | simpl in H2; lia]. }
    simpl.
    destruct (match chunk with
              | String c rest => if byte_eq c "]" && (0 <? nrange) then Some rest else None
              | EmptyString => None
              end); [done|].
    destruct (getEsc chunk) as [[lo chunk1]|] eqn:Hlo; [|done].
    apply getEsc_shorter in Hlo.
    destruct chunk1 as [|d after].
    + apply IH; simpl; lia.
    + destruct (byte_eq d "-").
      * destruct (getEsc after) as [[hi chunk2]|] eqn:Hhi; [|done].
        apply getEsc_shorter in Hhi. apply IH; simpl in *; lia.
      * apply IH; simpl in *; lia.
Qed.

Lemma matchChunk_loop_rounds (fuel1 fuel2 : nat) (chunk s : string) (failed : bool) :
  len chunk <= fuel1 -> len chunk <= fuel2 ->
  matchChunk_loop fuel1 chunk s failed = matchChunk_loop fuel2 chunk s failed.
Proof.
  revert fuel2 chunk s failed; induction fuel1 as [|fuel1 IH];
    intros fuel2 chunk s failed H1 H2.
  - destruct chunk; [|simpl in H1; lia]. by destruct fuel2.
  - destruct chunk as [|c chunk']; [by destruct fuel2|].
    destruct fuel2 as [|fuel2]; [simpl in H2; lia|].
    simpl in H1, H2. simpl.
    destruct (byte_eq c "[").
    { destruct (if failed || is_empty s then (0%Z, s)
                else let '(r, n) := utf8.DecodeRuneInString s in (r, from n s))
        as [r s1].
      assert (Hclass : forall chunk1 : string, len chunk1 <= len chunk' ->
                match class_ranges fuel1 chunk1 r false 0 with
                | Some (matched, chunk2) =>
                    matchChunk_loop fuel1 chunk2 s1
                      (failed || is_empty s || Bool.eqb matched false)
                | None => ChunkBad
                end
                = match class_ranges fuel2 chunk1 r false 0 with
                  | Some (matched, chunk2) =>
                      matchChunk_loop fuel2 chunk2 s1
                        (failed || is_empty s || Bool.eqb matched false)
                  | None => ChunkBad
                  end /\
                match class_ranges fuel1 chunk1 r false 0 with
                | Some (matched, chunk2) =>
                    matchChunk_loop fuel1 chunk2 s1
                      (failed || is_empty s || Bool.eqb matched true)
                | None => ChunkBad
                end
                = match class_ranges fuel2 chunk1 r false 0 with
                  | Some (matched, chunk2) =>
                      matchChunk_loop fuel2 chunk2 s1
                        (failed || is_empty s || Bool.eqb matched true)
                  | None => ChunkBad
                  end).
      { intros chunk1 Hlen.
        rewrite (class_ranges_rounds fuel1 fuel2) by lia.
        destruct (class_ranges fuel2 chunk1 r false 0) as [[matched chunk2]|] eqn:Hc;
          [|done].
        apply class_ranges_shorter in Hc. split; apply IH; lia. }
      destruct chunk' as [|d rest].
      - apply (Hclass ""). simpl. lia.
      - destruct (byte_eq d "^").
        + apply (Hclass rest). simpl. lia.
        + apply (Hclass (String d rest)). simpl. lia. }
    destruct (byte_eq c "?").
    { destruct s as [|s0 s']; [apply IH; lia|].
      destruct (failed || is_empty (String s0 s')); [apply IH; lia|].
      destruct (utf8.DecodeRuneInString (String s0 s')). apply IH; lia. }
    destruct (byte_eq c "\").
    { destruct chunk' as [|e chunk'']; [done|]. simpl in H1, H2.
      destruct s as [|s0 s']; [apply IH; lia|].
      destruct (failed || is_empty (String s0 s')); apply IH; lia. }
    destruct s as [|s0 s']; [apply IH; lia|].
    destruct (failed || is_empty (String s0 s')); apply IH; lia.
Qed.

Lemma skip_stars_le (star star' : bool) (pattern p : string) :
  skip_stars star pattern = (star', p) -> len p <= len pattern.
Proof.
  revert star; induction pattern as [|c pattern IH]; intros star; simpl.
  - by intros [= _ <-].
  - destruct (byte_eq c "*").
    + intros Hrec. apply IH in Hrec. lia.
    + by intros [= _ <-].
Qed.

(** [scan] on a pattern and on the pattern behind one more byte. *)
Lemma scan_le (pattern : string) :
  (forall inrange chunk rest,
     scan inrange pattern = (chunk, rest) -> len rest <= len pattern) /\
  (forall c inrange chunk rest,
     scan inrange (String c pattern) = (chunk, rest) ->
     len rest <= len (String c pattern)).
Proof.
  induction pattern as [|d pattern [IH1 IH2]].
  - split.
    + intros inrange chunk rest. simpl. intros [= _ <-]; simpl; lia.
    + intros c inrange chunk rest. simpl.
      destruct (byte_eq c "\"); [intros [= _ <-]; simpl; lia|].
      destruct (byte_eq c "["); [intros [= _ <-]; simpl; lia|].
      destruct (byte_eq c "]"); [intros [= _ <-]; simpl; lia|].
      destruct (byte_eq c "*"); [|intros [= _ <-]; simpl; lia].
      destruct inrange; intros [= _ <-]; simpl; lia.
  - split; [apply IH2|].
    intros c inrange chunk rest.
    change (scan inrange (String c (String d pattern)))
      with (if byte_eq c "\" then
              let '(chunk, r) := scan inrange pattern in (String c (String d chunk), r)
            else if byte_eq c "[" then
              let '(chunk, r) := scan true (String d pattern) in (String c chunk, r)
            else if byte_eq c "]" then
              let '(chunk, r) := scan false (String d pattern) in (String c chunk, r)
            else if byte_eq c "*" then
              if inrange
              then let '(chunk, r) := scan inrange (String d pattern) in (String c chunk, r)
              else (EmptyString, String c (String d pattern))
            else
              let '(chunk, r) := scan inrange (String d pattern) in (String c chunk, r)).
    destruct (byte_eq c "\").
    { destruct (scan inrange pattern) as [ch r] eqn:Hs. intros [= _ <-].
      apply IH1 in Hs. simpl. lia. }
    destruct (byte_eq c "[").
    { destruct (scan true (String d pattern)) as [ch r] eqn:Hs. intros [= _ <-].
      apply IH2 in Hs. simpl in *. lia. }
    destruct (byte_eq c "]").
    { destruct (scan false (String d pattern)) as [ch r] eqn:Hs. intros [= _ <-].
      apply IH2 in Hs. simpl in *. lia. }
    destruct (byte_eq c "*").
    { destruct inrange.
      - destruct (scan true (String d pattern)) as [ch r] eqn:Hs. intros [= _ <-].
        apply IH2 in Hs. simpl in *. lia.
      - intros [= _ <-]. simpl. lia. }
    destruct (scan inrange (String d pattern)) as [ch r] eqn:Hs. intros [= _ <-].
    apply IH2 in Hs. simpl in *. lia.
Qed.

(** A byte that is no star goes into the chunk. *)
Lemma scan_consumes (c : ascii) (pattern chunk rest : string) :
  byte_eq c "*" = false ->
  scan false (String c pattern) = (chunk, rest) -> len rest <= len pattern.
Proof.
  intros Hstar. simpl. rewrite Hstar.
  destruct (byte_eq c "\").
  { destruct pattern as [|d pattern'].
    - intros [= _ <-]. simpl. lia.
    - destruct (scan false pattern') as [ch r] eqn:Hs. intros [= _ <-].
      apply (proj1 (scan_le pattern')) in Hs. simpl. lia. }
  destruct (byte_eq c "[").
  { destruct (scan true pattern) as [ch r] eqn:Hs. intros [= _ <-].
    by apply (proj1 (scan_le pattern)) in Hs. }
  destruct (byte_eq c "]").
  { destruct (scan false pattern) as [ch r] eqn:Hs. intros [= _ <-].
    by apply (proj1 (scan_le pattern)) in Hs. }
  destruct (scan false pattern) as [ch r] eqn:Hs. intros [= _ <-].
  by apply (proj1 (scan_le pattern)) in Hs.
Qed.

(** Every call of [scanChunk] takes at least one byte off the pattern. *)
Lemma scanChunk_shorter (c : ascii) (pattern chunk rest : string) (star : bool) :
  scanChunk (String c pattern) = (star, chunk, rest) -> len rest <= len pattern.
Proof.
  unfold scanChunk. simpl skip_stars.
  destruct (byte_eq c "*") eqn:Hstar.
  - destruct (skip_stars true pattern) as [st p] eqn:Hskip.
    apply skip_stars_le in Hskip.
    destruct (scan false p) as [ch r] eqn:Hs. intros [= _ _ <-].
    apply (proj1 (scan_le p)) in Hs. lia.
  - destruct (scan false (String c pattern)) as [ch r] eqn:Hs. intros [= _ _ <-].
    by apply (scan_consumes c pattern ch r Hstar).
Qed.

(** [Match] does not depend on the rounds it is given, as long as they
    cover the pattern. *)
Lemma Match_loop_rounds (fuel1 fuel2 : nat) (pattern name : string) :
  len pattern <= fuel1 -> len pattern <= fuel2 ->
  Match_loop fuel1 pattern name = Match_loop fuel2 pattern name.
Proof.
  revert fuel2 pattern name; induction fuel1 as [|fuel1 IH];
    intros fuel2 pattern name H1 H2.
  - destruct pattern; [|simpl in H1; lia]. by destruct fuel2.
  - destruct pattern as [|c pattern]; [by destruct fuel2|].
    destruct fuel2 as [|fuel2]; [simpl in H2; lia|].
    simpl in H1, H2. rewrite !match_facts.Match_loop_step.
    destruct (scanChunk (String c pattern)) as [[star chunk] rest] eqn:Hscan.
    apply scanChunk_shorter in Hscan.
    destruct (star && is_empty chunk); [done|]. cbv zeta.
    assert (Hretry :
      (if star then
         match star_search chunk (is_empty rest) name with
         | StarAt t => Match_loop fuel1 rest t
         | StarBad => (false, Some ErrBadPattern)
         | StarNone => (false, None)
         end
       else (false, None))
      = (if star then
           match star_search chunk (is_empty rest) name with
           | StarAt t => Match_loop fuel2 rest t
           | StarBad => (false, Some ErrBadPattern)
           | StarNone => (false, None)
           end
         else (false, None))).
    { destruct star; [|done].
      destruct (star_search chunk (is_empty rest) name); try done.
      apply IH; lia. }
    destruct (matchChunk chunk name) as [| |t]; try done.
    destruct (is_empty t || negb (is_empty rest)); [|done].
    apply IH; lia.
Qed.

Lemma Match_rounds (fuel : nat) (pattern name : string) :
  len pattern <= fuel -> Match_loop fuel pattern name = Match pattern name.
Proof. intros Hfuel. unfold Match. by apply Match_loop_rounds. Qed.

End match_rounds.

(** C9: for a pattern with exactly one double star, split at it into a
    literal prefix and a literal suffix (neither holds one of the bytes [*],
    [?], [[] and the backslash, to which [filepath.Match] gives a meaning),
    a path matches exactly when it starts with the prefix and ends with the
    suffix; what lies between does not matter. *)
Theorem C9_one_double_star (pattern prefix suffix path : string) :
  strings.Count pattern "**" = 1 ->
  strings.Split pattern "**" = [prefix; suffix] ->
  literal prefix = true -> literal suffix = true ->
  (matchesPatterns path [pattern] = true <->
   strings.HasPrefix path prefix = true /\ strings.HasSuffix path suffix = true) /\
  (forall between, matchesPatterns (prefix +:+ between +:+ suffix) [pattern] = true).
Proof.
  intros _ Hsplit Hprefix Hsuffix.
  destruct (match_facts.Split_two _ _ _ _ Hsplit) as [Hpat Hcontains].
  assert (Hiff : forall name,
            matchesPatterns name [pattern] = true <->
            strings.HasPrefix name prefix = true /\
            strings.HasSuffix name suffix = true).
  { intros name. simpl. unfold matchesPattern. rewrite Hcontains, Hsplit.
    destruct (fst (filepath.Match pattern name)) eqn:Hm.
    - split; [intros _|done]. rewrite Hpat in Hm.
      by apply match_facts.Match_literal_sides.
    - destruct (strings.HasPrefix name prefix && strings.HasSuffix name suffix) eqn:E.
      + apply andb_true_iff in E. split; auto.
      + split; [done|]. intros E'. apply andb_true_iff in E'. congruence. }
  split; [apply Hiff|].
  intros between. apply Hiff. split.
  - apply string_facts.HasPrefix_app.
  - rewrite <- string_facts.app_assoc. apply string_facts.HasSuffix_app.
Qed.

(** [docs/**.md] has the literal sides [docs/] and [.md]. *)
Lemma C9_one_double_star_witness :
  (matchesPatterns "docs/api/intro.md" ["docs/**.md"] = true <->
   strings.HasPrefix "docs/api/intro.md" "docs/" = true /\
   strings.HasSuffix "docs/api/intro.md" ".md" = true) /\
  (forall between, matchesPatterns ("docs/" +:+ between +:+ ".md") ["docs/**.md"] = true).
Proof.
  apply (C9_one_double_star "docs/**.md" "docs/" ".md" "docs/api/intro.md").
  - vm_compute. reflexivity.
  - vm_compute. reflexivity.
  - reflexivity.
  - reflexivity.
Defined.

(** ** Classification *)

Section Classification.

Context `{UnicodeTables}.
Variable applyRecipes : Rewriter -> SourceFile -> SourceFile.

Lemma compare_files_None (r : Rewriter) (before after : SourceFile) :
  Content before = Content after -> compare_files r before after = None.
Proof.
  intros Hc. unfold compare_files. apply String.eqb_eq in Hc. by rewrite Hc.
Qed.

End Classification.

(** ** The first failure of a run *)

Section FirstFailure.

Context `{UnicodeTables}.
Variable applyRecipes : Rewriter -> SourceFile -> SourceFile.
Variable LoadEnvironment : Rewriter -> World -> Rewriter * option error.
Variable range_keys : list string -> list string.

Abbreviation loop := (ProcessFiles_loop applyRecipes).

Lemma categorize_FirstException (rc : ResultsContainer) (result : Result) :
  FirstException (categorize rc result) = FirstException rc.
Proof.
  unfold categorize.
  destruct (Before result), (After result); try done.
  destruct (negb (String.eqb _ _)); [done|].
  by destruct (negb (String.eqb _ _)).
Qed.

Lemma categorize_buckets (rc rc' : ResultsContainer) (result : Result) :
  buckets rc = buckets rc' ->
  buckets (categorize rc result) = buckets (categorize rc' result).
Proof.
  unfold buckets, categorize. intros [= Hg Hd Hm Hr].
  destruct (Before result), (After result); simpl; try congruence.
  destruct (negb (String.eqb _ _)); simpl; [congruence|].
  destruct (negb (String.eqb _ _)); simpl; congruence.
Qed.

Lemma loop_app (r : Rewriter) (a b : list string) (w : World)
    (rc : ResultsContainer) :
  loop r (a ++ b) w rc = loop r b w (loop r a w rc).
Proof.
  revert rc; induction a as [|x a IH]; intros rc; simpl; [done|].
  destruct (processFile applyRecipes r x w) as [[result|] [err|]]; apply IH.
Qed.

(** A failure that is kept stays. *)
Lemma loop_keeps (r : Rewriter) (l : list string) (w : World)
    (rc : ResultsContainer) (err : error) :
  FirstException rc = Some err -> FirstException (loop r l w rc) = Some err.
Proof.
  revert rc; induction l as [|x l IH]; intros rc Hrc; simpl; [done|].
  destruct (processFile applyRecipes r x w) as [[result|] [e|]]; apply IH;
    rewrite ?categorize_FirstException, ?Hrc; done.
Qed.

(** Files that are processed without failure record none. *)
Lemma loop_clean (r : Rewriter) (l : list string) (w : World)
    (rc : ResultsContainer) :
  (forall g, In g l -> snd (processFile applyRecipes r g w) = None) ->
  FirstException (loop r l w rc) = FirstException rc.
Proof.
  revert rc; induction l as [|x l IH]; intros rc Hl; simpl; [done|].
  pose proof (Hl x (or_introl eq_refl)) as Hx.
  destruct (processFile applyRecipes r x w) as [[result|] [e|]]; try done;
    rewrite IH by (intros; apply Hl; by right);
    by rewrite ?categorize_FirstException.
Qed.

(** What the buckets receive does not depend on the failure on record. *)
Lemma loop_buckets (r : Rewriter) (l : list string) (w : World)
    (rc rc' : ResultsContainer) :
  buckets rc = buckets rc' -> buckets (loop r l w rc) = buckets (loop r l w rc').
Proof.
  revert rc rc'; induction l as [|x l IH]; intros rc rc' Hrc; simpl; [done|].
  destruct (processFile applyRecipes r x w) as [[result|] [e|]]; apply IH;
    try done; try by apply categorize_buckets.
  - by destruct (FirstException rc), (FirstException rc').
  - by destruct (FirstException rc), (FirstException rc').
Qed.

(** A failing file leaves the buckets as they are. *)
Lemma loop_skip (r : Rewriter) (f : string) (l : list string) (w : World)
    (rc : ResultsContainer) (err : error) :
  snd (processFile applyRecipes r f w) = Some err ->
  buckets (loop r (f :: l) w rc) = buckets (loop r l w rc).
Proof.
  intros Hf. simpl.
  destruct (processFile applyRecipes r f w) as [[result|] [e|]]; try done;
    apply loop_buckets; by destruct (FirstException rc).
Qed.

(** C7: when [processFile] fails for a file and for none before it, the
    container keeps that failure as [FirstException]; the files after it
    are processed all the same, so the buckets are those of the run without
    the failing file; and [Execute], once it has its build root and the
    files, returns the failure kept. *)
Theorem C7_first_failure_is_kept_and_returned
    (r0 r : Rewriter) (w : World) (before_it after_it : list string)
    (f : string) (err : error) (env : Environment) :
  RewriterEnvironment r = Some env ->
  (forall g, In g before_it -> snd (processFile applyRecipes r g w) = None) ->
  snd (processFile applyRecipes r f w) = Some err ->
  exists results,
    ProcessFiles applyRecipes r (before_it ++ f :: after_it) w = (Some results, None) /\
    FirstException results = Some err /\
    buckets results = buckets (loop r (before_it ++ after_it) w (no_results r)) /\
    (Skip (RewriterConfig r0) = false ->
     LoadEnvironment r0 w = (r, None) ->
     snd (GetBuildRoot r w) = None ->
     FindSourceFiles r (fst (GetBuildRoot r w)) w = (before_it ++ f :: after_it, None) ->
     Execute applyRecipes LoadEnvironment range_keys r0 w = (w, Some err)).
Proof.
  intros Henv Hbefore Hf.
  exists (loop r (before_it ++ f :: after_it) w (no_results r)).
  assert (Hfirst : FirstException (loop r (before_it ++ f :: after_it) w (no_results r))
                   = Some err).
  { rewrite loop_app. simpl.
    destruct (processFile applyRecipes r f w) as [result [e|]] eqn:Ef; [|done].
    simpl in Hf. injection Hf as ->.
    destruct result; apply loop_keeps; by rewrite (loop_clean _ _ _ _ Hbefore). }
  split; [|split; [exact Hfirst|split]].
  - unfold ProcessFiles. by rewrite Henv.
  - rewrite !loop_app. by eapply loop_skip.
  - intros Hskip Hload Hroot Hfind. unfold Execute.
    rewrite Hskip, Hload.
    destruct (GetBuildRoot r w) as [buildRoot [e|]]; [done|].
    simpl in Hfind. rewrite Hfind.
    rewrite length_app; simpl.
    replace (length before_it + S (length after_it) =? 0) with false
      by (symmetry; apply Nat.eqb_neq; lia).
    unfold ProcessFiles; rewrite Henv; fold (no_results r).
    by rewrite Hfirst.
Qed.

End FirstFailure.

(** Of [a.go], [b.go] and [c.go] the second cannot be read: its failure is
    kept, and returned by [Execute]. *)
Lemma C7_first_failure_is_kept_and_returned_witness :
  exists results,
    ProcessFiles edit_in_place (fst (environment_loaded plain_rewriter unreadable_world))
      (["/w/a.go"] ++ "/w/b.go" :: ["/w/c.go"]) unreadable_world = (Some results, None) /\
    FirstException results
    = Some (Errorf "failed to read file /w/b.go" (PathError "open" "/w/b.go" EACCES)) /\
    length (RefactoredInPlace results) = 2 /\
    @Execute ascii_only edit_in_place environment_loaded remove_dups
      plain_rewriter unreadable_world
    = (unreadable_world,
       Some (Errorf "failed to read file /w/b.go" (PathError "open" "/w/b.go" EACCES))).
Proof.
  destruct (@C7_first_failure_is_kept_and_returned ascii_only edit_in_place
              environment_loaded remove_dups plain_rewriter
              (fst (environment_loaded plain_rewriter unreadable_world))
              unreadable_world ["/w/a.go"] ["/w/c.go"] "/w/b.go"
              (Errorf "failed to read file /w/b.go" (PathError "open" "/w/b.go" EACCES))
              {| ActiveRecipes := [] |})
    as (results & Hrun & Hfirst & Hbuckets & Hexec).
  - reflexivity.
  - intros g [<-|[]]. vm_compute. reflexivity.
  - vm_compute. reflexivity.
  - exists results. split; [exact Hrun|]. split; [exact Hfirst|]. split.
    + unfold buckets in Hbuckets.
      assert (E : RefactoredInPlace results
                  = RefactoredInPlace
                      (ProcessFiles_loop edit_in_place
                         (fst (environment_loaded plain_rewriter unreadable_world))
                         (["/w/a.go"] ++ ["/w/c.go"]) unreadable_world
                         (no_results (fst (environment_loaded plain_rewriter unreadable_world)))))
        by congruence.
      rewrite E. vm_compute. reflexivity.
    + apply Hexec; vm_compute; reflexivity.
Defined.

(** ** Sorting by depth *)

Module sort_facts.
Import GoString strings string_facts.

Lemma swap_middle (pre mid post : list string) (x y : string) (i j : nat) :
  length pre = i -> j = i + 1 + length mid ->
  swap_if_deeper i j (pre ++ x :: mid ++ y :: post)
  = if depth x <? depth y then pre ++ y :: mid ++ x :: post
    else pre ++ x :: mid ++ y :: post.
Proof.
  intros Hi Hj. unfold swap_if_deeper.
  rewrite (list_lookup_middle pre _ x i) by done.
  assert (Hlen : length (pre ++ x :: mid) = j).
  { rewrite length_app. simpl. lia. }
  replace (pre ++ x :: mid ++ y :: post) with ((pre ++ x :: mid) ++ y :: post)
    by (by rewrite <- List.app_assoc).
  rewrite (list_lookup_middle (pre ++ x :: mid) _ y j) by done.
  destruct (depth x <? depth y); [|done].
  rewrite insert_app_r_alt by lia.
  replace (j - length (pre ++ x :: mid)) with 0 by lia. simpl.
  rewrite <- List.app_assoc. simpl.
  rewrite insert_app_r_alt by lia.
  replace (i - length pre) with 0 by lia. done.
Qed.

Lemma select_deepest_length (x : string) (todo : list string) :
  length (snd (select_deepest x todo)) = length todo.
Proof.
  revert x; induction todo as [|y t IH]; intros x; simpl; [done|].
  destruct (depth x <? depth y).
  - specialize (IH y). destruct (select_deepest y t). simpl in *. by rewrite IH.
  - specialize (IH x). destruct (select_deepest x t). simpl in *. by rewrite IH.
Qed.

(** The inner loop, started at slot [i] with the slots up to [j] done. *)
Lemma sort_inner_select (pre done_ todo : list string) (x : string) (i j : nat) :
  length pre = i -> j = i + 1 + length done_ ->
  sort_inner (length todo) i j (pre ++ x :: done_ ++ todo)
  = pre ++ fst (select_deepest x todo) :: done_ ++ snd (select_deepest x todo).
Proof.
  revert x done_ j; induction todo as [|y t IH]; intros x done_ j Hi Hj; simpl.
  - done.
  - rewrite swap_middle by done.
    destruct (depth x <? depth y).
    + replace (pre ++ y :: done_ ++ x :: t) with (pre ++ y :: (done_ ++ [x]) ++ t)
        by (by rewrite <- List.app_assoc).
      rewrite IH; [|done|rewrite length_app; simpl; lia].
      destruct (select_deepest y t). simpl. by rewrite <- List.app_assoc.
    + replace (pre ++ x :: done_ ++ y :: t) with (pre ++ x :: (done_ ++ [y]) ++ t)
        by (by rewrite <- List.app_assoc).
      rewrite IH; [|done|rewrite length_app; simpl; lia].
      destruct (select_deepest x t). simpl. by rewrite <- List.app_assoc.
Qed.

Lemma sort_outer_selection (pre rest : list string) (n i : nat) :
  length pre = i -> length rest = n ->
  sort_outer n i (pre ++ rest) = pre ++ selection_sort n rest.
Proof.
  revert pre rest i; induction n as [|n IH]; intros pre rest i Hi Hn; simpl.
  - by destruct rest.
  - destruct rest as [|x t]; [done|]. simpl in Hn.
    replace (length (pre ++ x :: t) - (i + 1)) with (length t)
      by (rewrite length_app; simpl; lia).
    pose proof (sort_inner_select pre [] t x i (i + 1)) as Hinner.
    simpl in Hinner. rewrite Hinner by lia. clear Hinner.
    pose proof (select_deepest_length x t) as Hlen.
    destruct (select_deepest x t) as [x' t']. simpl in *.
    replace (pre ++ x' :: t') with ((pre ++ [x']) ++ t')
      by (by rewrite <- List.app_assoc).
    rewrite IH; [|rewrite length_app; simpl; lia|lia].
    by rewrite <- List.app_assoc.
Qed.

Lemma sort_by_depth_selection (l : list string) :
  sort_by_depth l = selection_sort (length l) l.
Proof. unfold sort_by_depth. by apply (sort_outer_selection [] l). Qed.

Lemma select_deepest_perm (x : string) (todo : list string) :
  Permutation (fst (select_deepest x todo) :: snd (select_deepest x todo)) (x :: todo).
Proof.
  revert x; induction todo as [|y t IH]; intros x; simpl; [done|].
  destruct (depth x <? depth y).
  - specialize (IH y). destruct (select_deepest y t) as [x' t']. simpl in *.
    etransitivity; [apply perm_swap|]. by constructor.
  - specialize (IH x). destruct (select_deepest x t) as [x' t']. simpl in *.
    etransitivity; [apply perm_swap|].
    etransitivity; [apply perm_skip, IH|]. apply perm_swap.
Qed.

Lemma select_deepest_max (x : string) (todo : list string) :
  depth x <= depth (fst (select_deepest x todo)) /\
  Forall (fun z => depth z <= depth (fst (select_deepest x todo)))
         (snd (select_deepest x todo)).
Proof.
  revert x; induction todo as [|y t IH]; intros x; simpl; [by split|].
  destruct (depth x <? depth y) eqn:E.
  - apply Nat.ltb_lt in E. destruct (IH y) as [Hy Hall].
    destruct (select_deepest y t) as [x' t']. simpl in *.
    split; [lia|]. constructor; [lia | done].
  - apply Nat.ltb_ge in E. destruct (IH x) as [Hx Hall].
    destruct (select_deepest x t) as [x' t']. simpl in *.
    split; [done|]. constructor; [lia | done].
Qed.

Lemma selection_sort_perm (n : nat) (l : list string) :
  Permutation (selection_sort n l) l.
Proof.
  revert l; induction n as [|n IH]; intros l; simpl; [done|].
  destruct l as [|x t]; [done|].
  pose proof (select_deepest_perm x t) as Hp.
  destruct (select_deepest x t) as [x' t']. simpl in *.
  by rewrite IH.
Qed.

Lemma selection_sort_sorted (n : nat) (l : list string) :
  length l = n ->
  StronglySorted (fun a b => depth b <= depth a) (selection_sort n l).
Proof.
  revert l; induction n as [|n IH]; intros l Hn; simpl.
  - destruct l; [constructor | done].
  - destruct l as [|x t]; [done|]. simpl in Hn.
    pose proof (select_deepest_length x t) as Hlen.
    destruct (select_deepest_max x t) as [_ Hmax].
    destruct (select_deepest x t) as [x' t']. simpl in *.
    constructor; [apply IH; lia|].
    apply Forall_forall. intros z Hz.
    rewrite Forall_forall in Hmax. apply Hmax.
    apply list_elem_of_In. apply list_elem_of_In in Hz.
    by rewrite <- (selection_sort_perm n t').
Qed.

(** The nested loops sort: the result holds the same directories, no
    directory before a deeper one. *)
Lemma sort_by_depth_perm (l : list string) : Permutation (sort_by_depth l) l.
Proof. rewrite sort_by_depth_selection. apply selection_sort_perm. Qed.

Lemma sort_by_depth_sorted (l : list string) :
  StronglySorted (fun a b => depth b <= depth a) (sort_by_depth l).
Proof. rewrite sort_by_depth_selection. by apply selection_sort_sorted. Qed.

(** [Split] cuts at every separator [Count] counts. *)
Lemma genSplit_length (fuel : nat) (s sep : string) :
  length (genSplit (Count_loop fuel s sep) s sep) = S (Count_loop fuel s sep).
Proof.
  revert s; induction fuel as [|fuel IH]; intros s; simpl; [done|].
  destruct (Index s sep) as [i|] eqn:Hi; simpl; [|done].
  rewrite Hi. simpl. by rewrite IH.
Qed.

Lemma segments_depth (dir : string) : segments dir = S (depth dir).
Proof. unfold segments, depth, Split, Count. apply genSplit_length. Qed.

Lemma sort_by_depth_deeper_first (l : list string) :
  StronglySorted deeper_first (sort_by_depth l).
Proof.
  pose proof (sort_by_depth_sorted l) as Hs.
  induction Hs as [|a l' Hs IH Hall]; constructor; [done|].
  eapply Forall_impl; [exact Hall|]. intros b Hb. unfold deeper_first.
  rewrite !segments_depth. simpl in Hb. lia.
Qed.

End sort_facts.

(** ** The file tree *)

Module os_facts.
Import GoString strings string_facts.

Lemma resolve_set_tree (w : World) (t : gmap string node) (name : string) :
  os.resolve (os.set_tree w t) name = os.resolve w name.
Proof. reflexivity. Qed.

Lemma node_at_tree (w : World) (key : string) :
  key <> "/" -> os.node_at w key = tree w !! key.
Proof.
  intros Hkey. unfold os.node_at. apply String.eqb_neq in Hkey. by rewrite Hkey.
Qed.

Lemma search_errno (w : World) (chain : list string) (e : errno) :
  os.search w chain = Some e -> e = ENOENT \/ e = ENOTDIR.
Proof.
  induction chain as [|d chain IH]; simpl; [done|].
  destruct (os.node_at w d) as [[content|]|]; auto; intros [= <-]; auto.
Qed.

Lemma merge_sort_length (l : list string) :
  length (merge_sort os.string_le l) = length l.
Proof. apply Permutation_length, merge_sort_Permutation. Qed.

(** [isEmptyDir] says whether the directory has zero entries. *)
Lemma isEmptyDir_spec (w : World) (dir : string) :
  fault w SysReadDir (os.resolve w dir) = None ->
  isEmptyDir dir w = true <-> has_no_entries w dir.
Proof.
  intros Hfault. unfold isEmptyDir, os.ReadDir, os.reach, has_no_entries.
  rewrite Hfault.
  destruct (os.parent_error w (os.resolve w dir)) as [e|].
  { split; [done | by intros (_ & ? & _)]. }
  destruct (os.node_at w (os.resolve w dir)) as [[content|]|].
  - split; [done | by intros (? & _)].
  - rewrite merge_sort_length, length_fmap, Nat.eqb_eq. split.
    + intros Hlen. repeat split. by apply nil_length_inv.
    + by intros (_ & _ & ->).
  - split; [done | by intros (? & _)].
Qed.

(** [os.Remove] takes a directory with zero entries out of the tree. *)
Lemma Remove_empty_directory (w : World) (dir : string) :
  has_no_entries w dir ->
  fault w SysRemove (os.resolve w dir) = None ->
  os.resolve w dir <> "/" ->
  os.Remove dir w = (without w dir, None).
Proof.
  intros (Hnode & Hparent & Hchildren) Hfault Hroot.
  unfold os.Remove, os.reach, without. rewrite Hfault, Hparent.
  rewrite node_at_tree in Hnode by done.
  apply String.eqb_neq in Hroot. by rewrite Hroot, Hnode, Hchildren.
Qed.

(** A failing [os.Remove] leaves the tree as it is. *)
Lemma Remove_failed (name : string) (w w' : World) (err : error) :
  os.Remove name w = (w', Some err) -> w' = w.
Proof.
  unfold os.Remove, os.reach.
  destruct (fault w SysRemove (os.resolve w name)); [by intros [= <-]|].
  destruct (os.parent_error w (os.resolve w name)); [by intros [= <-]|].
  destruct (String.eqb (os.resolve w name) "/"); [by intros [= <-]|].
  destruct (tree w !! os.resolve w name) as [[content|]|]; try done;
    try by intros [= <-].
  destruct (os.children w (os.resolve w name)); [done | by intros [= <-]].
Qed.

Lemma undisturbed_without (w : World) (gone dir : string) :
  undisturbed (without w gone) dir <-> undisturbed w dir.
Proof. reflexivity. Qed.

(** The loop of the pass does what the specification words. *)
Lemma remove_empty_pruned (l : list string) (w : World) (acc : list string) :
  (forall dir, In dir l -> undisturbed w dir) ->
  exists w' removed,
    remove_empty l w acc = (w', acc ++ removed) /\ pruned l w w' removed.
Proof.
  revert w acc; induction l as [|dir rest IH]; intros w acc Hcalm; simpl.
  - exists w, []. split; [by rewrite app_nil_r | constructor].
  - destruct (Hcalm dir (or_introl eq_refl)) as (Hread & Hremove & Hroot).
    destruct (isEmptyDir dir w) eqn:Hempty.
    + apply isEmptyDir_spec in Hempty; [|done].
      rewrite Remove_empty_directory by done.
      destruct (IH (without w dir) (acc ++ [dir])) as (w' & removed & Hrun & Hspec).
      { intros d Hd. apply undisturbed_without. apply Hcalm. by right. }
      exists w', (dir :: removed). split.
      * by rewrite Hrun, <- List.app_assoc.
      * by constructor.
    + destruct (IH w acc) as (w' & removed & Hrun & Hspec).
      { intros d Hd. apply Hcalm. by right. }
      exists w', removed. split; [done|]. apply pruned_kept; [|done].
      intros Hno. apply isEmptyDir_spec in Hno; [|done]. congruence.
Qed.

End os_facts.

(** ** The pruning pass *)

Lemma candidateDirs_spec (buildRoot : string) (results : ResultsContainer)
    (dir : string) :
  In dir (candidateDirs buildRoot results) <->
  exists result before,
    (In result (Deleted results) \/ In result (Moved results)) /\
    Before result = Some before /\
    dir = filepath.Dir (filepath.Join [buildRoot; Path before]).
Proof.
  unfold candidateDirs. rewrite in_app_iff, !in_flat_map. split.
  - intros [(result & Hin & Hdir)|(result & Hin & Hdir)];
      unfold candidate_of in Hdir;
      destruct (Before result) as [before|] eqn:Hb; try done;
      destruct Hdir as [<-|[]]; exists result, before; auto.
  - intros (result & before & [Hin|Hin] & Hb & ->); [left|right];
      exists result; (split; [done|]); unfold candidate_of; rewrite Hb; by left.
Qed.

(** C2: the pruning pass.  For a [range] that yields every key once, and a
    system that lets the pass look into and remove its candidates, the order
    in which the pass evaluates directories holds exactly the parent
    directories of the before-paths of [Deleted] and [Moved], each once, no
    directory before one with more segments; and the pass runs as the
    specification words it: at its turn a candidate is removed if and only if
    it has zero entries in the tree as it is then.  On the tree with
    [a/b/c/file1.txt] and [a/b/c/file2.txt] deleted, [a/b/c] is removed and
    [a/b] and [a] stay. *)
Theorem C2_pruning_pass (range_keys : list string -> list string)
    (buildRoot : string) (results : ResultsContainer) (w : World) :
  ranges_over_keys range_keys ->
  (forall dir, In dir (candidateDirs buildRoot results) -> undisturbed w dir) ->
  let order := sort_by_depth (range_keys (candidateDirs buildRoot results)) in
  (forall dir, In dir order <->
     exists result before,
       (In result (Deleted results) \/ In result (Moved results)) /\
       Before result = Some before /\
       dir = filepath.Dir (filepath.Join [buildRoot; Path before])) /\
  NoDup order /\
  StronglySorted deeper_first order /\
  (forall dir, segments dir = S (depth dir)) /\
  pruned order w (fst (prune range_keys buildRoot results w))
                 (snd (prune range_keys buildRoot results w)) /\
  (let '(w', err) := applyChanges remove_dups two_deletions nested_world in
   err = None /\
   tree w' !! "/w/a/b/c" = None /\
   tree w' !! "/w/a/b" = Some Directory /\
   tree w' !! "/w/a" = Some Directory /\
   snd (prune remove_dups "/w" two_deletions
          (fst (apply_buckets two_deletions nested_world))) = ["/w/a/b/c"]).
Proof.
  intros Hrange Hcalm order.
  destruct (Hrange (candidateDirs buildRoot results)) as [Hnodup Hkeys].
  assert (Hperm : Permutation order (range_keys (candidateDirs buildRoot results)))
    by apply sort_facts.sort_by_depth_perm.
  assert (Hin : forall dir, In dir order <-> In dir (candidateDirs buildRoot results)).
  { intros dir. rewrite <- Hkeys. split; apply Permutation_in; [done | by symmetry]. }
  split; [|split; [|split; [|split; [|split]]]].
  - intros dir. rewrite Hin. apply candidateDirs_spec.
  - apply NoDup_ListNoDup. eapply Permutation_NoDup; [symmetry; exact Hperm|].
    by apply NoDup_ListNoDup.
  - apply sort_facts.sort_by_depth_deeper_first.
  - apply sort_facts.segments_depth.
  - unfold prune. fold order.
    destruct (os_facts.remove_empty_pruned order w []) as (w' & removed & Hrun & Hspec).
    { intros dir Hdir. apply Hcalm. by apply Hin. }
    by rewrite Hrun.
  - vm_compute. repeat split; reflexivity.
Qed.

Lemma remove_dups_ranges_over_keys : ranges_over_keys remove_dups.
Proof.
  intros l. split; [apply NoDup_remove_dups|].
  intros x. rewrite <- !list_elem_of_In. apply elem_of_remove_dups.
Qed.

(** The pass on the tree of the example, after the two deletions. *)
Lemma C2_pruning_pass_witness :
  pruned (sort_by_depth (remove_dups (candidateDirs "/w" two_deletions)))
    after_two_deletions
    (fst (prune remove_dups "/w" two_deletions after_two_deletions))
    (snd (prune remove_dups "/w" two_deletions after_two_deletions)).
Proof.
  assert (Hcalm : forall dir, In dir (candidateDirs "/w" two_deletions) ->
                              undisturbed after_two_deletions dir).
  { intros dir Hdir. vm_compute in Hdir.
    destruct Hdir as [<-|[<-|[]]]; vm_compute; repeat split; discriminate. }
  pose proof (C2_pruning_pass remove_dups "/w" two_deletions after_two_deletions
                remove_dups_ranges_over_keys Hcalm) as Hpass.
  cbv zeta in Hpass. destruct Hpass as (_ & _ & _ & _ & Hpruned & _).
  exact Hpruned.
Defined.

(** ** Failures while applying *)

Lemma for_each_app {A : Type} (body : A -> World -> World * option error)
    (a b : list A) (w : World) :
  for_each body (a ++ b) w
  = match for_each body a w with
    | (w', None) => for_each body b w'
    | (w', Some err) => (w', Some err)
    end.
Proof.
  revert w; induction a as [|x a IH]; intros w; simpl; [done|].
  destruct (body x w) as [w' [err|]]; [done | apply IH].
Qed.

(** C6: the cleanup never reports an error, whatever fails in it, and the
    error [applyChanges] returns is the error of its four loops, so the
    pruning never makes the apply fail.  Inside the pass a directory that
    cannot be read counts as not empty, and a removal that fails leaves the
    tree as it is; either way the pass goes on with the next candidate.  On a
    system that refuses to remove the emptied directory [a/b/c], the apply
    succeeds and the directory stays. *)
Theorem C6_pruning_failures_are_tolerated :
  (forall range_keys buildRoot results w,
     snd (cleanupEmptyDirectories range_keys buildRoot results w) = None) /\
  (forall range_keys results w,
     snd (applyChanges range_keys results w) = snd (apply_buckets results w)) /\
  (forall dir rest w acc err,
     os.ReadDir dir w = inr err ->
     remove_empty (dir :: rest) w acc = remove_empty rest w acc) /\
  (forall dir rest w acc err,
     snd (os.Remove dir w) = Some err ->
     remove_empty (dir :: rest) w acc = remove_empty rest w acc) /\
  (let '(w', err) := applyChanges remove_dups two_deletions locked_world in
   err = None /\
   tree w' !! "/w/a/b/c" = Some Directory /\
   isEmptyDir "/w/a/b/c" w' = true /\
   snd (os.Remove "/w/a/b/c" w') = Some (PathError "remove" "/w/a/b/c" EACCES)).
Proof.
  split; [|split; [|split; [|split]]].
  - reflexivity.
  - intros range_keys results w. unfold applyChanges.
    by destruct (apply_buckets results w) as [w' [err|]].
  - intros dir rest w acc err Hread. simpl. unfold isEmptyDir. by rewrite Hread.
  - intros dir rest w acc err Hremove. simpl.
    destruct (isEmptyDir dir w); [|done].
    destruct (os.Remove dir w) as [w' [e|]] eqn:Hrm; [|done].
    by apply os_facts.Remove_failed in Hrm as ->.
  - vm_compute. repeat split; reflexivity.
Qed.

(** The pass on the locked tree: the removal of [a/b/c] fails and the pass
    ends with nothing removed. *)
Lemma C6_pruning_failures_are_tolerated_witness :
  remove_empty ["/w/a/b/c"] (fst (apply_buckets two_deletions locked_world)) []
  = (fst (apply_buckets two_deletions locked_world), []).
Proof.
  destruct C6_pruning_failures_are_tolerated as (_ & _ & _ & Hgoes_on & _).
  rewrite (Hgoes_on "/w/a/b/c" [] (fst (apply_buckets two_deletions locked_world)) []
             (PathError "remove" "/w/a/b/c" EACCES)).
  - reflexivity.
  - vm_compute. reflexivity.
Defined.

Module delete_facts.

(** A path that is not in the tree, below directories only: not found. *)
Lemma Remove_absent (w : World) (name : string) :
  os.node_at w (os.resolve w name) = None ->
  fault w SysRemove (os.resolve w name) = None ->
  os.parent_error w (os.resolve w name) <> Some ENOTDIR ->
  os.Remove name w = (w, Some (PathError "remove" name ENOENT)).
Proof.
  intros Hnode Hfault Hparent. unfold os.Remove, os.reach. rewrite Hfault.
  destruct (os.parent_error w (os.resolve w name)) as [e|] eqn:He.
  - unfold os.parent_error in He.
    destruct (os_facts.search_errno _ _ _ He) as [->| ->]; [done|].
    by destruct Hparent.
  - unfold os.node_at in Hnode.
    destruct (String.eqb (os.resolve w name) "/"); [done|]. by rewrite Hnode.
Qed.

Lemma apply_deleted_not_found (buildRoot : string) (result : Result)
    (before : SourceFile) (w w' : World) (err : error) :
  Before result = Some before ->
  os.Remove (filepath.Join [buildRoot; Path before]) w = (w', Some err) ->
  os.IsNotExist err = true ->
  apply_deleted buildRoot result w = (w', None).
Proof.
  intros Hb Hrm Hne. unfold apply_deleted. by rewrite Hb, Hrm, Hne.
Qed.

Lemma apply_deleted_failure (buildRoot : string) (result : Result)
    (before : SourceFile) (w w' : World) (err : error) :
  Before result = Some before ->
  os.Remove (filepath.Join [buildRoot; Path before]) w = (w', Some err) ->
  os.IsNotExist err = false ->
  apply_deleted buildRoot result w
  = (w', Some (Errorf ("failed to delete file " +:+
                       filepath.Join [buildRoot; Path before]) err)).
Proof.
  intros Hb Hrm Hne. unfold apply_deleted. by rewrite Hb, Hrm, Hne.
Qed.

End delete_facts.

(** C5: deleting a file that is not on disk is no error, and any other
    failure of the delete ends the apply.  For a [Deleted] change with a
    before-path: when the path is not in the tree (and lies below directories
    only, and the system injects no fault), the change is applied without
    error and without effect, and an apply of this one change succeeds; more
    generally a not-found error of [os.Remove] is dropped.  When [os.Remove]
    fails with any other error, [applyChanges] returns that error, wrapped,
    in the state of that moment: no later change is applied and no directory
    is pruned. *)
Theorem C5_delete_tolerates_only_not_found
    (range_keys : list string -> list string) (buildRoot : string)
    (result : Result) (before : SourceFile) (w : World) :
  Before result = Some before ->
  let filePath := filepath.Join [buildRoot; Path before] in
  (os.node_at w (os.resolve w filePath) = None ->
   fault w SysRemove (os.resolve w filePath) = None ->
   os.parent_error w (os.resolve w filePath) <> Some ENOTDIR ->
   apply_deleted buildRoot result w = (w, None) /\
   snd (applyChanges range_keys (one_deletion buildRoot result) w) = None) /\
  (forall w' err,
     os.Remove filePath w = (w', Some err) -> os.IsNotExist err = true ->
     apply_deleted buildRoot result w = (w', None)) /\
  (forall results w0 w1 before_it after_it w' err,
     ProjectRoot results = buildRoot ->
     for_each (apply_generated buildRoot) (Generated results) w0 = (w1, None) ->
     Deleted results = before_it ++ result :: after_it ->
     for_each (apply_deleted buildRoot) before_it w1 = (w, None) ->
     os.Remove filePath w = (w', Some err) -> os.IsNotExist err = false ->
     applyChanges range_keys results w0
     = (w', Some (Errorf ("failed to delete file " +:+ filePath) err))).
Proof.
  intros Hb filePath. split; [|split].
  - intros Hnode Hfault Hparent.
    pose proof (delete_facts.Remove_absent w filePath Hnode Hfault Hparent) as Hrm.
    assert (Hone : apply_deleted buildRoot result w = (w, None))
      by (by eapply delete_facts.apply_deleted_not_found).
    split; [exact Hone|].
    unfold applyChanges, apply_buckets, one_deletion. simpl. by rewrite Hone.
  - intros w' err Hrm Hne. by eapply delete_facts.apply_deleted_not_found.
  - intros results w0 w1 before_it after_it w' err Hroot Hgen Hdel Hpre Hrm Hne.
    unfold applyChanges, apply_buckets. rewrite Hroot, Hgen, Hdel.
    rewrite for_each_app, Hpre. simpl.
    by rewrite (delete_facts.apply_deleted_failure _ _ _ _ _ _ Hb Hrm Hne).
Qed.

(** The system refuses to delete [x.txt]: the apply ends there, and [y.txt]
    is still on disk. *)
Lemma C5_delete_tolerates_only_not_found_witness :
  applyChanges remove_dups delete_x_then_y protected_world
  = (protected_world,
     Some (Errorf "failed to delete file /w/x.txt"
             (PathError "remove" "/w/x.txt" EACCES))) /\
  apply_deleted "/w" (change (Some (source_file "gone.txt" "")) None) protected_world
  = (protected_world, None).
Proof.
  split.
  - apply (proj2 (proj2 (C5_delete_tolerates_only_not_found remove_dups "/w"
             (change (Some (source_file "x.txt" "x")) None)
             (source_file "x.txt" "x") protected_world eq_refl))
             delete_x_then_y protected_world protected_world []
             [change (Some (source_file "y.txt" "y")) None]).
    + reflexivity.
    + reflexivity.
    + reflexivity.
    + reflexivity.
    + vm_compute. reflexivity.
    + reflexivity.
  - apply (proj1 (C5_delete_tolerates_only_not_found remove_dups "/w"
             (change (Some (source_file "gone.txt" "")) None)
             (source_file "gone.txt" "") protected_world eq_refl)).
    + vm_compute. reflexivity.
    + vm_compute. reflexivity.
    + vm_compute. discriminate.
Defined.

(** ** Moves *)

Module move_facts.

Lemma resolve_cwd (w w' : World) (name : string) :
  cwd w' = cwd w -> os.resolve w' name = os.resolve w name.
Proof. intros Hcwd. unfold os.resolve. by rewrite Hcwd. Qed.

Lemma mkdir_chain_cwd (chain : list string) (w w' : World) (err : option error) :
  os.mkdir_chain chain w = (w', err) -> cwd w' = cwd w.
Proof.
  revert w; induction chain as [|d chain IH]; intros w; simpl.
  - by intros [= <- _].
  - destruct (os.node_at w d) as [[content|]|].
    + by intros [= <- _].
    + apply IH.
    + destruct (fault w SysMkdir d); [by intros [= <- _]|].
      intros Hrec. by apply IH in Hrec.
Qed.

Lemma MkdirAll_cwd (path : string) (w w' : World) (err : option error) :
  os.MkdirAll path w = (w', err) -> cwd w' = cwd w.
Proof. apply mkdir_chain_cwd. Qed.

Lemma WriteFile_done (name data : string) (w w' : World) :
  os.WriteFile name data w = (w', None) ->
  w' = os.set_tree w (<[os.resolve w name := File data]> (tree w)).
Proof.
  unfold os.WriteFile, os.reach.
  destruct (fault w SysWriteFile (os.resolve w name)); [done|].
  destruct (os.parent_error w (os.resolve w name)); [done|].
  destruct (os.node_at w (os.resolve w name)) as [[content|]|]; try done;
    by intros [= <-].
Qed.

Lemma Remove_done (name : string) (w w' : World) :
  os.Remove name w = (w', None) ->
  w' = os.set_tree w (delete (os.resolve w name) (tree w)).
Proof.
  unfold os.Remove, os.reach.
  destruct (fault w SysRemove (os.resolve w name)); [done|].
  destruct (os.parent_error w (os.resolve w name)); [done|].
  destruct (String.eqb (os.resolve w name) "/"); [done|].
  destruct (tree w !! os.resolve w name) as [[content|]|]; try done.
  - by intros [= <-].
  - destruct (os.children w (os.resolve w name)); [|done]. by intros [= <-].
Qed.

Lemma Rename_failed (oldpath newpath : string) (w w' : World) (err : error) :
  os.Rename oldpath newpath w = (w', Some err) -> w' = w.
Proof.
  unfold os.Rename.
  destruct (fault w SysRename (os.resolve w oldpath)); [by intros [= <-]|].
  destruct (os.parent_error w (os.resolve w oldpath)); [by intros [= <-]|].
  destruct (os.node_at w (os.resolve w oldpath)) as [[content|]|];
    [| |by intros [= <-]].
  all: destruct (os.parent_error w (os.resolve w newpath)); [by intros [= <-]|].
  all: destruct (os.node_at w (os.resolve w newpath)) as [[content'|]|];
    try by intros [= <-].
  all: destruct (String.eqb (os.resolve w oldpath) (os.resolve w newpath));
    try done; try by intros [= <-].
  all: destruct (String.eqb (os.resolve w oldpath) "/"); try by intros [= <-].
  all: destruct (strings.HasPrefix _ _); try done; by intros [= <-].
Qed.

(** A successful [rename] of a file carries the bytes on disk along. *)
Lemma Rename_file (oldpath newpath content : string) (w w' : World) :
  os.node_at w (os.resolve w oldpath) = Some (File content) ->
  os.resolve w oldpath <> os.resolve w newpath ->
  os.Rename oldpath newpath w = (w', None) ->
  w' = os.set_tree w (<[os.resolve w newpath := File content]>
                        (delete (os.resolve w oldpath) (tree w))).
Proof.
  intros Hold Hne. unfold os.Rename. rewrite Hold.
  apply String.eqb_neq in Hne. rewrite Hne.
  destruct (fault w SysRename (os.resolve w oldpath)); [done|].
  destruct (os.parent_error w (os.resolve w oldpath)); [done|].
  destruct (os.parent_error w (os.resolve w newpath)); [done|].
  destruct (os.node_at w (os.resolve w newpath)) as [[content'|]|]; try done;
    by intros [= <-].
Qed.

Lemma writeFile_done (buildRoot : string) (sourceFile : SourceFile) (w w' : World) :
  writeFile buildRoot sourceFile w = (w', None) ->
  cwd w' = cwd w /\
  tree w' !! os.resolve w (filepath.Join [buildRoot; Path sourceFile])
  = Some (File (Content sourceFile)).
Proof.
  unfold writeFile.
  destruct (os.MkdirAll _ w) as [w1 [err|]] eqn:Hmk; [done|].
  apply MkdirAll_cwd in Hmk.
  destruct (os.WriteFile _ _ w1) as [w2 [err|]] eqn:Hwr; [done|].
  intros [= <-]. apply WriteFile_done in Hwr. subst w2. simpl.
  split; [done|].
  rewrite (resolve_cwd w w1) by done. apply lookup_insert_eq.
Qed.

End move_facts.

(** C1, as the code has it.  When [os.Rename] succeeds, [applyChanges] writes
    nothing: the after-path receives the bytes that were on disk at the
    before-path, whatever the after-content is.  Only the fallback, taken
    when [os.Rename] fails, writes the after-content.  For the move of
    [a/old.txt] (text "old text") to [b/new.txt] with after-content "new
    text", the apply leaves "old text" at [b/new.txt]; with a failing rename
    it leaves "new text" there.  In both runs [a/old.txt] is gone. *)
Theorem C1_rename_keeps_the_bytes_on_disk :
  (let '(w', err) := applyChanges remove_dups one_move move_world in
   err = None /\
   tree w' !! "/w/b/new.txt" = Some (File "old text") /\
   tree w' !! "/w/a/old.txt" = None) /\
  (let '(w', err) := applyChanges remove_dups one_move other_device_world in
   err = None /\
   tree w' !! "/w/b/new.txt" = Some (File "new text") /\
   tree w' !! "/w/a/old.txt" = None) /\
  (forall buildRoot before after w w1 w2 content,
     let oldPath := filepath.Join [buildRoot; Path before] in
     let newPath := filepath.Join [buildRoot; Path after] in
     os.MkdirAll (filepath.Dir newPath) w = (w1, None) ->
     os.node_at w1 (os.resolve w oldPath) = Some (File content) ->
     os.resolve w oldPath <> os.resolve w newPath ->
     os.Rename oldPath newPath w1 = (w2, None) ->
     apply_moved buildRoot (change (Some before) (Some after)) w = (w2, None) /\
     tree w2 !! os.resolve w newPath = Some (File content) /\
     tree w2 !! os.resolve w oldPath = None) /\
  (forall buildRoot before after w w1 w2 w3 w4 err,
     let oldPath := filepath.Join [buildRoot; Path before] in
     let newPath := filepath.Join [buildRoot; Path after] in
     os.MkdirAll (filepath.Dir newPath) w = (w1, None) ->
     os.Rename oldPath newPath w1 = (w2, Some err) ->
     writeFile buildRoot after w2 = (w3, None) ->
     os.Remove oldPath w3 = (w4, None) ->
     os.resolve w oldPath <> os.resolve w newPath ->
     apply_moved buildRoot (change (Some before) (Some after)) w = (w4, None) /\
     tree w4 !! os.resolve w newPath = Some (File (Content after)) /\
     tree w4 !! os.resolve w oldPath = None).
Proof.
  split; [vm_compute; repeat split; reflexivity|].
  split; [vm_compute; repeat split; reflexivity|].
  split.
  - intros buildRoot before after w w1 w2 content oldPath newPath Hmk Hold Hne Hrn.
    subst oldPath newPath.
    pose proof (move_facts.MkdirAll_cwd _ _ _ _ Hmk) as Hcwd.
    rewrite <- !(move_facts.resolve_cwd w w1) in * by done.
    pose proof (move_facts.Rename_file _ _ _ _ _ Hold Hne Hrn) as ->.
    split; [|split].
    + unfold apply_moved, change. cbn [Before After]. cbv zeta.
      by rewrite Hmk, Hrn.
    + simpl. apply lookup_insert_eq.
    + simpl. rewrite lookup_insert_ne by done. apply lookup_delete_eq.
  - intros buildRoot before after w w1 w2 w3 w4 err oldPath newPath
      Hmk Hrn Hwr Hrm Hne.
    subst oldPath newPath.
    pose proof (move_facts.MkdirAll_cwd _ _ _ _ Hmk) as Hcwd.
    pose proof (move_facts.Rename_failed _ _ _ _ _ Hrn) as ->.
    destruct (move_facts.writeFile_done _ _ _ _ Hwr) as [Hcwd3 Hnew].
    pose proof (move_facts.Remove_done _ _ _ Hrm) as ->.
    rewrite (move_facts.resolve_cwd w w1) in Hnew by done.
    assert (Hres : forall name, os.resolve w3 name = os.resolve w name).
    { intros name. apply move_facts.resolve_cwd. congruence. }
    split; [|split].
    + unfold apply_moved, change. cbn [Before After]. cbv zeta.
      by rewrite Hmk, Hrn, Hwr, Hrm.
    + simpl. rewrite Hres. by rewrite lookup_delete_ne.
    + simpl. rewrite Hres. apply lookup_delete_eq.
Qed.

(** The two runs of the example, step by step. *)
Lemma C1_rename_keeps_the_bytes_on_disk_witness :
  (exists w2,
     apply_moved "/w" (change (Some (source_file "a/old.txt" "old text"))
                              (Some (source_file "b/new.txt" "new text")))
       move_world = (w2, None) /\
     tree w2 !! os.resolve move_world "/w/b/new.txt" = Some (File "old text")) /\
  (exists w4,
     apply_moved "/w" (change (Some (source_file "a/old.txt" "old text"))
                              (Some (source_file "b/new.txt" "new text")))
       other_device_world = (w4, None) /\
     tree w4 !! os.resolve other_device_world "/w/b/new.txt"
     = Some (File "new text")).
Proof.
  destruct C1_rename_keeps_the_bytes_on_disk as (_ & _ & Hrename & Hfallback).
  split.
  - pose (w1 := fst (os.MkdirAll "/w/b" move_world)).
    pose (w2 := fst (os.Rename "/w/a/old.txt" "/w/b/new.txt" w1)).
    exists w2.
    destruct (Hrename "/w" (source_file "a/old.txt" "old text")
                (source_file "b/new.txt" "new text") move_world w1 w2 "old text")
      as (Happly & Hnew & _).
    + vm_compute. reflexivity.
    + vm_compute. reflexivity.
    + vm_compute. discriminate.
    + vm_compute. reflexivity.
    + split; [exact Happly|]. vm_compute. reflexivity.
  - pose (w1 := fst (os.MkdirAll "/w/b" other_device_world)).
    pose (w3 := fst (writeFile "/w" (source_file "b/new.txt" "new text") w1)).
    pose (w4 := fst (os.Remove "/w/a/old.txt" w3)).
    exists w4.
    destruct (Hfallback "/w" (source_file "a/old.txt" "old text")
                (source_file "b/new.txt" "new text") other_device_world
                w1 w1 w3 w4 (LinkError "rename" "/w/a/old.txt" "/w/b/new.txt" EXDEV))
      as (Happly & Hnew & _).
    + vm_compute. reflexivity.
    + vm_compute. reflexivity.
    + vm_compute. reflexivity.
    + vm_compute. reflexivity.
    + vm_compute. discriminate.
    + split; [exact Happly|]. vm_compute. reflexivity.
Defined.

(** ** Discovery *)

Lemma Walk_loop_app {St : Type} (fn : visit -> St -> St * option error)
    (a b : list visit) (st : St) :
  walker.Walk_loop fn (a ++ b) st
  = match walker.Walk_loop fn a st with
    | (st', None) => walker.Walk_loop fn b st'
    | (st', Some err) => (st', Some err)
    end.
Proof.
  revert st; induction a as [|v a IH]; intros st; simpl; [done|].
  destruct (fn v st) as [st' [err|]]; [done | apply IH].
Qed.

(** C8 fails as stated: the walk meets the unreadable directory [zz] after
    it has collected [a.go]; [FindSourceFiles] returns the error and, with
    it, the list collected so far. *)
Lemma C8_counterexample :
  @FindSourceFiles ascii_only plain_rewriter "/w" unreadable_directory_world
  = (["/w/a.go"], Some (PathError "open" "/w/zz" EACCES)) /\
  ~ (forall err,
       snd (@FindSourceFiles ascii_only plain_rewriter "/w" unreadable_directory_world)
       = Some err ->
       fst (@FindSourceFiles ascii_only plain_rewriter "/w" unreadable_directory_world)
       = []).
Proof.
  assert (Hrun : @FindSourceFiles ascii_only plain_rewriter "/w" unreadable_directory_world
                 = (["/w/a.go"], Some (PathError "open" "/w/zz" EACCES)))
    by (vm_compute; reflexivity).
  split; [exact Hrun|].
  intros Hnone. specialize (Hnone (PathError "open" "/w/zz" EACCES)).
  rewrite Hrun in Hnone. simpl in Hnone. by specialize (Hnone eq_refl).
Qed.

(** C8, amended.  A file-system error met while walking ends discovery and
    is what [FindSourceFiles] returns as its error: no file after it is
    visited.  Next to the error [FindSourceFiles] returns the candidates
    collected before it; its callers [Execute] and [DryRun], which walk
    from the build root they obtained, make no use of that list: they
    return the error, wrapped, and process no file. *)
Theorem C8_walk_error_ends_discovery `{UnicodeTables}
    (applyRecipes : Rewriter -> SourceFile -> SourceFile)
    (LoadEnvironment : Rewriter -> World -> Rewriter * option error)
    (range_keys : list string -> list string)
    (r0 r : Rewriter) (rootDir : string) (w : World)
    (seen rest : list visit) (v : visit) (err : error) :
  let fn := visit_file r rootDir (GetExclusions (RewriterConfig r))
              (GetPlainTextMasks (RewriterConfig r)) in
  walker.visits rootDir w = seen ++ v :: rest ->
  snd (walker.Walk_loop fn seen []) = None ->
  visit_err v = Some err ->
  FindSourceFiles r rootDir w = (fst (walker.Walk_loop fn seen []), Some err) /\
  (Skip (RewriterConfig r0) = false ->
   LoadEnvironment r0 w = (r, None) ->
   GetBuildRoot r w = (rootDir, None) ->
   Execute applyRecipes LoadEnvironment range_keys r0 w
   = (w, Some (Errorf "failed to find source files" err)) /\
   DryRun applyRecipes LoadEnvironment r0 w
   = (w, Some (Errorf "failed to find source files" err))).
Proof.
  intros fn Hvisits Hseen Hv.
  assert (Hfind : FindSourceFiles r rootDir w
                  = (fst (walker.Walk_loop fn seen []), Some err)).
  { unfold FindSourceFiles, walker.Walk. fold fn. rewrite Hvisits, Walk_loop_app.
    destruct (walker.Walk_loop fn seen []) as [files e]. simpl in Hseen. subst e.
    simpl. unfold fn at 1. unfold visit_file. by rewrite Hv. }
  split; [exact Hfind|].
  intros Hskip Hload Hbuild. unfold Execute, DryRun. rewrite Hskip, Hload.
  by rewrite Hbuild, Hfind.
Qed.

(** The walk of the example: the root and [a.go] are seen, then [zz] with
    its error. *)
Lemma C8_walk_error_ends_discovery_witness :
  @FindSourceFiles ascii_only plain_rewriter "/w" unreadable_directory_world
  = (fst (walker.Walk_loop
            (@visit_file ascii_only plain_rewriter "/w"
               (@GetExclusions ascii_only (RewriterConfig plain_rewriter))
               (GetPlainTextMasks (RewriterConfig plain_rewriter)))
            [Build_visit "/w" (Some directory_info) None;
             Build_visit "/w/a.go" (Some {| IsDir := false; Size := 9 |}) None]
            []),
     Some (PathError "open" "/w/zz" EACCES)).
Proof.
  pose proof (@C8_walk_error_ends_discovery ascii_only edit_in_place
                environment_loaded remove_dups plain_rewriter plain_rewriter
                "/w" unreadable_directory_world
                [Build_visit "/w" (Some directory_info) None;
                 Build_visit "/w/a.go" (Some {| IsDir := false; Size := 9 |}) None]
                []
                (Build_visit "/w/zz" (Some directory_info)
                   (Some (PathError "open" "/w/zz" EACCES)))
                (PathError "open" "/w/zz" EACCES)) as Hwalk.
  cbv zeta in Hwalk.
  destruct Hwalk as [Hfind _].
  - vm_compute. reflexivity.
  - vm_compute. reflexivity.
  - reflexivity.
  - exact Hfind.
Defined.

(** ** Cleaning lists of names *)

Module clean_facts.
Import GoString strings strings_unicode.

Lemma string_mem_In (x : string) (l : list string) :
  string_mem x l = true <-> In x l.
Proof.
  unfold string_mem. rewrite existsb_exists. split.
  - intros (y & Hy & E). apply String.eqb_eq in E. by subst.
  - intros Hx. exists x. split; [done | apply String.eqb_refl].
Qed.

Lemma string_mem_false (x : string) (l : list string) :
  string_mem x l = false <-> ~ In x l.
Proof.
  rewrite <- string_mem_In. by destruct (string_mem x l).
Qed.

Lemma loop_In `{UnicodeTables} (input cleaned : list string) (x : string) :
  In x (CleanStringSlice_loop input cleaned)
  <-> In x cleaned \/ kept_name input x.
Proof.
  revert cleaned; induction input as [|s rest IH]; intros cleaned; simpl.
  - split; [by left|]. intros [?|(_ & s & [] & _)]. done.
  - destruct (String.eqb (TrimSpace s) "") eqn:Eempty; simpl.
    + apply String.eqb_eq in Eempty. rewrite IH. split.
      * intros [?|(Hx & t & Ht & Et)]; [by left|].
        right. split; [done|]. exists t. split; [by right | done].
      * intros [?|(Hx & t & [->|Ht] & Et)]; [by left | congruence |].
        right. split; [done|]. by exists t.
    + apply String.eqb_neq in Eempty.
      destruct (string_mem (TrimSpace s) cleaned) eqn:Eseen; simpl.
      * apply string_mem_In in Eseen. rewrite IH. split.
        -- intros [?|(Hx & t & Ht & Et)]; [by left|].
           right. split; [done|]. exists t. split; [by right | done].
        -- intros [?|(Hx & t & [->|Ht] & Et)]; [by left | left; by subst |].
           right. split; [done|]. by exists t.
      * rewrite IH, in_app_iff. simpl. split.
        -- intros [[?|[<-|[]]]|(Hx & t & Ht & Et)].
           ++ by left.
           ++ right. split; [done|]. exists s. split; [by left | done].
           ++ right. split; [done|]. exists t. split; [by right | done].
        -- intros [?|(Hx & t & [->|Ht] & Et)].
           ++ left. by left.
           ++ left. right. by left.
           ++ right. split; [done|]. by exists t.
Qed.

Lemma loop_NoDup `{UnicodeTables} (input cleaned : list string) :
  NoDup cleaned -> NoDup (CleanStringSlice_loop input cleaned).
Proof.
  revert cleaned; induction input as [|s rest IH]; intros cleaned Hnd; simpl;
    [done|].
  destruct (String.eqb (TrimSpace s) ""); simpl; [by apply IH|].
  destruct (string_mem (TrimSpace s) cleaned) eqn:Eseen; simpl; [by apply IH|].
  apply IH. apply NoDup_app. split; [done|]. split.
  - intros x Hx [<-|[]]%list_elem_of_In. apply string_mem_false in Eseen.
    apply Eseen. by apply list_elem_of_In.
  - apply NoDup_singleton.
Qed.

(** The result keeps the order of the input. *)
Lemma loop_sublist `{UnicodeTables} (input cleaned : list string) :
  exists added,
    CleanStringSlice_loop input cleaned = cleaned ++ added /\
    sublist added (TrimSpace <$> input).
Proof.
  revert cleaned; induction input as [|s rest IH]; intros cleaned; simpl.
  - exists []. by rewrite app_nil_r.
  - destruct (negb (String.eqb (TrimSpace s) "") &&
              negb (string_mem (TrimSpace s) cleaned)).
    + destruct (IH (cleaned ++ [TrimSpace s])) as (added & -> & Hsub).
      exists (TrimSpace s :: added). split; [by rewrite <- List.app_assoc|].
      by constructor.
    + destruct (IH cleaned) as (added & -> & Hsub).
      exists added. split; [done|]. by constructor.
Qed.

(** A list that is clean already goes through unchanged. *)
Lemma loop_fixed `{UnicodeTables} (input cleaned : list string) :
  (forall s, In s input -> s <> "" /\ TrimSpace s = s) ->
  NoDup (cleaned ++ input) ->
  CleanStringSlice_loop input cleaned = cleaned ++ input.
Proof.
  revert cleaned; induction input as [|s rest IH]; intros cleaned Hclean Hnd;
    cbn [CleanStringSlice_loop]; [by rewrite app_nil_r|].
  destruct (Hclean s (or_introl eq_refl)) as (Hs & Etrim).
  cbv zeta. rewrite Etrim.
  apply String.eqb_neq in Hs. rewrite Hs. simpl.
  assert (Hfresh : string_mem s cleaned = false).
  { apply string_mem_false. intros Hin.
    apply NoDup_app in Hnd as (_ & Hdisj & _).
    apply (Hdisj s); [by apply list_elem_of_In | by left]. }
  rewrite Hfresh. simpl. rewrite IH.
  - by rewrite <- List.app_assoc.
  - intros t Ht. apply Hclean. by right.
  - by rewrite <- List.app_assoc.
Qed.

(** *** [TrimSpace] on ASCII strings *)

Lemma bytes_trim_left (s : string) : bytes (trim_left s) = trim_left_bytes (bytes s).
Proof.
  induction s as [|c s IH]; simpl; [done|]. by destruct (ascii_space c).
Qed.

Lemma bytes_of_bytes (l : list ascii) : bytes (of_bytes l) = l.
Proof. apply list_ascii_of_string_of_list_ascii. Qed.

Lemma all_ascii_bytes (s : string) : all_ascii s = forallb is_ascii_byte (bytes s).
Proof. induction s as [|c s IH]; simpl; [done|]. by rewrite IH. Qed.

Lemma trim_left_bytes_split (l : list ascii) :
  exists spaces, l = spaces ++ trim_left_bytes l.
Proof.
  induction l as [|c l (spaces & IH)]; simpl; [by exists []|].
  destruct (ascii_space c).
  - exists (c :: spaces). simpl. by rewrite <- IH.
  - by exists [].
Qed.

Lemma trim_left_bytes_starts (l : list ascii) : starts_unspaced (trim_left_bytes l).
Proof.
  induction l as [|c l IH]; simpl; [done|].
  destruct (ascii_space c) eqn:E; [done | simpl; done].
Qed.

Lemma trim_left_bytes_fixed (l : list ascii) :
  starts_unspaced l -> trim_left_bytes l = l.
Proof. destruct l as [|c l]; simpl; [done|]. by intros ->. Qed.

Lemma forallb_trim_left (P : ascii -> bool) (l : list ascii) :
  forallb P l = true -> forallb P (trim_left_bytes l) = true.
Proof.
  destruct (trim_left_bytes_split l) as (spaces & E). rewrite E at 1.
  rewrite forallb_app. by intros (_ & ?)%andb_true_iff.
Qed.

Lemma forallb_rev (P : ascii -> bool) (l : list ascii) :
  forallb P (rev l) = forallb P l.
Proof.
  induction l as [|c l IH]; simpl; [done|].
  rewrite forallb_app, IH. simpl. rewrite andb_true_r. apply andb_comm.
Qed.

Lemma trimmed_bytes_ascii (l : list ascii) :
  forallb is_ascii_byte l = true -> forallb is_ascii_byte (trimmed_bytes l) = true.
Proof.
  intros Hl. unfold trimmed_bytes. rewrite forallb_rev.
  apply forallb_trim_left. rewrite forallb_rev. by apply forallb_trim_left.
Qed.

Lemma trimmed_bytes_idempotent (l : list ascii) :
  trimmed_bytes (trimmed_bytes l) = trimmed_bytes l.
Proof.
  unfold trimmed_bytes.
  pose proof (trim_left_bytes_starts l) as Ha.
  set (a := trim_left_bytes l) in *.
  pose proof (trim_left_bytes_starts (rev a)) as Hb.
  destruct (trim_left_bytes_split (rev a)) as (spaces & Esplit).
  set (b := trim_left_bytes (rev a)) in *.
  assert (Hrev : starts_unspaced (rev b)).
  { assert (Ea : a = rev b ++ rev spaces).
    { rewrite <- rev_app_distr, <- Esplit. by rewrite rev_involutive. }
    destruct (rev b) as [|c t]; [done|]. rewrite Ea in Ha. exact Ha. }
  rewrite (trim_left_bytes_fixed (rev b)) by done.
  rewrite rev_involutive. by rewrite (trim_left_bytes_fixed b).
Qed.

Lemma TrimSpace_ascii `{UnicodeTables} (s : string) :
  all_ascii s = true -> TrimSpace s = of_bytes (trimmed_bytes (bytes s)).
Proof.
  intros Hs. unfold TrimSpace, trimmed_bytes. by rewrite Hs, bytes_trim_left.
Qed.

Lemma TrimSpace_all_ascii `{UnicodeTables} (s : string) :
  all_ascii s = true -> all_ascii (TrimSpace s) = true.
Proof.
  intros Hs. rewrite TrimSpace_ascii by done.
  rewrite all_ascii_bytes, bytes_of_bytes. apply trimmed_bytes_ascii.
  by rewrite <- all_ascii_bytes.
Qed.

Lemma TrimSpace_idempotent `{UnicodeTables} (s : string) :
  all_ascii s = true -> TrimSpace (TrimSpace s) = TrimSpace s.
Proof.
  intros Hs. rewrite (TrimSpace_ascii (TrimSpace s)) by by apply TrimSpace_all_ascii.
  rewrite (TrimSpace_ascii s) by done.
  by rewrite bytes_of_bytes, trimmed_bytes_idempotent.
Qed.

End clean_facts.

(** X1: [CleanStringSlice] returns every name once: the result has no
    duplicate, it holds exactly the trimmed forms of the input that are not
    empty, and it keeps them in the order of the input. *)
Theorem CleanStringSlice_keeps_each_name_once `{UnicodeTables} (input : list string) :
  NoDup (CleanStringSlice input) /\
  (forall x, In x (CleanStringSlice input) <-> kept_name input x) /\
  sublist (CleanStringSlice input) (strings_unicode.TrimSpace <$> input).
Proof.
  unfold CleanStringSlice. split; [|split].
  - apply clean_facts.loop_NoDup. constructor.
  - intros x. rewrite clean_facts.loop_In. simpl. tauto.
  - destruct (clean_facts.loop_sublist input []) as (added & -> & Hsub). done.
Qed.

(** X2: cleaning a list of ASCII names twice gives what cleaning it once
    gives. *)
Theorem CleanStringSlice_is_idempotent `{UnicodeTables} (input : list string) :
  (forall s, In s input -> strings.all_ascii s = true) ->
  CleanStringSlice (CleanStringSlice input) = CleanStringSlice input.
Proof.
  intros Hascii. unfold CleanStringSlice at 1.
  rewrite clean_facts.loop_fixed; [done| |].
  - intros x Hx. apply clean_facts.loop_In in Hx as [[]|(Hne & s & Hs & <-)].
    split; [done|]. apply clean_facts.TrimSpace_idempotent. by apply Hascii.
  - simpl. apply clean_facts.loop_NoDup. constructor.
Qed.

(** The names of a configuration file, cleaned once and twice. *)
Lemma CleanStringSlice_is_idempotent_witness :
  @CleanStringSlice ascii_only (@CleanStringSlice ascii_only untidy_names)
  = @CleanStringSlice ascii_only untidy_names /\
  @CleanStringSlice ascii_only untidy_names = ["A"; "B"].
Proof.
  split.
  - apply (@CleanStringSlice_is_idempotent ascii_only untidy_names).
    intros s Hs. simpl in Hs.
    repeat (destruct Hs as [<-|Hs]; [reflexivity|]). destruct Hs.
  - vm_compute. reflexivity.
Defined.

(** ** The choice of recipes *)

Module recipe_facts.

Lemma name_set_from (names : list string) (nameSet : gmap string bool) (x : string) :
  default false
    (foldl (fun nameSet name => <[name := true]> nameSet) nameSet names !! x) = true
  <-> In x names \/ default false (nameSet !! x) = true.
Proof.
  revert nameSet; induction names as [|name names IH]; intros nameSet; simpl.
  - split; [by right | by intros [[]|?]].
  - rewrite IH. destruct (decide (name = x)) as [->|Hne].
    + rewrite lookup_insert_eq. simpl. split; [intros _; left; by left | by right].
    + rewrite lookup_insert_ne by done. split.
      * intros [?|?]; [left; by right | by right].
      * intros [[?|?]|?]; [done | by left | by right].
Qed.

Lemma name_set_lookup (names : list string) (x : string) :
  default false (name_set names !! x) = true <-> x ∈ names.
Proof.
  unfold name_set. rewrite name_set_from, lookup_empty, list_elem_of_In. simpl.
  split; [by intros [?|?] | by left].
Qed.

Lemma filter_recipes_filter (names : list string) (recipes filtered : list Recipe) :
  filter_recipes (name_set names) recipes filtered
  = filtered ++ filter (fun recipe => Name recipe ∈ names) recipes.
Proof.
  revert filtered; induction recipes as [|recipe rest IH]; intros filtered; simpl.
  - by rewrite app_nil_r.
  - destruct (default false (name_set names !! Name recipe)) eqn:E.
    + apply name_set_lookup in E. rewrite IH, filter_cons_True by done.
      by rewrite <- List.app_assoc.
    + rewrite IH, filter_cons_False; [done|].
      intros Hin. apply name_set_lookup in Hin. congruence.
Qed.

Lemma filter_twice (names : list string) (recipes : list Recipe) :
  filter (fun recipe => Name recipe ∈ names)
    (filter (fun recipe => Name recipe ∈ names) recipes)
  = filter (fun recipe => Name recipe ∈ names) recipes.
Proof.
  induction recipes as [|recipe rest IH]; [done|].
  rewrite filter_cons. destruct (decide (Name recipe ∈ names)) as [Hin|Hout]; [|done].
  rewrite filter_cons. destruct (decide (Name recipe ∈ names)); [|done].
  by rewrite IH.
Qed.

End recipe_facts.

(** X3: [filterActiveRecipes] leaves the environment as it is when the
    configuration names no recipe (or only blank names); otherwise the
    environment keeps, in their order, exactly the recipes whose name is one
    of the cleaned configured names, which may be none of them.  Filtering
    twice changes nothing more. *)
Theorem filterActiveRecipes_keeps_the_named `{UnicodeTables}
    (configured : list string) (env : Environment) :
  (CleanStringSlice configured = [] -> filterActiveRecipes configured env = env) /\
  (CleanStringSlice configured <> [] ->
   ActiveRecipes (filterActiveRecipes configured env)
   = filter (fun recipe => Name recipe ∈ CleanStringSlice configured)
       (ActiveRecipes env)) /\
  (forall recipe,
     In recipe (ActiveRecipes (filterActiveRecipes configured env)) ->
     In recipe (ActiveRecipes env) /\
     (CleanStringSlice configured <> [] -> kept_name configured (Name recipe))) /\
  filterActiveRecipes configured (filterActiveRecipes configured env)
  = filterActiveRecipes configured env.
Proof.
  unfold filterActiveRecipes, GetActiveRecipes.
  destruct (CleanStringSlice configured) as [|name names] eqn:Enames.
  - simpl. repeat split; done.
  - cbn [length Nat.eqb]. cbn [ActiveRecipes].
    rewrite !recipe_facts.filter_recipes_filter. simpl app.
    split; [done|]. split; [done|]. split.
    + intros recipe Hin. apply list_elem_of_In, list_elem_of_filter in Hin as (Hname & Hin).
      split; [by apply list_elem_of_In|]. intros _.
      apply list_elem_of_In in Hname. rewrite <- Enames in Hname.
      unfold CleanStringSlice in Hname.
      apply clean_facts.loop_In in Hname as [[]|Hkept]. done.
    + by rewrite recipe_facts.filter_twice.
Qed.

(** ** What [ProcessFiles] hands over *)

Section Buckets.

Context `{UnicodeTables}.
Variable applyRecipes : Rewriter -> SourceFile -> SourceFile.

(** A result of [processFile] has both snapshots; the first one is the
    file as read. *)
Lemma processFile_result (r : Rewriter) (filePath : string) (w : World)
    (result : Result) :
  fst (processFile applyRecipes r filePath w) = Some result ->
  processFile applyRecipes r filePath w = (Some result, None) /\
  edited result /\ read_from r [filePath] w result.
Proof.
  unfold processFile.
  destruct (os.ReadFile filePath w) as [content|err] eqn:Eread; [|done].
  destruct (filepath.Rel (BaseDir r) filePath) as [relPath [err|]] eqn:Erel; [done|].
  cbv zeta. unfold compare_files. cbn [Content].
  destruct (String.eqb content _) eqn:Esame; [done|].
  cbn [fst]. intros [= <-]. split; [done|]. split.
  - eexists _, _. split; [reflexivity|]. split; [reflexivity|].
    cbn [Content]. by apply String.eqb_neq.
  - eexists filePath, _. split; [by left|]. split; [reflexivity|].
    cbn [Content Path]. by split.
Qed.

Lemma processFile_failure (r : Rewriter) (filePath : string) (w : World)
    (err : error) :
  snd (processFile applyRecipes r filePath w) = Some err ->
  fst (processFile applyRecipes r filePath w) = None.
Proof.
  unfold processFile.
  destruct (os.ReadFile filePath w) as [content|e]; [|done].
  by destruct (filepath.Rel (BaseDir r) filePath) as [relPath [e|]].
Qed.

(** Where [categorize] puts a result with two snapshots that differ. *)
Lemma categorize_edited (rc : ResultsContainer) (result : Result) :
  edited result ->
  (other_path result /\ categorize rc result = add_Moved rc result) \/
  (same_path result /\ categorize rc result = add_RefactoredInPlace rc result).
Proof.
  intros (before & after & Hb & Ha & Hc). unfold categorize. rewrite Hb, Ha.
  destruct (String.eqb (Path before) (Path after)) eqn:Epath; simpl.
  - right. apply String.eqb_eq in Epath. split; [by exists before, after|].
    apply String.eqb_neq in Hc. by rewrite Hc.
  - left. apply String.eqb_neq in Epath. split; [by exists before, after | done].
Qed.

Lemma read_from_In (r : Rewriter) (filePath : string) (sourceFiles : list string)
    (w : World) (result : Result) :
  In filePath sourceFiles ->
  read_from r [filePath] w result -> read_from r sourceFiles w result.
Proof.
  intros Hin (f & before & [<-|[]] & Hrest). by exists filePath, before.
Qed.

Lemma loop_two_buckets (r : Rewriter) (sourceFiles todo : list string) (w : World)
    (rc : ResultsContainer) :
  (forall f, In f todo -> In f sourceFiles) ->
  two_buckets r sourceFiles w rc ->
  two_buckets r sourceFiles w (ProcessFiles_loop applyRecipes r todo w rc).
Proof.
  revert rc; induction todo as [|f todo IH]; intros rc Hsub Hrc; simpl; [done|].
  assert (Htodo : forall g, In g todo -> In g sourceFiles)
    by (intros; apply Hsub; by right).
  destruct (processFile applyRecipes r f w) as [[result|] [err|]] eqn:Ef.
  - apply IH; [done|]. by destruct (FirstException rc).
  - apply IH; [done|].
    destruct (processFile_result r f w result) as (_ & Hed & Hread);
      [by rewrite Ef|].
    apply (read_from_In r f sourceFiles) in Hread; [|apply Hsub; by left].
    destruct Hrc as (Hg & Hd & Hm & Hr & Hroot).
    destruct (categorize_edited rc result Hed) as [(Hp & ->)|(Hp & ->)];
      (split; [done|]; split; [done|]); simpl.
    + split; [|done]. apply Forall_app. split; [done|]. by repeat constructor.
    + split; [done|]. split; [|done]. apply Forall_app. split; [done|].
      by repeat constructor.
  - apply IH; [done|]. by destruct (FirstException rc).
  - by apply IH.
Qed.

(** The two buckets together hold the results of [processFile], each once. *)
Lemma loop_all_results (r : Rewriter) (todo : list string) (w : World)
    (rc : ResultsContainer) :
  Moved (ProcessFiles_loop applyRecipes r todo w rc) ++
  RefactoredInPlace (ProcessFiles_loop applyRecipes r todo w rc)
  ≡ₚ (Moved rc ++ RefactoredInPlace rc) ++
     omap (fun f => fst (processFile applyRecipes r f w)) todo.
Proof.
  revert rc; induction todo as [|f todo IH]; intros rc; simpl.
  - by rewrite app_nil_r.
  - destruct (processFile applyRecipes r f w) as [[result|] [err|]] eqn:Ef;
      rewrite IH; simpl.
    + destruct (processFile_result r f w result) as (E & _); [by rewrite Ef|].
      rewrite Ef in E. discriminate E.
    + destruct (processFile_result r f w result) as (_ & Hed & _); [by rewrite Ef|].
      destruct (categorize_edited rc result Hed) as [(_ & ->)|(_ & ->)]; simpl.
      * rewrite <- !List.app_assoc. apply Permutation_app_head. simpl.
        apply Permutation_middle.
      * by rewrite <- !List.app_assoc.
    + by destruct (FirstException rc).
    + done.
Qed.

Lemma loop_no_failure (r : Rewriter) (todo : list string) (w : World)
    (rc : ResultsContainer) :
  FirstException (ProcessFiles_loop applyRecipes r todo w rc) = None <->
  FirstException rc = None /\
  forall f, In f todo -> snd (processFile applyRecipes r f w) = None.
Proof.
  revert rc; induction todo as [|f todo IH]; intros rc; simpl.
  - split; [by intros ? | by intros (? & _)].
  - destruct (processFile applyRecipes r f w) as [[result|] [err|]] eqn:Ef;
      rewrite IH; simpl.
    + split.
      * destruct (FirstException rc) eqn:Erc; simpl; intros (Hrc & _); congruence.
      * intros (_ & Hall). specialize (Hall f (or_introl eq_refl)).
        by rewrite Ef in Hall.
    + rewrite categorize_FirstException. split.
      * intros (? & Hall). split; [done|]. intros g [<-|Hg]; [by rewrite Ef | by apply Hall].
      * intros (? & Hall). split; [done|]. intros g Hg. apply Hall. by right.
    + split.
      * destruct (FirstException rc) eqn:Erc; simpl; intros (Hrc & _); congruence.
      * intros (_ & Hall). specialize (Hall f (or_introl eq_refl)).
        by rewrite Ef in Hall.
    + split.
      * intros (? & Hall). split; [done|]. intros g [<-|Hg]; [by rewrite Ef | by apply Hall].
      * intros (? & Hall). split; [done|]. intros g Hg. apply Hall. by right.
Qed.

Lemma omap_no_longer {A B : Type} (f : A -> option B) (l : list A) :
  length (omap f l) <= length l.
Proof.
  induction l as [|x l IH]; simpl; [done|].
  destruct (f x); simpl; [apply le_n_S | apply le_S]; exact IH.
Qed.

(** With the recipe step of the source no file yields a result. *)
Lemma loop_placeholder (r : Rewriter) (todo : list string) (w : World)
    (rc : ResultsContainer) :
  buckets (ProcessFiles_loop placeholder_applyRecipes r todo w rc) = buckets rc.
Proof.
  revert rc; induction todo as [|f todo IH]; intros rc; simpl; [done|].
  unfold processFile at 1.
  destruct (os.ReadFile f w) as [content|err].
  - destruct (filepath.Rel (BaseDir r) f) as [relPath [err|]].
    + rewrite IH. by destruct (FirstException rc).
    + cbv zeta. rewrite compare_files_None by done. apply IH.
  - rewrite IH. by destruct (FirstException rc).
Qed.


End Buckets.



(** X4: whatever the recipe step does, [ProcessFiles] with a loaded
    environment returns a container under the project root [BaseDir] whose
    [Generated] and [Deleted] buckets are empty.  Every change in [Moved]
    and [RefactoredInPlace] has both snapshots with different contents, a
    before-snapshot that is one of the given files as read from disk, and
    two different paths in [Moved], one path in [RefactoredInPlace]. *)
Theorem ProcessFiles_fills_only_two_buckets
    (applyRecipes : Rewriter -> SourceFile -> SourceFile)
    (r : Rewriter) (sourceFiles : list string) (w : World) (env : Environment) :
  RewriterEnvironment r = Some env ->
  exists results,
    ProcessFiles applyRecipes r sourceFiles w = (Some results, None) /\
    Generated results = [] /\ Deleted results = [] /\
    Forall (fun result =>
              edited result /\ other_path result /\
              read_from r sourceFiles w result)
           (Moved results) /\
    Forall (fun result =>
              edited result /\ same_path result /\
              read_from r sourceFiles w result)
           (RefactoredInPlace results) /\
    ProjectRoot results = BaseDir r.
Proof.
  intros Henv. unfold ProcessFiles. rewrite Henv. eexists. split; [reflexivity|].
  apply (loop_two_buckets applyRecipes r sourceFiles sourceFiles w); [done|].
  repeat split; constructor.
Qed.

(** The file [a.txt] edited in place: nothing is generated or deleted. *)
Lemma ProcessFiles_fills_only_two_buckets_witness :
  exists results,
    ProcessFiles edit_in_place plain_rewriter ["/w/a.txt"] one_text_world
    = (Some results, None) /\
    Generated results = [] /\ Deleted results = [] /\
    length (RefactoredInPlace results) = 1.
Proof.
  pose proof (ProcessFiles_fills_only_two_buckets edit_in_place plain_rewriter
                ["/w/a.txt"] one_text_world {| ActiveRecipes := [] |} eq_refl)
    as (results & Hrun & Hg & Hd & _).
  exists results. split; [exact Hrun|]. split; [exact Hg|]. split; [exact Hd|].
  revert Hrun. vm_compute. intros [= <-]. reflexivity.
Defined.

(** X5: no change is lost and none is made up between [processFile] and
    the container: the buckets [Moved] and [RefactoredInPlace] together hold
    exactly the results [processFile] returned for the files, each once;
    a file that fails or is unchanged adds nothing. *)
Theorem ProcessFiles_keeps_every_result
    (applyRecipes : Rewriter -> SourceFile -> SourceFile)
    (r : Rewriter) (sourceFiles : list string) (w : World) (env : Environment) :
  RewriterEnvironment r = Some env ->
  exists results,
    ProcessFiles applyRecipes r sourceFiles w = (Some results, None) /\
    Moved results ++ RefactoredInPlace results
    ≡ₚ omap (fun f => fst (processFile applyRecipes r f w)) sourceFiles /\
    length (Moved results) + length (RefactoredInPlace results)
    <= length sourceFiles.
Proof.
  intros Henv. unfold ProcessFiles. rewrite Henv. eexists. split; [reflexivity|].
  pose proof (loop_all_results applyRecipes r sourceFiles w
                {| Generated := []; Deleted := []; Moved := [];
                   RefactoredInPlace := []; ProjectRoot := BaseDir r;
                   FirstException := None |}) as Hall.
  simpl in Hall. split; [exact Hall|].
  rewrite <- length_app, Hall. apply omap_no_longer.
Qed.

(** Of [a.go], [b.go] and [c.go], the second cannot be read: two changes. *)
Lemma ProcessFiles_keeps_every_result_witness :
  exists results,
    ProcessFiles edit_in_place plain_rewriter ["/w/a.go"; "/w/b.go"; "/w/c.go"]
      unreadable_world = (Some results, None) /\
    length (Moved results) + length (RefactoredInPlace results) <= 3.
Proof.
  pose proof (ProcessFiles_keeps_every_result edit_in_place plain_rewriter
                ["/w/a.go"; "/w/b.go"; "/w/c.go"] unreadable_world
                {| ActiveRecipes := [] |} eq_refl)
    as (results & Hrun & _ & Hlen).
  exists results. split; [exact Hrun | exact Hlen].
Defined.

(** X6: the container records a failure exactly when [processFile] fails
    for one of the files. *)
Theorem ProcessFiles_records_a_failure_iff_a_file_fails
    (applyRecipes : Rewriter -> SourceFile -> SourceFile)
    (r : Rewriter) (sourceFiles : list string) (w : World) (env : Environment) :
  RewriterEnvironment r = Some env ->
  exists results,
    ProcessFiles applyRecipes r sourceFiles w = (Some results, None) /\
    (FirstException results = None <->
     forall f, In f sourceFiles -> snd (processFile applyRecipes r f w) = None).
Proof.
  intros Henv. unfold ProcessFiles. rewrite Henv. eexists. split; [reflexivity|].
  rewrite loop_no_failure. simpl. tauto.
Qed.

Lemma ProcessFiles_records_a_failure_iff_a_file_fails_witness :
  exists results,
    ProcessFiles edit_in_place plain_rewriter ["/w/a.go"; "/w/b.go"; "/w/c.go"]
      unreadable_world = (Some results, None) /\
    FirstException results <> None.
Proof.
  pose proof (ProcessFiles_records_a_failure_iff_a_file_fails edit_in_place
                plain_rewriter ["/w/a.go"; "/w/b.go"; "/w/c.go"] unreadable_world
                {| ActiveRecipes := [] |} eq_refl)
    as (results & Hrun & Hiff).
  exists results. split; [exact Hrun|].
  intros Hnone.
  pose proof (proj1 Hiff Hnone "/w/b.go" (or_intror (or_introl eq_refl))) as Hb.
  revert Hb. vm_compute. discriminate.
Defined.

(** ** Runs that leave the tree alone *)

(** X7: with the recipe step the source has (a copy of the file), [Execute]
    never changes the tree, whatever the configuration, the environment and
    the files are: no file yields a result, so nothing is applied. *)
Theorem Execute_with_the_placeholder_changes_nothing `{UnicodeTables}
    (LoadEnvironment : Rewriter -> World -> Rewriter * option error)
    (range_keys : list string -> list string) (r : Rewriter) (w : World) :
  fst (Execute placeholder_applyRecipes LoadEnvironment range_keys r w) = w.
Proof.
  unfold Execute.
  destruct (Skip (RewriterConfig r)); [done|].
  destruct (LoadEnvironment r w) as [r' [err|]]; [done|].
  destruct (GetBuildRoot r' w) as [buildRoot [err|]]; [done|].
  destruct (FindSourceFiles r' buildRoot w) as [sourceFiles [err|]]; [done|].
  destruct (length sourceFiles =? 0); [done|].
  unfold ProcessFiles. destruct (RewriterEnvironment r'); [|done].
  destruct (FirstException _); [done|].
  pose proof (loop_placeholder r' sourceFiles w
                {| Generated := []; Deleted := []; Moved := [];
                   RefactoredInPlace := []; ProjectRoot := BaseDir r';
                   FirstException := None |}) as Hb.
  unfold buckets in Hb. simpl in Hb. injection Hb as Hg Hd Hm Hr.
  unfold IsNotEmpty. by rewrite Hg, Hd, Hm, Hr.
Qed.

(** X8: [DryRun] never changes the tree, and it fails exactly as [Execute]
    does before it applies anything: an error of [DryRun] is the error of
    [Execute], which then leaves the tree alone as well; when [DryRun]
    succeeds, [Execute] can only fail in applying the results. *)
Theorem DryRun_previews_Execute `{UnicodeTables}
    (applyRecipes : Rewriter -> SourceFile -> SourceFile)
    (LoadEnvironment : Rewriter -> World -> Rewriter * option error)
    (range_keys : list string -> list string) (r : Rewriter) (w : World) :
  fst (DryRun applyRecipes LoadEnvironment r w) = w /\
  (forall err,
     snd (DryRun applyRecipes LoadEnvironment r w) = Some err ->
     Execute applyRecipes LoadEnvironment range_keys r w = (w, Some err)) /\
  (snd (DryRun applyRecipes LoadEnvironment r w) = None ->
   snd (Execute applyRecipes LoadEnvironment range_keys r w) = None \/
   exists err,
     snd (Execute applyRecipes LoadEnvironment range_keys r w)
     = Some (Errorf "failed to apply results" (Errorf "failed to apply changes" err))).
Proof.
  unfold DryRun, Execute.
  destruct (Skip (RewriterConfig r)); [by repeat split; auto|].
  destruct (LoadEnvironment r w) as [r' [err|]];
    [by repeat split; auto; intros ? [= <-]|].
  destruct (GetBuildRoot r' w) as [buildRoot [err|]];
    [by repeat split; auto; intros ? [= <-]|].
  destruct (FindSourceFiles r' buildRoot w) as [sourceFiles [err|]];
    [by repeat split; auto; intros ? [= <-]|].
  destruct (length sourceFiles =? 0); [by repeat split; auto|].
  destruct (ProcessFiles applyRecipes r' sourceFiles w) as [[results|] [err|]];
    try (by repeat split; auto; intros ? [= <-]).
  destruct (FirstException results) as [err|];
    [by repeat split; auto; intros ? [= <-]|].
  split; [done|]. split; [done|]. intros _.
  destruct (IsNotEmpty results); [|by left].
  unfold reportAndApplyResults.
  destruct (applyChanges range_keys results w) as [w' [err|]]; simpl.
  - right. by exists err.
  - by left.
Qed.

(** ** Writing files *)

Module write_facts.

Lemma search_None (w : World) (chain : list string) :
  os.search w chain = None <->
  forall d, In d chain -> os.node_at w d = Some Directory.
Proof.
  induction chain as [|d chain IH]; simpl.
  - split; [by intros _ ? [] | done].
  - destruct (os.node_at w d) as [[content|]|] eqn:Ed.
    + split; [done|]. intros Hall. specialize (Hall d (or_introl eq_refl)). congruence.
    + rewrite IH. split.
      * intros Hall k [<-|Hk]; [done | by apply Hall].
      * intros Hall k Hk. apply Hall. by right.
    + split; [done|]. intros Hall. specialize (Hall d (or_introl eq_refl)). congruence.
Qed.

Lemma node_at_insert_ne (w : World) (key k : string) (n : node) :
  k <> key ->
  os.node_at (os.set_tree w (<[key := n]> (tree w))) k = os.node_at w k.
Proof.
  intros Hne. unfold os.node_at. simpl. by rewrite lookup_insert_ne.
Qed.

Lemma node_at_insert_directory (w : World) (key k : string) :
  os.node_at w k = Some Directory ->
  os.node_at (os.set_tree w (<[key := Directory]> (tree w))) k = Some Directory.
Proof.
  unfold os.node_at. simpl. destruct (String.eqb k "/"); [done|].
  destruct (decide (k = key)) as [->|Hne].
  - by rewrite lookup_insert_eq.
  - by rewrite lookup_insert_ne.
Qed.

Lemma mkdir_chain_fault (chain : list string) (w w' : World) (err : option error) :
  os.mkdir_chain chain w = (w', err) -> fault w' = fault w.
Proof.
  revert w; induction chain as [|d chain IH]; intros w; simpl.
  - by intros [= <- _].
  - destruct (os.node_at w d) as [[content|]|].
    + by intros [= <- _].
    + apply IH.
    + destruct (fault w SysMkdir d); [by intros [= <- _]|].
      intros Hrec. by apply IH in Hrec.
Qed.

(** [MkdirAll] takes nothing out of the tree and puts only directories in,
    on the keys of its chain. *)
Lemma mkdir_chain_keeps (chain : list string) (w w' : World) (err : option error) :
  os.mkdir_chain chain w = (w', err) ->
  forall k n, tree w !! k = Some n -> tree w' !! k = Some n.
Proof.
  revert w; induction chain as [|d chain IH]; intros w; simpl.
  - by intros [= <- _].
  - destruct (os.node_at w d) as [[content|]|] eqn:Ed.
    + by intros [= <- _].
    + apply IH.
    + destruct (fault w SysMkdir d); [by intros [= <- _]|].
      intros Hrec k n Hk. apply (IH _ Hrec). simpl.
      destruct (decide (k = d)) as [->|Hne]; [|by rewrite lookup_insert_ne].
      unfold os.node_at in Ed. destruct (String.eqb d "/"); congruence.
Qed.

Lemma mkdir_chain_adds (chain : list string) (w w' : World) (err : option error) :
  os.mkdir_chain chain w = (w', err) ->
  forall k n, tree w' !! k = Some n -> tree w !! k = Some n \/ n = Directory.
Proof.
  revert w; induction chain as [|d chain IH]; intros w; simpl.
  - intros [= <- _]. by left.
  - destruct (os.node_at w d) as [[content|]|] eqn:Ed.
    + intros [= <- _]. by left.
    + apply IH.
    + destruct (fault w SysMkdir d); [intros [= <- _]; by left|].
      intros Hrec k n Hk. destruct (IH _ Hrec k n Hk) as [Hin|?]; [|by right].
      simpl in Hin. destruct (decide (k = d)) as [->|Hne].
      * rewrite lookup_insert_eq in Hin. right. congruence.
      * rewrite lookup_insert_ne in Hin by done. by left.
Qed.

Lemma mkdir_chain_directories (chain : list string) (w w' : World)
    (err : option error) :
  os.mkdir_chain chain w = (w', err) ->
  forall k, os.node_at w k = Some Directory -> os.node_at w' k = Some Directory.
Proof.
  revert w; induction chain as [|d chain IH]; intros w; simpl.
  - by intros [= <- _].
  - destruct (os.node_at w d) as [[content|]|] eqn:Ed.
    + by intros [= <- _].
    + apply IH.
    + destruct (fault w SysMkdir d); [by intros [= <- _]|].
      intros Hrec k Hk. apply (IH _ Hrec). by apply node_at_insert_directory.
Qed.

(** After a successful [MkdirAll] every key of the chain is a directory. *)
Lemma mkdir_chain_made (chain : list string) (w w' : World) :
  os.mkdir_chain chain w = (w', None) ->
  forall d, In d chain -> os.node_at w' d = Some Directory.
Proof.
  revert w; induction chain as [|d chain IH]; intros w; simpl; [by intros _ ? []|].
  destruct (os.node_at w d) as [[content|]|] eqn:Ed; [done| |].
  - intros Hrec k [<-|Hk]; [|by apply (IH _ Hrec)].
    by apply (mkdir_chain_directories _ _ _ _ Hrec).
  - destruct (fault w SysMkdir d); [done|].
    intros Hrec k [<-|Hk]; [|by apply (IH _ Hrec)].
    apply (mkdir_chain_directories _ _ _ _ Hrec).
    unfold os.node_at. simpl. destruct (String.eqb d "/"); [done|].
    by rewrite lookup_insert_eq.
Qed.

Lemma mkdir_chain_nothing_to_do (chain : list string) (w : World) :
  (forall d, In d chain -> os.node_at w d = Some Directory) ->
  os.mkdir_chain chain w = (w, None).
Proof.
  induction chain as [|d chain IH]; intros Hall; simpl; [done|].
  rewrite (Hall d (or_introl eq_refl)). apply IH. intros k Hk. apply Hall. by right.
Qed.

(** What a successful [os.WriteFile] found. *)
Lemma WriteFile_found (name data : string) (w w' : World) :
  os.WriteFile name data w = (w', None) ->
  fault w SysWriteFile (os.resolve w name) = None /\
  os.parent_error w (os.resolve w name) = None /\
  os.node_at w (os.resolve w name) <> Some Directory /\
  w' = os.set_tree w (<[os.resolve w name := File data]> (tree w)).
Proof.
  unfold os.WriteFile, os.reach.
  destruct (fault w SysWriteFile (os.resolve w name)); [done|].
  destruct (os.parent_error w (os.resolve w name)); [done|].
  destruct (os.node_at w (os.resolve w name)) as [[content|]|]; try done;
    by intros [= <-].
Qed.

(** Writing a file leaves the directories above it in place. *)
Lemma search_insert_file (w : World) (key data : string) (chain : list string) :
  os.node_at w key <> Some Directory ->
  os.search w chain = None ->
  os.search (os.set_tree w (<[key := File data]> (tree w))) chain = None.
Proof.
  intros Hkey. rewrite !search_None. intros Hall d Hd.
  rewrite node_at_insert_ne; [by apply Hall|].
  intros ->. by apply Hkey, Hall.
Qed.

(** The steps of a successful [writeFile]. *)
Lemma writeFile_steps (buildRoot : string) (sourceFile : SourceFile) (w w' : World) :
  writeFile buildRoot sourceFile w = (w', None) ->
  let filePath := filepath.Join [buildRoot; Path sourceFile] in
  exists w1,
    os.MkdirAll (filepath.Dir filePath) w = (w1, None) /\
    os.WriteFile filePath (Content sourceFile) w1 = (w', None).
Proof.
  unfold writeFile.
  destruct (os.MkdirAll _ w) as [w1 [err|]] eqn:Hmk; [done|].
  destruct (os.WriteFile _ _ w1) as [w2 [err|]] eqn:Hwr; [done|].
  intros [= <-]. by exists w1.
Qed.

End write_facts.

(** X9: a file written by [writeFile] can be read back: after a successful
    [writeFile], [os.ReadFile] of the joined path returns the content that
    was written (when the system lets the file be read), and the directory
    of the file is a directory of the tree. *)
Theorem writeFile_then_ReadFile (buildRoot : string) (sourceFile : SourceFile)
    (w w' : World) :
  let filePath := filepath.Join [buildRoot; Path sourceFile] in
  writeFile buildRoot sourceFile w = (w', None) ->
  fault w SysReadFile (os.resolve w filePath) = None ->
  os.ReadFile filePath w' = inl (Content sourceFile) /\
  os.node_at w' (os.resolve w' (filepath.Dir filePath)) = Some Directory.
Proof.
  intros filePath Hwrite Hfault.
  destruct (write_facts.writeFile_steps _ _ _ _ Hwrite) as (w1 & Hmk & Hwr).
  fold filePath in Hmk, Hwr.
  pose proof (move_facts.MkdirAll_cwd _ _ _ _ Hmk) as Hcwd.
  pose proof (write_facts.mkdir_chain_fault _ _ _ _ Hmk) as Hflt.
  destruct (write_facts.WriteFile_found _ _ _ _ Hwr) as (_ & Hparent & Hnode & ->).
  rewrite (move_facts.resolve_cwd w w1) in * by done.
  set (key := os.resolve w filePath) in *.
  split.
  - unfold os.ReadFile, os.reach. rewrite os_facts.resolve_set_tree.
    rewrite (move_facts.resolve_cwd w w1) by done. fold key.
    cbn [fault os.set_tree]. rewrite Hflt, Hfault.
    unfold os.parent_error in *. rewrite write_facts.search_insert_file by done.
    unfold os.node_at in *. cbn [tree os.set_tree].
    destruct (String.eqb key "/"); [done|]. by rewrite lookup_insert_eq.
  - rewrite os_facts.resolve_set_tree. rewrite (move_facts.resolve_cwd w w1) by done.
    assert (Hdir : os.node_at w1 (os.resolve w (filepath.Dir filePath)) = Some Directory).
    { apply (write_facts.mkdir_chain_made _ _ _ Hmk). apply in_or_app. right. by left. }
    rewrite write_facts.node_at_insert_ne; [done|].
    intros E. rewrite E in Hdir. fold key in Hdir. done.
Qed.

(** The generated file [x/y.txt] with the text [hello]. *)
Lemma writeFile_then_ReadFile_witness :
  exists w',
    writeFile "/w" (source_file "x/y.txt" "hello") one_text_world = (w', None) /\
    os.ReadFile (filepath.Join ["/w"; "x/y.txt"]) w' = inl "hello" /\
    os.node_at w' (os.resolve w' (filepath.Dir (filepath.Join ["/w"; "x/y.txt"])))
    = Some Directory.
Proof.
  pose (w' := fst (writeFile "/w" (source_file "x/y.txt" "hello") one_text_world)).
  assert (Hrun : writeFile "/w" (source_file "x/y.txt" "hello") one_text_world
                 = (w', None)) by (vm_compute; reflexivity).
  pose proof (writeFile_then_ReadFile "/w" (source_file "x/y.txt" "hello")
                one_text_world w' Hrun eq_refl) as Hread.
  cbv zeta in Hread. destruct Hread as (Hr & Hd).
  exists w'. split; [exact Hrun|]. split; [exact Hr | exact Hd].
Defined.

(** X10: [writeFile] is idempotent: writing the same file again after a
    successful write succeeds and leaves the tree exactly as it is. *)
Theorem writeFile_twice (buildRoot : string) (sourceFile : SourceFile)
    (w w' : World) :
  writeFile buildRoot sourceFile w = (w', None) ->
  writeFile buildRoot sourceFile w' = (w', None).
Proof.
  intros Hwrite.
  destruct (write_facts.writeFile_steps _ _ _ _ Hwrite) as (w1 & Hmk & Hwr).
  set (filePath := filepath.Join [buildRoot; Path sourceFile]) in *.
  pose proof (move_facts.MkdirAll_cwd _ _ _ _ Hmk) as Hcwd.
  destruct (write_facts.WriteFile_found _ _ _ _ Hwr) as (Hfault & Hparent & Hnode & Hw').
  set (key := os.resolve w1 filePath) in *.
  assert (Hchain : forall d,
            In d (rev (os.ancestors (os.resolve w (filepath.Dir filePath))) ++
                  [os.resolve w (filepath.Dir filePath)]) ->
            os.node_at w' d = Some Directory).
  { intros d Hd. pose proof (write_facts.mkdir_chain_made _ _ _ Hmk d Hd) as Hdir.
    subst w'. rewrite write_facts.node_at_insert_ne; [done|].
    intros ->. done. }
  unfold writeFile. fold filePath. unfold os.MkdirAll.
  assert (Hres : forall name, os.resolve w' name = os.resolve w1 name).
  { intros name. subst w'. apply os_facts.resolve_set_tree. }
  rewrite Hres, (move_facts.resolve_cwd w w1) by done.
  rewrite write_facts.mkdir_chain_nothing_to_do by done.
  unfold os.WriteFile, os.reach. rewrite Hres. fold key.
  assert (Hflt : fault w' = fault w1) by by subst w'.
  rewrite Hflt, Hfault.
  assert (Hparent' : os.parent_error w' key = None).
  { subst w'. unfold os.parent_error in *. by apply write_facts.search_insert_file. }
  rewrite Hparent'.
  assert (Hnode' : os.node_at w' key = Some (File (Content sourceFile))).
  { subst w'. unfold os.node_at in *. cbn [tree os.set_tree].
    destruct (String.eqb key "/"); [done|]. by rewrite lookup_insert_eq. }
  rewrite Hnode'. f_equal. subst w'. unfold os.set_tree. cbn [cwd tree fault].
  by rewrite insert_insert_eq.
Qed.

(** The file [a.txt] of the project, written twice with a new text. *)
Lemma writeFile_twice_witness :
  exists w',
    writeFile "/w" (source_file "a.txt" "new") one_text_world = (w', None) /\
    writeFile "/w" (source_file "a.txt" "new") w' = (w', None).
Proof.
  pose (w' := fst (writeFile "/w" (source_file "a.txt" "new") one_text_world)).
  assert (Hrun : writeFile "/w" (source_file "a.txt" "new") one_text_world
                 = (w', None)) by (vm_compute; reflexivity).
  pose proof (writeFile_twice "/w" (source_file "a.txt" "new") one_text_world w' Hrun)
    as Hagain.
  exists w'. split; [exact Hrun | exact Hagain].
Defined.

Module write_rest.

(** [writeFile] leaves every key but its own as it is, up to the
    directories it makes. *)
Lemma writeFile_rest (buildRoot : string) (sourceFile : SourceFile)
    (w : World) (key : string) (n : node) :
  key <> os.resolve w (filepath.Join [buildRoot; Path sourceFile]) ->
  (tree w !! key = Some n ->
   tree (fst (writeFile buildRoot sourceFile w)) !! key = Some n) /\
  (tree (fst (writeFile buildRoot sourceFile w)) !! key = Some n ->
   tree w !! key = Some n \/ n = Directory).
Proof.
  intros Hkey. unfold writeFile.
  set (filePath := filepath.Join [buildRoot; Path sourceFile]) in *.
  destruct (os.MkdirAll _ w) as [w1 [err|]] eqn:Hmk.
  - simpl. split.
    + by apply (write_facts.mkdir_chain_keeps _ _ _ _ Hmk).
    + by apply (write_facts.mkdir_chain_adds _ _ _ _ Hmk).
  - pose proof (move_facts.MkdirAll_cwd _ _ _ _ Hmk) as Hcwd.
    assert (Hsame : tree (fst (let (w2, o) := os.WriteFile filePath (Content sourceFile) w1 in
                               match o with
                               | Some err => (w2, Some (Errorf "failed to write file" err))
                               | None => (w2, None)
                               end)) !! key = tree w1 !! key).
    { destruct (os.WriteFile _ _ w1) as [w2 [err|]] eqn:Hwr.
      - unfold os.WriteFile in Hwr.
        destruct (os.reach _ _ _ _ _); [done|]. by injection Hwr as <- _.
      - apply move_facts.WriteFile_done in Hwr. subst w2. simpl.
        rewrite lookup_insert_ne; [done|].
        rewrite (move_facts.resolve_cwd w w1) by done. by intros <-. }
    rewrite Hsame. split.
    + by apply (write_facts.mkdir_chain_keeps _ _ _ _ Hmk).
    + by apply (write_facts.mkdir_chain_adds _ _ _ _ Hmk).
Qed.

Lemma writeFile_cwd (buildRoot : string) (sourceFile : SourceFile) (w : World) :
  cwd (fst (writeFile buildRoot sourceFile w)) = cwd w.
Proof.
  unfold writeFile.
  destruct (os.MkdirAll _ w) as [w1 [err|]] eqn:Hmk;
    pose proof (move_facts.MkdirAll_cwd _ _ _ _ Hmk) as Hcwd; [done|].
  destruct (os.WriteFile _ _ w1) as [w2 [err|]] eqn:Hwr; simpl.
  - unfold os.WriteFile in Hwr.
    destruct (os.reach _ _ _ _ _); [done|]. by injection Hwr as <- _.
  - apply move_facts.WriteFile_done in Hwr. by subst w2.
Qed.

End write_rest.

(** X11: [writeFile] touches one file only.  Whether it succeeds or fails,
    every other entry of the tree stays as it is, and what the tree gains
    besides the file itself are directories. *)
Theorem writeFile_leaves_the_rest (buildRoot : string) (sourceFile : SourceFile)
    (w : World) (key : string) (n : node) :
  key <> os.resolve w (filepath.Join [buildRoot; Path sourceFile]) ->
  (tree w !! key = Some n ->
   tree (fst (writeFile buildRoot sourceFile w)) !! key = Some n) /\
  (tree (fst (writeFile buildRoot sourceFile w)) !! key = Some n ->
   tree w !! key = Some n \/ n = Directory).
Proof. apply write_rest.writeFile_rest. Qed.

(** Writing [x/y.txt] leaves [a.txt] as it is. *)
Lemma writeFile_leaves_the_rest_witness :
  tree (fst (writeFile "/w" (source_file "x/y.txt" "hello") one_text_world))
    !! "/w/a.txt" = Some (File "x").
Proof.
  apply (proj1 (writeFile_leaves_the_rest "/w" (source_file "x/y.txt" "hello")
                  one_text_world "/w/a.txt" (File "x")
                  ltac:(vm_compute; discriminate))).
  vm_compute. reflexivity.
Defined.

(** ** Deleting files *)

Module remove_facts.

(** What a successful [os.Remove] found. *)
Lemma Remove_found (name : string) (w w' : World) :
  os.Remove name w = (w', None) ->
  fault w SysRemove (os.resolve w name) = None /\
  os.parent_error w (os.resolve w name) = None /\
  os.resolve w name <> "/" /\
  (tree w !! os.resolve w name = Some Directory ->
   os.children w (os.resolve w name) = []) /\
  is_Some (tree w !! os.resolve w name) /\
  w' = os.set_tree w (delete (os.resolve w name) (tree w)).
Proof.
  unfold os.Remove, os.reach.
  destruct (fault w SysRemove (os.resolve w name)); [done|].
  destruct (os.parent_error w (os.resolve w name)); [done|].
  destruct (String.eqb (os.resolve w name) "/") eqn:Eroot; [done|].
  apply String.eqb_neq in Eroot.
  destruct (tree w !! os.resolve w name) as [[content|]|]; try done.
  - by intros [= <-].
  - destruct (os.children w (os.resolve w name)); [|done]. by intros [= <-].
Qed.

(** What a failure of [os.Remove] that reads as "not found" means. *)
Lemma Remove_not_found (name : string) (w w' : World) (err : error) :
  os.Remove name w = (w', Some err) ->
  os.IsNotExist err = true ->
  fault w SysRemove (os.resolve w name) = None ->
  os.parent_error w (os.resolve w name) = Some ENOENT \/
  os.node_at w (os.resolve w name) = None.
Proof.
  unfold os.Remove, os.reach. intros Hrm Hne Hfault. rewrite Hfault in Hrm.
  destruct (os.parent_error w (os.resolve w name)) as [e|].
  - injection Hrm as _ <-. left. by destruct e.
  - right. unfold os.node_at.
    destruct (String.eqb (os.resolve w name) "/"); [by injection Hrm as _ <-|].
    destruct (tree w !! os.resolve w name) as [[content|]|]; [done| |done].
    destruct (os.children w (os.resolve w name)); [done|]. by injection Hrm as _ <-.
Qed.

(** Once a key is deleted, the lookup of a path finds its directories or
    misses one. *)
Lemma search_delete (w : World) (key : string) (chain : list string) :
  key <> "/" ->
  os.search w chain = None ->
  os.search (os.set_tree w (delete key (tree w))) chain = None \/
  os.search (os.set_tree w (delete key (tree w))) chain = Some ENOENT.
Proof.
  intros Hkey. induction chain as [|d chain IH]; simpl; [by left|].
  destruct (os.node_at w d) as [[content|]|] eqn:Ed; [done| |done].
  intros Hrest. unfold os.node_at in *. cbn [tree os.set_tree].
  destruct (String.eqb d "/") eqn:Eroot; [by apply IH|].
  destruct (decide (d = key)) as [->|Hne].
  - rewrite lookup_delete_eq. by right.
  - rewrite lookup_delete_ne by done. rewrite Ed. by apply IH.
Qed.

(** A path that cannot be looked up cannot be read. *)
Lemma ReadFile_fails (name : string) (w : World) :
  os.parent_error w (os.resolve w name) <> None \/
  os.node_at w (os.resolve w name) = None ->
  exists err, os.ReadFile name w = inr err.
Proof.
  intros Hmissing. unfold os.ReadFile, os.reach.
  destruct (fault w SysReadFile (os.resolve w name)); [by eexists|].
  destruct (os.parent_error w (os.resolve w name)); [by eexists|].
  destruct Hmissing as [? | ->]; [done | by eexists].
Qed.

(** Removing what was removed: not found, and nothing changes. *)
Lemma Remove_again (name : string) (w w' : World) :
  os.Remove name w = (w', None) ->
  os.Remove name w' = (w', Some (PathError "remove" name ENOENT)) /\
  (os.parent_error w' (os.resolve w' name) <> None \/
   os.node_at w' (os.resolve w' name) = None).
Proof.
  intros Hrm.
  destruct (Remove_found _ _ _ Hrm) as (Hfault & Hparent & Hroot & _ & _ & ->).
  set (key := os.resolve w name) in *.
  unfold os.Remove, os.reach. rewrite os_facts.resolve_set_tree. fold key.
  cbn [fault os.set_tree]. rewrite Hfault.
  unfold os.parent_error in *.
  destruct (search_delete w key (rev (os.ancestors key)) Hroot Hparent) as [E|E];
    rewrite E.
  - apply String.eqb_neq in Hroot. rewrite Hroot. cbn [tree os.set_tree].
    rewrite lookup_delete_eq. split; [done|]. right.
    unfold os.node_at. rewrite Hroot. cbn [tree os.set_tree].
    by rewrite lookup_delete_eq.
  - split; [done|]. by left.
Qed.

End remove_facts.

(** X12: a [Deleted] change can be applied again: after [apply_deleted]
    succeeded, applying the same change once more succeeds and leaves the
    tree as it is; and when the system injected no fault into the first
    removal, the file can no longer be read. *)
Theorem apply_deleted_twice (buildRoot : string) (result : Result)
    (before : SourceFile) (w w' : World) :
  let filePath := filepath.Join [buildRoot; Path before] in
  Before result = Some before ->
  apply_deleted buildRoot result w = (w', None) ->
  apply_deleted buildRoot result w' = (w', None) /\
  (fault w SysRemove (os.resolve w filePath) = None ->
   exists err, os.ReadFile filePath w' = inr err).
Proof.
  intros filePath Hbefore. unfold apply_deleted. rewrite Hbefore. fold filePath.
  destruct (os.Remove filePath w) as [w1 [err|]] eqn:Hrm.
  - destruct (os.IsNotExist err) eqn:Hne; simpl; [|done].
    intros [= <-]. pose proof (os_facts.Remove_failed _ _ _ _ Hrm) as ->.
    rewrite Hrm, Hne. simpl. split; [done|]. intros Hfault.
    apply remove_facts.ReadFile_fails.
    destruct (remove_facts.Remove_not_found _ _ _ _ Hrm Hne Hfault) as [E|E];
      [left; by rewrite E | by right].
  - intros [= <-].
    destruct (remove_facts.Remove_again _ _ _ Hrm) as (Hagain & Hmissing).
    rewrite Hagain. simpl. split; [done|]. intros _.
    by apply remove_facts.ReadFile_fails.
Qed.

(** The file [a.txt] of the project, deleted twice. *)
Lemma apply_deleted_twice_witness :
  exists w',
    apply_deleted "/w" (change (Some (source_file "a.txt" "x")) None) one_text_world
    = (w', None) /\
    apply_deleted "/w" (change (Some (source_file "a.txt" "x")) None) w' = (w', None) /\
    exists err, os.ReadFile (filepath.Join ["/w"; "a.txt"]) w' = inr err.
Proof.
  pose (w' := fst (apply_deleted "/w" (change (Some (source_file "a.txt" "x")) None)
                     one_text_world)).
  assert (Hrun : apply_deleted "/w" (change (Some (source_file "a.txt" "x")) None)
                   one_text_world = (w', None)) by (vm_compute; reflexivity).
  pose proof (apply_deleted_twice "/w" (change (Some (source_file "a.txt" "x")) None)
                (source_file "a.txt" "x") one_text_world w' eq_refl Hrun) as Htwice.
  cbv zeta in Htwice. destruct Htwice as (Hagain & Hgone).
  exists w'. split; [exact Hrun|]. split; [exact Hagain|].
  apply Hgone. reflexivity.
Defined.

(** ** What the pruning pass leaves alone *)

Module prune_facts.

Lemma children_elem (w : World) (dir key : string) (n : node) :
  tree w !! key = Some n -> os.is_child dir key = true -> key ∈ os.children w dir.
Proof.
  intros Hkey Hchild. unfold os.children. apply list_elem_of_filter. split; [done|].
  apply list_elem_of_fmap. exists (key, n). split; [done|].
  by apply elem_of_map_to_list.
Qed.

(** [isEmptyDir] answers [true] for a directory with zero entries only. *)
Lemma isEmptyDir_true (w : World) (dir : string) :
  isEmptyDir dir w = true ->
  os.node_at w (os.resolve w dir) = Some Directory /\
  os.children w (os.resolve w dir) = [].
Proof.
  unfold isEmptyDir, os.ReadDir, os.reach.
  destruct (fault w SysReadDir (os.resolve w dir)); [done|].
  destruct (os.parent_error w (os.resolve w dir)); [done|].
  destruct (os.node_at w (os.resolve w dir)) as [[content|]|]; try done.
  rewrite os_facts.merge_sort_length, length_fmap, Nat.eqb_eq.
  intros Hlen. split; [done|]. by apply nil_length_inv.
Qed.

Lemma anchored_in_tree (w : World) (key : string) :
  anchored w key -> is_Some (tree w !! key).
Proof. by intros [k content Hk|k child Hk _ _]. Qed.

(** Taking a directory without entries out of the tree keeps every
    anchored key. *)
Lemma anchored_without (w : World) (gone key : string) :
  tree w !! gone = Some Directory ->
  os.children w gone = [] ->
  anchored w key ->
  key <> gone /\ anchored (os.set_tree w (delete gone (tree w))) key.
Proof.
  intros Hgone Hchildren Hkey.
  induction Hkey as [key content Hfile|key child Hdir Hchild Hanch (Hne & IH)].
  - assert (key <> gone) by congruence. split; [done|].
    apply (anchored_file _ key content). simpl. by rewrite lookup_delete_ne.
  - assert (Hkey : key <> gone).
    { intros ->. destruct (anchored_in_tree _ _ Hanch) as (n & Hn).
      pose proof (children_elem w gone child n Hn Hchild) as Hin.
      rewrite Hchildren in Hin. by apply elem_of_nil in Hin. }
    split; [done|].
    apply (anchored_directory _ key child); [|done|done].
    simpl. by rewrite lookup_delete_ne.
Qed.

(** One turn of the loop: the tree is as before, or lost a directory
    without entries. *)
Lemma remove_empty_turn (dir : string) (w : World) :
  let w1 := if isEmptyDir dir w then fst (os.Remove dir w) else w in
  w1 = w \/
  (tree w !! os.resolve w dir = Some Directory /\
   os.children w (os.resolve w dir) = [] /\
   w1 = os.set_tree w (delete (os.resolve w dir) (tree w))).
Proof.
  cbv zeta. destruct (isEmptyDir dir w) eqn:Hempty; [|by left].
  destruct (os.Remove dir w) as [w1 [err|]] eqn:Hrm; simpl.
  - left. by apply (os_facts.Remove_failed _ _ _ _ Hrm).
  - right. apply isEmptyDir_true in Hempty as (Hnode & Hchildren).
    destruct (remove_facts.Remove_found _ _ _ Hrm) as (_ & _ & Hroot & _ & _ & ->).
    rewrite os_facts.node_at_tree in Hnode by done. done.
Qed.

Lemma remove_empty_unfold (dir : string) (rest : list string) (w : World)
    (removedDirs : list string) :
  exists removedDirs',
    remove_empty (dir :: rest) w removedDirs
    = remove_empty rest (if isEmptyDir dir w then fst (os.Remove dir w) else w)
        removedDirs' /\
    (forall d, In d removedDirs' -> In d removedDirs \/ d = dir).
Proof.
  simpl. destruct (isEmptyDir dir w).
  - destruct (os.Remove dir w) as [w1 [err|]]; simpl.
    + exists removedDirs. split; [done|]. by left.
    + exists (removedDirs ++ [dir]). split; [done|].
      intros d [?|[<-|[]]]%in_app_or; [by left | by right].
  - exists removedDirs. split; [done|]. by left.
Qed.

(** The loop of the pass only takes directories without entries out of the
    tree, and only candidates. *)
Lemma remove_empty_safe (sortedDirs : list string) (w : World)
    (removedDirs : list string) :
  let w' := fst (remove_empty sortedDirs w removedDirs) in
  cwd w' = cwd w /\ fault w' = fault w /\
  (forall key n, tree w' !! key = Some n -> tree w !! key = Some n) /\
  (forall key, anchored w key -> anchored w' key /\ tree w' !! key = tree w !! key) /\
  (forall d, In d (snd (remove_empty sortedDirs w removedDirs)) ->
             In d removedDirs \/ In d sortedDirs).
Proof.
  revert w removedDirs; induction sortedDirs as [|dir rest IH]; intros w removedDirs.
  - simpl. repeat split; auto.
  - destruct (remove_empty_unfold dir rest w removedDirs) as (acc & -> & Hacc).
    specialize (IH (if isEmptyDir dir w then fst (os.Remove dir w) else w) acc).
    cbv zeta in IH. destruct IH as (Hcwd & Hfault & Hsub & Hanch & Hrem).
    cbv zeta.
    assert (Hlast : forall d,
              In d (snd (remove_empty rest
                           (if isEmptyDir dir w then fst (os.Remove dir w) else w) acc)) ->
              In d removedDirs \/ In d (dir :: rest)).
    { intros d Hd. destruct (Hrem d Hd) as [Hd'|Hd']; [|right; by right].
      destruct (Hacc d Hd') as [? | ->]; [by left | right; by left]. }
    destruct (remove_empty_turn dir w) as [E|(Hdir & Hchildren & E)];
      cbv zeta in E; rewrite E in *.
    + done.
    + split; [done|]. split; [done|]. split; [|split; [|done]].
      * intros key n Hkey. apply Hsub in Hkey. simpl in Hkey.
        apply lookup_delete_Some in Hkey as (_ & ?). done.
      * intros key Hkey.
        destruct (anchored_without w _ key Hdir Hchildren Hkey) as (Hne & Hkey').
        destruct (Hanch key Hkey') as (? & Hlook). split; [done|].
        rewrite Hlook. simpl. by rewrite lookup_delete_ne.
Qed.

End prune_facts.

(** X13: the pruning pass is safe.  Whatever candidates it is given and in
    whatever order, and whatever the system refuses, the tree after
    [cleanupEmptyDirectories] has lost nothing but directories: everything
    it holds was there before, every file is still there with its content,
    and so is every directory with a file somewhere below it.  The
    directories it reports as removed are candidates. *)
Theorem cleanupEmptyDirectories_only_loses_empty_directories
    (range_keys : list string -> list string) (buildRoot : string)
    (results : ResultsContainer) (w : World) :
  let w' := fst (cleanupEmptyDirectories range_keys buildRoot results w) in
  (forall key n, tree w' !! key = Some n -> tree w !! key = Some n) /\
  (forall key content,
     tree w !! key = Some (File content) -> tree w' !! key = Some (File content)) /\
  (forall key, anchored w key -> tree w' !! key = tree w !! key) /\
  (forall dir,
     In dir (snd (prune range_keys buildRoot results w)) ->
     In dir (range_keys (candidateDirs buildRoot results))) /\
  snd (cleanupEmptyDirectories range_keys buildRoot results w) = None.
Proof.
  unfold cleanupEmptyDirectories, prune. cbn [fst snd].
  pose proof (prune_facts.remove_empty_safe
                (sort_by_depth (range_keys (candidateDirs buildRoot results))) w [])
    as Hsafe.
  cbv zeta in Hsafe. destruct Hsafe as (_ & _ & Hsub & Hanch & Hrem).
  cbv zeta. split; [exact Hsub|]. split; [|split; [|split; [|done]]].
  - intros key content Hkey.
    destruct (Hanch key (anchored_file w key content Hkey)) as (_ & ->). done.
  - intros key Hkey. by destruct (Hanch key Hkey).
  - intros dir Hdir. destruct (Hrem dir Hdir) as [[]|Hin].
    eapply Permutation_in; [apply sort_facts.sort_by_depth_perm | done].
Qed.

Lemma writes_only_unpruned (range_keys : list string -> list string)
    (results : ResultsContainer) (w : World) :
  ranges_over_keys range_keys ->
  writes_only results ->
  applyChanges range_keys results w = apply_buckets results w.
Proof.
  intros Hrange (Hd & Hm). unfold applyChanges.
  destruct (apply_buckets results w) as [w1 [err|]]; [done|].
  unfold cleanupEmptyDirectories, prune, candidateDirs. rewrite Hd, Hm. simpl.
  assert (Hnone : range_keys [] = []).
  { destruct (range_keys []) as [|x l] eqn:E; [done|].
    destruct (Hrange []) as (_ & Hin). rewrite E in Hin.
    destruct (proj1 (Hin x) (or_introl eq_refl)). }
  by rewrite Hnone.
Qed.

(** X14: without deletions and moves nothing is pruned: the outcome of
    [applyChanges] is that of its four loops. *)
Theorem applyChanges_without_deletions_prunes_nothing
    (range_keys : list string -> list string) (results : ResultsContainer)
    (w : World) :
  ranges_over_keys range_keys ->
  writes_only results ->
  applyChanges range_keys results w = apply_buckets results w.
Proof. apply writes_only_unpruned. Qed.

(** One generated file: the tree is that of the write. *)
Lemma applyChanges_without_deletions_prunes_nothing_witness :
  applyChanges remove_dups
    {| Generated := [change None (Some (source_file "x/y.txt" "hello"))];
       Deleted := []; Moved := []; RefactoredInPlace := [];
       ProjectRoot := "/w"; FirstException := None |} one_text_world
  = apply_buckets
      {| Generated := [change None (Some (source_file "x/y.txt" "hello"))];
         Deleted := []; Moved := []; RefactoredInPlace := [];
         ProjectRoot := "/w"; FirstException := None |} one_text_world.
Proof.
  apply (applyChanges_without_deletions_prunes_nothing remove_dups).
  - exact remove_dups_ranges_over_keys.
  - split; reflexivity.
Defined.

(** ** What discovery lists *)

Module find_facts.

Ltac settle :=
  simpl; rewrite ?app_nil_r; repeat split; intros; try done; try congruence.

(** One call of the callback: the path is appended exactly when it passes
    the tests; an error leaves the list as it is. *)
Lemma visit_file_listed `{UnicodeTables} (r : Rewriter) (rootDir : string)
    (v : visit) (sourceFiles : list string) :
  let step := visit_file r rootDir (GetExclusions (RewriterConfig r))
                (GetPlainTextMasks (RewriterConfig r)) v sourceFiles in
  (snd step = None ->
   fst step = sourceFiles ++ (if listed r rootDir v then [visit_path v] else [])) /\
  (snd step <> None -> fst step = sourceFiles) /\
  (fst step <> sourceFiles ->
   listed r rootDir v = true /\ visit_err v = None /\
   snd (filepath.Rel rootDir (visit_path v)) = None) /\
  (visit_err v = None -> snd (filepath.Rel rootDir (visit_path v)) = None ->
   snd step = None).
Proof.
  cbv zeta. unfold visit_file, listed.
  destruct (visit_err v) as [err|]; [by settle|].
  destruct (visit_info v) as [info|]; [|by settle].
  destruct (IsDir info); [by settle|].
  destruct (_ <? _)%Z; [by settle|].
  destruct (filepath.Rel rootDir (visit_path v)) as [relPath [err|]]; [by settle|].
  cbn [fst snd negb andb].
  destruct (matchesPatterns relPath (GetExclusions _)); [by settle|].
  destruct (matchesPatterns relPath (GetPlainTextMasks _) || isSourceFile relPath);
    by settle.
Qed.

End find_facts.

(** X15: everything [FindSourceFiles] returns, with or without an error,
    is the path of a file that the walk reached without failure and that
    passes the tests: a regular file, not above the size threshold, whose
    path relative to the root matches no exclusion and matches a
    plain-text mask or has a source extension.  An excluded file is never
    returned, whatever its extension. *)
Theorem FindSourceFiles_lists_only_what_passes `{UnicodeTables}
    (r : Rewriter) (rootDir : string) (w : World) (path : string) :
  In path (fst (FindSourceFiles r rootDir w)) ->
  exists v,
    In v (walker.visits rootDir w) /\ visit_path v = path /\
    visit_err v = None /\ listed r rootDir v = true /\
    matchesPatterns (fst (filepath.Rel rootDir path))
      (GetExclusions (RewriterConfig r)) = false.
Proof.
  unfold FindSourceFiles, walker.Walk.
  assert (Hloop : forall vs acc,
            In path (fst (walker.Walk_loop
                            (visit_file r rootDir (GetExclusions (RewriterConfig r))
                               (GetPlainTextMasks (RewriterConfig r))) vs acc)) ->
            In path acc \/
            exists v, In v vs /\ visit_path v = path /\ visit_err v = None /\
                      listed r rootDir v = true).
  { induction vs as [|v vs IH]; intros acc; simpl; [by left|].
    pose proof (find_facts.visit_file_listed r rootDir v acc) as Hstep.
    cbv zeta in Hstep. destruct Hstep as (Hok & Hfail & Hchanged & _).
    destruct (visit_file _ _ _ _ v acc) as [acc' [err|]].
    - simpl in *. intros Hin. left. by rewrite <- Hfail.
    - simpl in *. intros Hin. apply IH in Hin as [Hin|(v' & Hv' & Hrest)].
      + rewrite Hok in Hin by done. apply in_app_or in Hin as [?|Hin]; [by left|].
        right. exists v. destruct (listed r rootDir v) eqn:El; [|done].
        destruct Hin as [<-|[]]. split; [by left|]. split; [done|].
        destruct Hchanged as (_ & ? & _); [|done].
        rewrite Hok by done. intros E. apply (f_equal length) in E.
        rewrite length_app in E. simpl in E. lia.
      + right. exists v'. split; [by right | done]. }
  intros Hin. apply Hloop in Hin as [[]|(v & Hv & Hpath & Herr & Hlisted)].
  exists v. repeat (split; [done|]). subst path.
  unfold listed in Hlisted. destruct (visit_info v); [|done].
  apply andb_true_iff in Hlisted as (_ & Hrel). cbv zeta in Hrel.
  apply andb_true_iff in Hrel as (Hex & _). by apply negb_true_iff in Hex.
Qed.

(** In the project with [Main.JAVA], the file listed passes the tests. *)
Lemma FindSourceFiles_lists_only_what_passes_witness :
  exists v,
    In v (walker.visits "/w" upper_case_world) /\ visit_path v = "/w/Main.JAVA" /\
    visit_err v = None /\ @listed ascii_only plain_rewriter "/w" v = true /\
    matchesPatterns (fst (filepath.Rel "/w" "/w/Main.JAVA"))
      (@GetExclusions ascii_only (RewriterConfig plain_rewriter)) = false.
Proof.
  apply (@FindSourceFiles_lists_only_what_passes ascii_only plain_rewriter "/w"
           upper_case_world "/w/Main.JAVA").
  vm_compute. by left.
Defined.

(** X16: when the walk meets no failure, [FindSourceFiles] succeeds and
    returns exactly the visited paths that pass the tests, in the order of
    the walk. *)
Theorem FindSourceFiles_lists_all_that_pass `{UnicodeTables}
    (r : Rewriter) (rootDir : string) (w : World) :
  (forall v, In v (walker.visits rootDir w) ->
             visit_err v = None /\
             snd (filepath.Rel rootDir (visit_path v)) = None) ->
  FindSourceFiles r rootDir w
  = (visit_path <$> List.filter (listed r rootDir) (walker.visits rootDir w), None).
Proof.
  unfold FindSourceFiles, walker.Walk. intros Hcalm.
  assert (Hloop : forall vs acc,
            (forall v, In v vs ->
                       visit_err v = None /\
                       snd (filepath.Rel rootDir (visit_path v)) = None) ->
            walker.Walk_loop
              (visit_file r rootDir (GetExclusions (RewriterConfig r))
                 (GetPlainTextMasks (RewriterConfig r))) vs acc
            = (acc ++ (visit_path <$> List.filter (listed r rootDir) vs), None)).
  { induction vs as [|v vs IH]; intros acc Hvs; simpl; [by rewrite app_nil_r|].
    pose proof (find_facts.visit_file_listed r rootDir v acc) as Hstep.
    cbv zeta in Hstep. destruct Hstep as (Hok & _ & _ & Hnone).
    destruct (Hvs v (or_introl eq_refl)) as (Herr & Hrel).
    specialize (Hnone Herr Hrel).
    destruct (visit_file _ _ _ _ v acc) as [acc' [err|]]; [done|].
    simpl in Hok. rewrite Hok by done.
    rewrite IH by (intros; apply Hvs; by right).
    destruct (listed r rootDir v); simpl.
    - by rewrite <- List.app_assoc.
    - by rewrite app_nil_r. }
  by rewrite Hloop.
Qed.

(** The project with [Main.JAVA]: the walk meets no failure. *)
Lemma FindSourceFiles_lists_all_that_pass_witness :
  @FindSourceFiles ascii_only plain_rewriter "/w" upper_case_world
  = (visit_path <$> List.filter (@listed ascii_only plain_rewriter "/w")
                      (walker.visits "/w" upper_case_world), None).
Proof.
  apply (@FindSourceFiles_lists_all_that_pass ascii_only plain_rewriter "/w"
           upper_case_world).
  intros v Hv. vm_compute in Hv.
  destruct Hv as [<-|[<-|[]]]; vm_compute; split; reflexivity.
Defined.

(** ** Patterns without metacharacters *)

Module literal_facts.
Import GoString strings string_facts match_facts filepath.

Lemma literal_no_stars (P : string) : literal P = true -> Contains P "**" = false.
Proof.
  intros HP. unfold Contains.
  assert (Index P "**" = None) as ->; [|done].
  induction P as [|c P IH]; [done|].
  apply literal_cons in HP as [Hc HP].
  apply glob_byte_false in Hc as (Hstar & _).
  change (Index (String c P) "**")
    with (if HasPrefix (String c P) "**" then Some 0 else S <$> Index P "**").
  change (HasPrefix (String c P) "**") with (byte_eq "*" c && HasPrefix P "*").
  assert (byte_eq "*" c = false) as ->.
  { unfold byte_eq in *. by rewrite Ascii.eqb_sym. }
  cbn [andb]. by rewrite IH.
Qed.

Lemma scanChunk_literal (P : string) :
  literal P = true -> scanChunk P = (false, P, "").
Proof.
  intros HP. unfold scanChunk. by rewrite skip_stars_literal, scan_literal_end.
Qed.

(** A pattern without metacharacters matches itself and nothing else. *)
Lemma Match_literal (P name : string) :
  literal P = true -> fst (Match P name) = true <-> name = P.
Proof.
  intros HP. unfold Match. destruct P as [|c P].
  - simpl. apply is_empty_true.
  - change (len (String c P)) with (S (len P)).
    rewrite Match_loop_step, scanChunk_literal by done.
    cbv zeta. rewrite matchChunk_literal by done.
    set (t := from (len (String c P)) name).
    change (is_empty "") with true. cbn [andb negb].
    destruct (HasPrefix name (String c P)) eqn:Hpre.
    + rewrite orb_false_r.
      destruct (is_empty t) eqn:Hrest.
      * rewrite Match_loop_done, Hrest. cbn [fst]. split; [intros _|done].
        apply is_empty_true in Hrest. subst t.
        rewrite (HasPrefix_from _ _ Hpre), Hrest. apply app_empty_r.
      * cbn [fst]. split; [done|]. intros E. subst t. rewrite E in Hrest.
        rewrite <- (app_empty_r (String c P)) in Hrest at 2.
        by rewrite from_app in Hrest.
    + cbn [fst]. split; [done|]. intros ->.
      pose proof (HasPrefix_app (String c P) "") as Hself.
      rewrite app_empty_r in Hself. congruence.
Qed.

Lemma matchesPattern_literal (path pattern : string) :
  literal pattern = true -> matchesPattern path pattern = true <-> path = pattern.
Proof.
  intros HP. unfold matchesPattern. rewrite (literal_no_stars _ HP).
  pose proof (Match_literal pattern path HP) as Hm.
  destruct (fst (Match pattern path)); [tauto|]. split; [done|]. intros E.
  by apply Hm in E.
Qed.

End literal_facts.

(** X17: patterns without the metacharacters of [filepath.Match] (star,
    question mark, bracket, backslash) stand for one path each:
    [matchesPatterns] accepts a path exactly when it is one of the patterns,
    byte for byte; a directory name as a pattern covers nothing below the
    directory. *)
Theorem matchesPatterns_of_literals (path : string) (patterns : list string) :
  (forall pattern, In pattern patterns -> literal pattern = true) ->
  matchesPatterns path patterns = true <-> In path patterns.
Proof.
  induction patterns as [|pattern rest IH]; intros Hlit; simpl; [done|].
  pose proof (literal_facts.matchesPattern_literal path pattern
                (Hlit pattern (or_introl eq_refl))) as Hone.
  destruct (matchesPattern path pattern).
  - split; [|done]. intros _. left. symmetry. by apply Hone.
  - rewrite IH by (intros; apply Hlit; by right). split; [by right|].
    intros [E|?]; [|done]. symmetry in E. apply Hone in E. done.
Qed.

(** The exclusion [target] does not exclude [target/classes/A.class]. *)
Lemma matchesPatterns_of_literals_witness :
  matchesPatterns "target/classes/A.class" ["target"; "pom.xml"] = false /\
  matchesPatterns "pom.xml" ["target"; "pom.xml"] = true.
Proof.
  pose proof (matchesPatterns_of_literals "target/classes/A.class"
                ["target"; "pom.xml"]) as Hbelow.
  pose proof (matchesPatterns_of_literals "pom.xml" ["target"; "pom.xml"]) as Hpom.
  assert (Hlit : forall pattern, In pattern ["target"; "pom.xml"] ->
                                 literal pattern = true).
  { intros pattern [<-|[<-|[]]]; reflexivity. }
  split.
  - destruct (matchesPatterns "target/classes/A.class" ["target"; "pom.xml"]);
      [|reflexivity].
    destruct (proj1 (Hbelow Hlit) eq_refl) as [E|[E|[]]]; discriminate E.
  - apply (proj2 (Hpom Hlit)). right. by left.
Defined.

(** ** The build root *)

Module root_facts.
Import GoString strings string_facts filepath.

Lemma Clean_rooted (path : string) :
  HasPrefix path sep = true -> HasPrefix (Clean path) sep = true.
Proof.
  intros Hroot. unfold Clean. rewrite Hroot.
  destruct (is_empty path) eqn:E; [by destruct path|].
  destruct (foldl _ _ _) as [out dotdot]. apply HasPrefix_app.
Qed.

Lemma Join_rooted (dir name : string) :
  HasPrefix dir sep = true -> HasPrefix (Join [dir; name]) sep = true.
Proof.
  intros Hroot. simpl. destruct (is_empty dir) eqn:E; [by destruct dir|].
  apply Clean_rooted. apply HasPrefix_spec in Hroot as [t ->].
  rewrite app_assoc. apply HasPrefix_app.
Qed.

End root_facts.

(** X18: [GetBuildRoot] fails exactly when it needs the working directory
    and [os.Getwd] fails; an absolute [BaseDir] is cleaned without asking
    for it.  The failure is the error of [os.Getwd], wrapped.  When
    [GetBuildRoot] succeeds on a system whose working directory is an
    absolute path, the build root is an absolute path, for a relative, an
    absolute and an empty [BaseDir] alike. *)
Theorem GetBuildRoot_is_absolute (r : Rewriter) (w : World) :
  filepath.IsAbs (cwd w) = true ->
  (snd (GetBuildRoot r w) = None <->
   filepath.IsAbs (BaseDir r) = true \/ fault w SysGetwd (cwd w) = None) /\
  (snd (GetBuildRoot r w) = None ->
   filepath.IsAbs (fst (GetBuildRoot r w)) = true) /\
  (forall err,
     snd (GetBuildRoot r w) = Some err ->
     exists msg e,
       fault w SysGetwd (cwd w) = Some e /\
       GetBuildRoot r w = ("", Some (Errorf msg (SyscallError "getwd" e)))).
Proof.
  intros Hcwd. unfold GetBuildRoot, Abs, os.Getwd, filepath.IsAbs in *.
  destruct (negb (String.eqb (BaseDir r) "")) eqn:Ebase.
  - destruct (strings.HasPrefix (BaseDir r) filepath.sep) eqn:Habs.
    + simpl. split; [split; auto|]. split; [|done].
      intros _. by apply root_facts.Clean_rooted.
    + destruct (fault w SysGetwd (cwd w)) as [e|]; simpl.
      * split; [split; [done | by intros [?|?]]|]. split; [done|].
        intros err _. by eexists _, e.
      * split; [split; auto|]. split; [|done].
        intros _. by apply root_facts.Join_rooted.
  - apply negb_false_iff, String.eqb_eq in Ebase. rewrite Ebase. simpl.
    destruct (fault w SysGetwd (cwd w)) as [e|]; simpl.
    + split; [split; [done | by intros [?|?]]|]. split; [done|].
      intros err _. by eexists _, e.
    + split; [split; auto|]. by split.
Qed.

(** The relative base directory [sub/project] below [/w]. *)
Lemma GetBuildRoot_is_absolute_witness :
  snd (GetBuildRoot {| RewriterConfig := default_config;
                       RewriterEnvironment := None;
                       BaseDir := "sub/project" |} one_text_world) = None /\
  filepath.IsAbs
    (fst (GetBuildRoot {| RewriterConfig := default_config;
                          RewriterEnvironment := None;
                          BaseDir := "sub/project" |} one_text_world)) = true.
Proof.
  pose proof (GetBuildRoot_is_absolute
                {| RewriterConfig := default_config; RewriterEnvironment := None;
                   BaseDir := "sub/project" |} one_text_world eq_refl)
    as (Hiff & Habs & _).
  assert (Hok : snd (GetBuildRoot {| RewriterConfig := default_config;
                                     RewriterEnvironment := None;
                                     BaseDir := "sub/project" |} one_text_world)
                = None).
  { apply Hiff. right. reflexivity. }
  split; [exact Hok | exact (Habs Hok)].
Defined.

(** ** The plain-text masks of a default configuration *)

(** X19: [GetPlainTextMasks] adds the additional masks to the defaults only
    when the configured masks are empty.  [NewDefaultConfig] fills the
    configured masks with the defaults, so a configuration that starts from
    it and sets additional masks (and any exclusions, threshold and skip
    flag) gets the default masks alone: the additional masks are ignored. *)
Theorem additional_masks_are_ignored_by_default (c : Config) :
  (PlainTextMasks c <> [] -> GetPlainTextMasks c = PlainTextMasks c) /\
  (PlainTextMasks c = [] ->
   GetPlainTextMasks c = getDefaultPlainTextMasks ++ AdditionalPlainTextMasks c) /\
  GetPlainTextMasks
    {| Skip := Skip c; Exclusions := Exclusions c;
       PlainTextMasks := PlainTextMasks NewDefaultConfig;
       AdditionalPlainTextMasks := AdditionalPlainTextMasks c;
       SizeThresholdMb := SizeThresholdMb c |}
  = getDefaultPlainTextMasks.
Proof.
  unfold GetPlainTextMasks. split; [|split].
  - by destruct (PlainTextMasks c).
  - by intros ->.
  - reflexivity.
Qed.

(** ** The edits on disk *)

Module edit_facts.

Lemma Remove_cwd (name : string) (w : World) : cwd (fst (os.Remove name w)) = cwd w.
Proof.
  destruct (os.Remove name w) as [w' [err|]] eqn:Hrm; simpl.
  - by rewrite (os_facts.Remove_failed _ _ _ _ Hrm).
  - by rewrite (move_facts.Remove_done _ _ _ Hrm).
Qed.

Lemma Rename_cwd (oldpath newpath : string) (w : World) :
  cwd (fst (os.Rename oldpath newpath w)) = cwd w.
Proof.
  destruct (os.Rename oldpath newpath w) as [w' [err|]] eqn:Hrn; simpl.
  - by rewrite (move_facts.Rename_failed _ _ _ _ _ Hrn).
  - revert Hrn. unfold os.Rename. repeat case_match; by intros [= <-].
Qed.

Lemma apply_generated_cwd (buildRoot : string) (result : Result) (w : World) :
  cwd (fst (apply_generated buildRoot result w)) = cwd w.
Proof.
  unfold apply_generated. destruct (After result) as [after|]; [|done].
  pose proof (write_rest.writeFile_cwd buildRoot after w) as Hcwd.
  by destruct (writeFile buildRoot after w) as [w' [err|]].
Qed.

Lemma apply_refactored_cwd (buildRoot : string) (result : Result) (w : World) :
  cwd (fst (apply_refactored buildRoot result w)) = cwd w.
Proof.
  unfold apply_refactored. destruct (After result) as [after|]; [|done].
  pose proof (write_rest.writeFile_cwd buildRoot after w) as Hcwd.
  by destruct (writeFile buildRoot after w) as [w' [err|]].
Qed.

Lemma apply_deleted_cwd (buildRoot : string) (result : Result) (w : World) :
  cwd (fst (apply_deleted buildRoot result w)) = cwd w.
Proof.
  unfold apply_deleted. destruct (Before result) as [before|]; [|done].
  pose proof (Remove_cwd (filepath.Join [buildRoot; Path before]) w) as Hcwd.
  destruct (os.Remove _ w) as [w' [err|]]; [|done].
  by destruct (negb (os.IsNotExist err)).
Qed.

Lemma apply_moved_cwd (buildRoot : string) (result : Result) (w : World) :
  cwd (fst (apply_moved buildRoot result w)) = cwd w.
Proof.
  unfold apply_moved.
  destruct (Before result) as [before|]; [|done].
  destruct (After result) as [after|]; [|done].
  destruct (os.MkdirAll _ w) as [w1 [err|]] eqn:Hmk;
    pose proof (move_facts.MkdirAll_cwd _ _ _ _ Hmk) as Hcwd1; [done|].
  pose proof (Rename_cwd (filepath.Join [buildRoot; Path before])
                (filepath.Join [buildRoot; Path after]) w1) as Hcwd2.
  destruct (os.Rename _ _ w1) as [w2 [err|]]; simpl in Hcwd2;
    [|simpl; congruence].
  pose proof (write_rest.writeFile_cwd buildRoot after w2) as Hcwd3.
  destruct (writeFile buildRoot after w2) as [w3 [err'|]]; simpl in Hcwd3;
    [simpl; congruence|].
  pose proof (Remove_cwd (filepath.Join [buildRoot; Path before]) w3) as Hcwd4.
  destruct (os.Remove _ w3) as [w4 [err'|]]; simpl in Hcwd4.
  - destruct (negb (os.IsNotExist err')); simpl; congruence.
  - simpl. congruence.
Qed.

Lemma for_each_cwd {A : Type} (body : A -> World -> World * option error)
    (l : list A) (w : World) :
  (forall x w0, cwd (fst (body x w0)) = cwd w0) ->
  cwd (fst (for_each body l w)) = cwd w.
Proof.
  intros Hbody. revert w; induction l as [|x l IH]; intros w; simpl; [done|].
  pose proof (Hbody x w) as Hx.
  destruct (body x w) as [w' [err|]]; simpl in Hx; [done|]. by rewrite IH.
Qed.

Lemma written_keys_cwd (buildRoot : string) (w w' : World) (l : list Result) :
  cwd w' = cwd w -> written_keys buildRoot w' l = written_keys buildRoot w l.
Proof.
  intros Hcwd. induction l as [|x l IH]; simpl; [done|].
  rewrite IH. destruct (After x) as [after|]; [|done].
  by rewrite (move_facts.resolve_cwd w w').
Qed.

(** The loop over [RefactoredInPlace] leaves alone what it does not write. *)
Lemma refactored_rest (buildRoot : string) (l : list Result) (w : World)
    (key : string) (n : node) :
  ~ In key (written_keys buildRoot w l) ->
  tree w !! key = Some n ->
  tree (fst (for_each (apply_refactored buildRoot) l w)) !! key = Some n.
Proof.
  revert w; induction l as [|x l IH]; intros w Hkey Hn; simpl; [done|].
  simpl in Hkey.
  pose proof (apply_refactored_cwd buildRoot x w) as Hcwd.
  assert (Hx : tree (fst (apply_refactored buildRoot x w)) !! key = Some n).
  { unfold apply_refactored. destruct (After x) as [after|]; [|done].
    assert (Hne : key <> os.resolve w (filepath.Join [buildRoot; Path after])).
    { intros ->. apply Hkey. by left. }
    pose proof (proj1 (write_rest.writeFile_rest buildRoot after w key n Hne) Hn).
    by destruct (writeFile buildRoot after w) as [w' [err|]]. }
  destruct (apply_refactored buildRoot x w) as [w1 [err|]]; simpl in *; [done|].
  apply IH; [|done]. rewrite (written_keys_cwd buildRoot w w1) by done.
  intros Hin. apply Hkey. apply in_or_app. by right.
Qed.

(** Each file of the loop holds its new content at the end. *)
Lemma refactored_written (buildRoot : string) (l : list Result) (w w' : World) :
  for_each (apply_refactored buildRoot) l w = (w', None) ->
  NoDup (written_keys buildRoot w l) ->
  forall result after,
    In result l -> After result = Some after ->
    tree w' !! os.resolve w (filepath.Join [buildRoot; Path after])
    = Some (File (Content after)).
Proof.
  revert w; induction l as [|x l IH]; intros w Hrun Hnd result after Hin Hafter;
    [destruct Hin|].
  simpl in Hrun.
  pose proof (apply_refactored_cwd buildRoot x w) as Hcwd.
  destruct (apply_refactored buildRoot x w) as [w1 [err|]] eqn:Hx; [done|].
  simpl in Hcwd. simpl in Hnd.
  destruct Hin as [<-|Hin].
  - unfold apply_refactored in Hx. rewrite Hafter in Hx. rewrite Hafter in Hnd.
    destruct (writeFile buildRoot after w) as [w2 [err|]] eqn:Hwrite; [done|].
    injection Hx as ->.
    destruct (move_facts.writeFile_done _ _ _ _ Hwrite) as (_ & Hheld).
    simpl in Hnd. apply NoDup_cons in Hnd as (Hfresh & _).
    pose proof (refactored_rest buildRoot l w1
                  (os.resolve w (filepath.Join [buildRoot; Path after]))
                  (File (Content after))) as Hrest.
    rewrite Hrun in Hrest. apply Hrest; [|done].
    rewrite (written_keys_cwd buildRoot w w1) by done.
    by rewrite <- list_elem_of_In.
  - rewrite <- (move_facts.resolve_cwd w w1) by done.
    apply (fun Hn => IH w1 Hrun Hn result after Hin Hafter).
    rewrite (written_keys_cwd buildRoot w w1) by done.
    by apply NoDup_app in Hnd as (_ & _ & ?).
Qed.

End edit_facts.

(** X20: when [applyChanges] succeeds, every edit is on disk: each change
    of [RefactoredInPlace] that has an after-snapshot finds the file at its
    path, with the content of the snapshot, in the tree [applyChanges]
    leaves, as long as no two of these changes write the same file (of two
    that do, the later one wins).  The pruning pass that follows does not
    touch these files. *)
Theorem applyChanges_writes_every_edit
    (range_keys : list string -> list string) (results : ResultsContainer)
    (w w' : World) :
  applyChanges range_keys results w = (w', None) ->
  NoDup (written_keys (ProjectRoot results) w (RefactoredInPlace results)) ->
  forall result after,
    In result (RefactoredInPlace results) -> After result = Some after ->
    tree w' !! os.resolve w (filepath.Join [ProjectRoot results; Path after])
    = Some (File (Content after)).
Proof.
  unfold applyChanges. intros Hrun Hnd result after Hin Hafter.
  destruct (apply_buckets results w) as [w4 [err|]] eqn:Hbuckets; [done|].
  unfold cleanupEmptyDirectories, prune in Hrun. simpl in Hrun.
  injection Hrun as <-.
  pose proof (prune_facts.remove_empty_safe
                (sort_by_depth
                   (range_keys (candidateDirs (ProjectRoot results) results))) w4 [])
    as Hsafe.
  cbv zeta in Hsafe. destruct Hsafe as (_ & _ & _ & Hanch & _).
  assert (Hheld : tree w4 !! os.resolve w (filepath.Join [ProjectRoot results; Path after])
                  = Some (File (Content after))).
  { revert Hbuckets. unfold apply_buckets.
    pose proof (edit_facts.for_each_cwd (apply_generated (ProjectRoot results))
                  (Generated results) w (edit_facts.apply_generated_cwd _)) as H1.
    destruct (for_each (apply_generated _) _ w) as [w1 [err|]]; simpl in H1; [done|].
    pose proof (edit_facts.for_each_cwd (apply_deleted (ProjectRoot results))
                  (Deleted results) w1 (edit_facts.apply_deleted_cwd _)) as H2.
    destruct (for_each (apply_deleted _) _ w1) as [w2 [err|]]; simpl in H2; [done|].
    pose proof (edit_facts.for_each_cwd (apply_moved (ProjectRoot results))
                  (Moved results) w2 (edit_facts.apply_moved_cwd _)) as H3.
    destruct (for_each (apply_moved _) _ w2) as [w3 [err|]]; simpl in H3; [done|].
    intros Hlast.
    assert (Hcwd : cwd w3 = cwd w) by congruence.
    rewrite <- (move_facts.resolve_cwd w w3) by done.
    apply (fun Hn => edit_facts.refactored_written _ _ _ _ Hlast Hn result after
                       Hin Hafter).
    by rewrite (edit_facts.written_keys_cwd _ w w3). }
  destruct (Hanch _ (anchored_file w4 _ _ Hheld)) as (_ & ->). exact Hheld.
Qed.

(** The edit of [a.txt]: the file holds the new text. *)
Lemma applyChanges_writes_every_edit_witness :
  exists w',
    applyChanges remove_dups one_edit one_text_world = (w', None) /\
    tree w' !! os.resolve one_text_world (filepath.Join ["/w"; "a.txt"])
    = Some (File "new text").
Proof.
  pose (w' := fst (applyChanges remove_dups one_edit one_text_world)).
  assert (Hrun : applyChanges remove_dups one_edit one_text_world = (w', None))
    by (vm_compute; reflexivity).
  assert (Hnd : NoDup (written_keys (ProjectRoot one_edit) one_text_world
                         (RefactoredInPlace one_edit))).
  { vm_compute. apply NoDup_singleton. }
  pose proof (applyChanges_writes_every_edit remove_dups one_edit one_text_world w'
                Hrun Hnd
                (change (Some (source_file "a.txt" "x"))
                        (Some (source_file "a.txt" "new text")))
                (source_file "a.txt" "new text") (or_introl eq_refl) eq_refl)
    as Hheld.
  exists w'. split; [exact Hrun | exact Hheld].
Defined.

(** ** Applying the same writes again *)

Module again_facts.

Lemma writeFile_fault (buildRoot : string) (sourceFile : SourceFile) (w : World) :
  fault (fst (writeFile buildRoot sourceFile w)) = fault w.
Proof.
  unfold writeFile.
  destruct (os.MkdirAll _ w) as [w1 [err|]] eqn:Hmk;
    pose proof (write_facts.mkdir_chain_fault _ _ _ _ Hmk) as Hflt; [done|].
  destruct (os.WriteFile _ _ w1) as [w2 [err|]] eqn:Hwr; simpl.
  - unfold os.WriteFile in Hwr.
    destruct (os.reach _ _ _ _ _); [done|]. by injection Hwr as <- _.
  - apply move_facts.WriteFile_done in Hwr. by subst w2.
Qed.

(** [writeFile] never replaces a directory. *)
Lemma writeFile_directories (buildRoot : string) (sourceFile : SourceFile)
    (w : World) (k : string) :
  os.node_at w k = Some Directory ->
  os.node_at (fst (writeFile buildRoot sourceFile w)) k = Some Directory.
Proof.
  intros Hk. unfold writeFile.
  destruct (os.MkdirAll _ w) as [w1 [err|]] eqn:Hmk;
    pose proof (write_facts.mkdir_chain_directories _ _ _ _ Hmk k Hk) as Hk1;
    [done|].
  destruct (os.WriteFile _ _ w1) as [w2 [err|]] eqn:Hwr; simpl.
  - unfold os.WriteFile in Hwr.
    destruct (os.reach _ _ _ _ _); [done|]. by injection Hwr as <- _.
  - destruct (write_facts.WriteFile_found _ _ _ _ Hwr) as (_ & _ & Hnode & ->).
    rewrite write_facts.node_at_insert_ne; [done|]. intros ->. done.
Qed.

Lemma writeFile_settles (buildRoot : string) (after : SourceFile) (w w' : World) :
  writeFile buildRoot after w = (w', None) -> settled buildRoot after w'.
Proof.
  intros Hwrite.
  destruct (write_facts.writeFile_steps _ _ _ _ Hwrite) as (w1 & Hmk & Hwr).
  pose proof (move_facts.MkdirAll_cwd _ _ _ _ Hmk) as Hcwd.
  destruct (write_facts.WriteFile_found _ _ _ _ Hwr) as (Hfault & Hparent & Hnode & ->).
  unfold settled. cbv zeta. rewrite !os_facts.resolve_set_tree.
  split; [|split].
  - intros d Hd. rewrite (move_facts.resolve_cwd w w1) in Hd by done.
    pose proof (write_facts.mkdir_chain_made _ _ _ Hmk d Hd) as Hdir.
    rewrite write_facts.node_at_insert_ne; [done|]. intros ->. done.
  - intros d Hd. unfold os.parent_error in Hparent.
    pose proof (proj1 (write_facts.search_None _ _) Hparent d Hd) as Hdir.
    rewrite write_facts.node_at_insert_ne; [done|]. intros ->. done.
  - split; [done|]. intros Eroot. rewrite Eroot in Hnode. by apply Hnode.
Qed.

Lemma settled_kept (buildRoot : string) (after other : SourceFile) (w : World) :
  settled buildRoot after w ->
  settled buildRoot after (fst (writeFile buildRoot other w)).
Proof.
  intros (Hchain & Hparent & Hfault & Hroot). unfold settled. cbv zeta.
  pose proof (write_rest.writeFile_cwd buildRoot other w) as Hcwd.
  rewrite !(move_facts.resolve_cwd w (fst (writeFile buildRoot other w))) by done.
  rewrite writeFile_fault. split; [|split; [|done]].
  - intros d Hd. by apply writeFile_directories, Hchain.
  - intros d Hd. by apply writeFile_directories, Hparent.
Qed.

(** Writing what is there already changes nothing. *)
Lemma settled_nothing_to_do (buildRoot : string) (after : SourceFile) (w : World) :
  settled buildRoot after w ->
  tree w !! os.resolve w (filepath.Join [buildRoot; Path after])
  = Some (File (Content after)) ->
  writeFile buildRoot after w = (w, None).
Proof.
  intros (Hchain & Hparent & Hfault & Hroot) Hheld. unfold writeFile, os.MkdirAll.
  rewrite write_facts.mkdir_chain_nothing_to_do by done.
  unfold os.WriteFile, os.reach. rewrite Hfault.
  unfold os.parent_error. rewrite (proj2 (write_facts.search_None _ _) Hparent).
  rewrite os_facts.node_at_tree by done. rewrite Hheld.
  rewrite insert_id by done. by destruct w.
Qed.

Lemma apply_refactored_settled (buildRoot : string) (after : SourceFile)
    (x : Result) (w : World) :
  settled buildRoot after w ->
  settled buildRoot after (fst (apply_refactored buildRoot x w)).
Proof.
  intros Hs. unfold apply_refactored. destruct (After x) as [other|]; [|done].
  pose proof (settled_kept buildRoot after other w Hs) as Hk.
  by destruct (writeFile buildRoot other w) as [w' [err|]].
Qed.

Lemma loop_settled (buildRoot : string) (after : SourceFile) (l : list Result)
    (w : World) :
  settled buildRoot after w ->
  settled buildRoot after (fst (for_each (apply_refactored buildRoot) l w)).
Proof.
  revert w; induction l as [|x l IH]; intros w Hs; simpl; [done|].
  pose proof (apply_refactored_settled buildRoot after x w Hs) as Hx.
  destruct (apply_refactored buildRoot x w) as [w1 [err|]]; [done|]. by apply IH.
Qed.

(** After the loop every file it wrote is settled. *)
Lemma loop_settles (buildRoot : string) (l : list Result) (w w' : World) :
  for_each (apply_refactored buildRoot) l w = (w', None) ->
  forall result after,
    In result l -> After result = Some after -> settled buildRoot after w'.
Proof.
  revert w; induction l as [|x l IH]; intros w Hrun result after Hin Hafter;
    [destruct Hin|].
  simpl in Hrun.
  destruct (apply_refactored buildRoot x w) as [w1 [err|]] eqn:Hx; [done|].
  destruct Hin as [<-|Hin]; [|by apply (IH w1 Hrun result after)].
  unfold apply_refactored in Hx. rewrite Hafter in Hx.
  destruct (writeFile buildRoot after w) as [w2 [err|]] eqn:Hwrite; [done|].
  injection Hx as ->.
  pose proof (loop_settled buildRoot after l w1 (writeFile_settles _ _ _ _ Hwrite))
    as Hend.
  by rewrite Hrun in Hend.
Qed.

(** A loop of writes that are all in place changes nothing. *)
Lemma loop_nothing_to_do (buildRoot : string) (l : list Result) (w : World) :
  (forall result after,
     In result l -> After result = Some after ->
     writeFile buildRoot after w = (w, None)) ->
  for_each (apply_refactored buildRoot) l w = (w, None).
Proof.
  induction l as [|x l IH]; intros Hall; simpl; [done|].
  assert (Hx : apply_refactored buildRoot x w = (w, None)).
  { unfold apply_refactored. destruct (After x) as [after|] eqn:Hafter; [|done].
    by rewrite (Hall x after (or_introl eq_refl) Hafter). }
  rewrite Hx. apply IH. intros result after Hin. apply Hall. by right.
Qed.

Lemma refactored_again (buildRoot : string) (l : list Result) (w w' : World) :
  for_each (apply_refactored buildRoot) l w = (w', None) ->
  NoDup (written_keys buildRoot w l) ->
  for_each (apply_refactored buildRoot) l w' = (w', None).
Proof.
  intros Hrun Hnd. apply loop_nothing_to_do. intros result after Hin Hafter.
  pose proof (edit_facts.for_each_cwd (apply_refactored buildRoot) l w
                (edit_facts.apply_refactored_cwd _)) as Hcwd.
  rewrite Hrun in Hcwd. simpl in Hcwd.
  apply settled_nothing_to_do.
  - by apply (loop_settles _ _ _ _ Hrun result after).
  - rewrite (move_facts.resolve_cwd w w') by done.
    by apply (edit_facts.refactored_written _ _ _ _ Hrun Hnd result after).
Qed.

(** The loop over [Generated] succeeds where the loop over
    [RefactoredInPlace] does, with the same tree. *)
Lemma generated_as_refactored (buildRoot : string) (l : list Result) (w w' : World) :
  for_each (apply_generated buildRoot) l w = (w', None) <->
  for_each (apply_refactored buildRoot) l w = (w', None).
Proof.
  revert w; induction l as [|x l IH]; intros w; simpl; [done|].
  unfold apply_generated, apply_refactored.
  destruct (After x) as [after|]; [|apply IH].
  destruct (writeFile buildRoot after w) as [w1 [err|]]; [done | apply IH].
Qed.

End again_facts.

(** X21: applying the same writes again is a no-op.  For a container that
    only generates and edits files, no two of them the same file: when
    [applyChanges] succeeded, [applyChanges] on the tree it left succeeds
    again and leaves the tree exactly as it is. *)
Theorem applyChanges_of_writes_twice
    (range_keys : list string -> list string) (results : ResultsContainer)
    (w w' : World) :
  ranges_over_keys range_keys ->
  writes_only results ->
  NoDup (written_keys (ProjectRoot results) w
           (Generated results ++ RefactoredInPlace results)) ->
  applyChanges range_keys results w = (w', None) ->
  applyChanges range_keys results w' = (w', None).
Proof.
  intros Hrange Hwrites Hnd.
  rewrite !writes_only_unpruned by done.
  assert (Hloops : forall w0 w1,
            apply_buckets results w0 = (w1, None) <->
            for_each (apply_refactored (ProjectRoot results))
              (Generated results ++ RefactoredInPlace results) w0 = (w1, None)).
  { intros w0 w1. unfold apply_buckets. destruct Hwrites as (-> & ->). simpl.
    rewrite for_each_app.
    destruct (for_each (apply_generated _) (Generated results) w0) as [w2 [err|]]
      eqn:Hgen.
    - split; [done|].
      destruct (for_each (apply_refactored _) (Generated results) w0) as [w3 [err'|]]
        eqn:Href; [done|].
      apply again_facts.generated_as_refactored in Href. congruence.
    - apply again_facts.generated_as_refactored in Hgen. by rewrite Hgen. }
  rewrite !Hloops. intros Hrun.
  by apply (again_facts.refactored_again _ _ w).
Qed.

(** The edit of [a.txt], applied twice. *)
Lemma applyChanges_of_writes_twice_witness :
  exists w',
    applyChanges remove_dups one_edit one_text_world = (w', None) /\
    applyChanges remove_dups one_edit w' = (w', None).
Proof.
  pose (w' := fst (applyChanges remove_dups one_edit one_text_world)).
  assert (Hrun : applyChanges remove_dups one_edit one_text_world = (w', None))
    by (vm_compute; reflexivity).
  assert (Hnd : NoDup (written_keys (ProjectRoot one_edit) one_text_world
                         (Generated one_edit ++ RefactoredInPlace one_edit))).
  { vm_compute. apply NoDup_singleton. }
  pose proof (applyChanges_of_writes_twice remove_dups one_edit one_text_world w'
                remove_dups_ranges_over_keys (conj eq_refl eq_refl) Hnd Hrun)
    as Hagain.
  exists w'. split; [exact Hrun | exact Hagain].
Defined.
